(** * Phase 10 rule engine: deck, phase matcher, turn engine and round scorer

    A shallow embedding of [src/utils/deck.ts], [src/utils/phaseValidation.ts]
    and the game actions of [src/stores/gameStore.ts], followed by the
    properties of the specification that were checked against them.

    Conventions of the embedding:
    - a JavaScript array is a [list]; [push] appends at the end and [pop]
      removes the last element;
    - card values and scores are integers ([Z]); sizes, quantities, seat and
      phase indices are array lengths or array indices ([nat]);
    - [Math.random] is an oracle handed to the function that calls it:
      [generateCardId : nat -> string] gives the id produced by the k-th call,
      [rnd : nat -> nat] gives the raw number used by [shuffle] at loop index
      [i] (the code keeps [floor(random * (i+1))], here [rnd i mod (i+1)]);
    - the rows of the tables [games] and [game_players] are the state; the
      store mirrors them through the realtime feed, so an action reads a
      snapshot of the rows and its writes produce the next snapshot. *)

From Stdlib Require Import String Ascii DecimalString.
From Stdlib Require Import ZArith Bool Arith Lia Permutation Sorted List.
Import ListNotations.

Set Implicit Arguments.

(* ================================================================== *)
(** ** Array helpers shared by the modules *)
(* ================================================================== *)

Module Js.

(** [a[i] = v] for an index inside the array (the only use in the code). *)
Fixpoint set_nth {A : Type} (i : nat) (v : A) (a : list A) : list A :=
  match a, i with
  | [], _ => []
  | _ :: t, O => v :: t
  | h :: t, S i' => h :: set_nth i' v t
  end.

(** [[a[i], a[j]] = [a[j], a[i]]] *)
Definition swap {A : Type} (i j : nat) (a : list A) : list A :=
  match nth_error a i, nth_error a j with
  | Some x, Some y => set_nth j x (set_nth i y a)
  | _, _ => a
  end.

(** [a.findIndex(f)], [None] standing for -1. *)
Fixpoint findIndex {A : Type} (f : A -> bool) (a : list A) : option nat :=
  match a with
  | [] => None
  | x :: t => if f x then Some 0 else option_map S (findIndex f t)
  end.

(** [[...new Set(a)]]: the first occurrence of every element, in order. *)
Fixpoint dedupe {A : Type} (eqb : A -> A -> bool) (a : list A) : list A :=
  match a with
  | [] => []
  | x :: t => x :: filter (fun y => negb (eqb x y)) (dedupe eqb t)
  end.

(** [a.sort(cmp)] for a comparator given as "less or equal"; the sort is
    stable, like the one of the language. *)
Fixpoint insert {A : Type} (leb : A -> A -> bool) (x : A) (s : list A) : list A :=
  match s with
  | [] => [x]
  | h :: t => if leb x h then x :: h :: t else h :: insert leb x t
  end.

Definition sort {A : Type} (leb : A -> A -> bool) (a : list A) : list A :=
  fold_right (insert leb) [] a.

(** [String(n)] for a non-negative integer. *)
Definition showNat (n : nat) : string :=
  NilZero.string_of_uint (Nat.to_uint n).

End Js.

(* ================================================================== *)
(** ** types/database.ts *)
(* ================================================================== *)

Inductive CardColor : Type := red | blue | green | yellow.

Definition CardColor_eqb (a b : CardColor) : bool :=
  match a, b with
  | red, red | blue, blue | green, green | yellow, yellow => true
  | _, _ => false
  end.

Record Card : Type := mkCard {
  card_id : string;
  color : CardColor;
  value : Z;          (* 1-12, 0 for wild, -1 for skip *)
  isWild : bool;
  isSkip : bool
}.

Inductive PhaseRequirementType : Type := set | run | color_group.

Record PhaseRequirement : Type := mkReq {
  type : PhaseRequirementType;
  size : nat;         (* how many cards in the grouping *)
  quantity : nat      (* how many of this grouping needed *)
}.

Inductive GameStatus : Type := lobby | playing | finished | abandoned.
Inductive TurnPhase : Type := draw | play | discard.

Record Game : Type := mkGame {
  game_id : string;
  status : GameStatus;
  current_player_index : nat;
  turn_phase : TurnPhase;
  draw_pile : list Card;
  discard_pile : list Card
}.

Record GamePlayer : Type := mkPlayer {
  player_id : string;
  user_id : string;
  seat_index : nat;
  hand : list Card;
  current_phase_index : nat;
  has_laid_down : bool;
  laid_down_cards : list (list Card);
  hits : list Card;
  score : Z
}.

(* ================================================================== *)
(** ** utils/deck.ts *)
(* ================================================================== *)

Module Deck.

Definition COLORS : list CardColor := [red; blue; green; yellow].
Definition VALUES : list Z := [1; 2; 3; 4; 5; 6; 7; 8; 9; 10; 11; 12]%Z.
Definition WILD_COUNT : nat := 8.
Definition SKIP_COUNT : nat := 4.

Section CreateDeck.
(** The id returned by the k-th call of [generateCardId]
    ([Math.random().toString(36).substring(2, 9)]). *)
Variable generateCardId : nat -> string.

(** [deck.push({ id: generateCardId(), ... })]: the call made for the
    k-th push is the k-th call, and [k] is the length of the deck then. *)
Definition push (deck : list Card) (c : CardColor) (v : Z) (w s : bool)
  : list Card :=
  deck ++ [mkCard (generateCardId (length deck)) c v w s].

Definition createDeck : list Card :=
  let deck : list Card := [] in
  let deck :=
    fold_left (fun deck (_ : nat) =>
      fold_left (fun deck c =>
        fold_left (fun deck v => push deck c v false false) VALUES deck)
        COLORS deck)
      (seq 0 2) deck in
  let deck :=
    fold_left (fun deck i => push deck (nth (i mod 4) COLORS red) 0%Z true false)
      (seq 0 WILD_COUNT) deck in
  let deck :=
    fold_left (fun deck i => push deck (nth i COLORS red) (-1)%Z false true)
      (seq 0 SKIP_COUNT) deck in
  deck.
End CreateDeck.

(** Fisher-Yates on a copy of the array: [for (i = n-1; i > 0; i--)]. *)
Fixpoint shuffle_loop {A : Type} (rnd : nat -> nat) (i : nat) (shuffled : list A)
  : list A :=
  match i with
  | O => shuffled
  | S i' =>
      let j := rnd i mod (i + 1) in
      shuffle_loop rnd i' (Js.swap i j shuffled)
  end.

Definition shuffle {A : Type} (rnd : nat -> nat) (array : list A) : list A :=
  shuffle_loop rnd (length array - 1) array.

Definition dealCards (deck : list Card) (count : nat) : list Card * list Card :=
  (firstn count deck, skipn count deck).

Fixpoint dealHands_loop (playerCount cardsPerPlayer : nat)
    (hands : list (list Card)) (remaining : list Card)
  : list (list Card) * list Card :=
  match playerCount with
  | O => (hands, remaining)
  | S n =>
      let '(hand, newRemaining) := dealCards remaining cardsPerPlayer in
      dealHands_loop n cardsPerPlayer (hands ++ [hand]) newRemaining
  end.

Definition dealHands (deck : list Card) (playerCount cardsPerPlayer : nat)
  : list (list Card) * list Card :=
  dealHands_loop playerCount cardsPerPlayer [] deck.

Definition createShuffledDeck (generateCardId : nat -> string) (rnd : nat -> nat)
  : list Card :=
  shuffle rnd (createDeck generateCardId).

(** The [while (drawPile.length > 0)] loop of [setupGame]; the result is
    [(drawPile, discardPile)].  [None] means the fuel ran out. *)
Fixpoint flipLoop (fuel : nat) (drawPile : list Card)
  : option (list Card * list Card) :=
  match drawPile with
  | [] => Some ([], [])
  | topCard :: newDraw =>
      match fuel with
      | O => None
      | S fuel' =>
          if isSkip topCard
          then flipLoop fuel' (newDraw ++ [topCard])
          else Some (newDraw, [topCard])
      end
  end.

Record Setup : Type := mkSetup {
  hands : list (list Card);
  drawPile : list Card;
  discardPile : list Card
}.

Definition setupGameFuel (fuel : nat) (generateCardId : nat -> string)
    (rnd : nat -> nat) (playerCount : nat) : option Setup :=
  let deck := createShuffledDeck generateCardId rnd in
  let '(hands, remaining) := dealHands deck playerCount 10 in
  match flipLoop fuel remaining with
  | Some (drawPile, discardPile) => Some (mkSetup hands drawPile discardPile)
  | None => None
  end.

(** One pass over the pile meets every card once, so the length of the
    pile is all the fuel the loop can use ([flipLoop_length_fuel]): [None]
    is returned exactly when the pile holds skip cards only, and then the
    loop of the source never stops ([flipLoop_all_skip]). *)
Definition setupGame (generateCardId : nat -> string) (rnd : nat -> nat)
    (playerCount : nat) : option Setup :=
  let deck := createShuffledDeck generateCardId rnd in
  let remaining := snd (dealHands deck playerCount 10) in
  setupGameFuel (length remaining) generateCardId rnd playerCount.

Definition getCardPoints (card : Card) : Z :=
  if isWild card then 25%Z
  else if isSkip card then 15%Z
  else if (10 <=? value card)%Z then 10%Z
  else 5%Z.

Definition calculateHandScore (hand : list Card) : Z :=
  fold_left (fun total card => (total + getCardPoints card)%Z) hand 0%Z.

Definition findCardById (cards : list Card) (cardId : string) : option Card :=
  find (fun card => String.eqb (card_id card) cardId) cards.

Definition removeCardById (cards : list Card) (cardId : string)
  : option Card * list Card :=
  match Js.findIndex (fun card => String.eqb (card_id card) cardId) cards with
  | None => (None, cards)
  | Some index =>
      (nth_error cards index, firstn index cards ++ skipn (S index) cards)
  end.

(** [const colorOrder = { red: 0, blue: 1, green: 2, yellow: 3 }] *)
Definition colorOrder (c : CardColor) : Z :=
  match c with
  | red => 0%Z
  | blue => 1%Z
  | green => 2%Z
  | yellow => 3%Z
  end.

(** The comparator of [sortCards]: wilds and skips at the end, then by
    colour, then by value. *)
Definition compareCards (a b : Card) : Z :=
  if isWild a && negb (isWild b) then 1%Z
  else if negb (isWild a) && isWild b then (-1)%Z
  else if isSkip a && negb (isSkip b) then 1%Z
  else if negb (isSkip a) && isSkip b then (-1)%Z
  else
    let colorDiff := (colorOrder (color a) - colorOrder (color b))%Z in
    if negb (colorDiff =? 0)%Z then colorDiff
    else (value a - value b)%Z.

(** [[...cards].sort(compare)]: [a] stays before [b] when the comparator is
    not positive. *)
Definition sortCards (cards : list Card) : list Card :=
  Js.sort (fun a b => (compareCards a b <=? 0)%Z) cards.

End Deck.

(* ================================================================== *)
(** ** utils/phaseValidation.ts *)
(* ================================================================== *)

Module PhaseValidation.

Record ValidationResult : Type := mkResult {
  valid : bool;
  groups : list (list Card);   (* how cards were grouped *)
  error : option string
}.

Definition typeName (t : PhaseRequirementType) : string :=
  match t with
  | set => "set"
  | run => "run"
  | color_group => "color"
  end.

Definition isValidSet (nonWilds : list Card) (wildCount : nat) : bool :=
  if length nonWilds =? 0 then true
  else
    let values := Js.dedupe Z.eqb (map value nonWilds) in
    length values <=? 1.

Definition isValidRun (nonWilds : list Card) (wildCount targetSize : nat) : bool :=
  if length nonWilds =? 0 then true
  else
    let values := Js.sort Z.leb (map value nonWilds) in
    let min := hd 0%Z values in
    let max := last values 0%Z in
    if negb (length (Js.dedupe Z.eqb values) =? length values) then false
    else
      let span := (max - min + 1)%Z in
      if (Z.of_nat targetSize <? span)%Z then false
      else
        let gaps := (span - Z.of_nat (length nonWilds))%Z in
        let extraNeeded := (Z.of_nat targetSize - span)%Z in
        (gaps <=? Z.of_nat wildCount)%Z
        && (0 <=? extraNeeded)%Z
        && (gaps + extraNeeded <=? Z.of_nat wildCount)%Z.

Definition isValidColor (nonWilds : list Card) (wildCount : nat) : bool :=
  if length nonWilds =? 0 then true
  else
    let colors := Js.dedupe CardColor_eqb (map color nonWilds) in
    length colors <=? 1.

Definition isValidGroup (cards : list Card) (t : PhaseRequirementType) : bool :=
  let wilds := filter (fun c => isWild c) cards in
  let nonWilds := filter (fun c => negb (isWild c) && negb (isSkip c)) cards in
  if existsb (fun c => isSkip c) cards then false
  else
    match t with
    | set => isValidSet nonWilds (length wilds)
    | run => isValidRun nonWilds (length wilds) (length cards)
    | color_group => isValidColor nonWilds (length wilds)
    end.

(** [removeIds.has(c.id)] *)
Definition removeCards (cards toRemove : list Card) : list Card :=
  let removeIds := map card_id toRemove in
  filter (fun c => negb (existsb (String.eqb (card_id c)) removeIds)) cards.

(** The combinations in the order [backtrack(0, [])] pushes them: those
    that take [array[start]] before those that start further right. *)
Fixpoint getCombinations {A : Type} (array : list A) (k : nat) : list (list A) :=
  match k, array with
  | O, _ => [[]]
  | S _, [] => []
  | S k', x :: rest =>
      map (cons x) (getCombinations rest k') ++ getCombinations rest k
  end.

Definition findValidGroups (cards : list Card) (t : PhaseRequirementType)
    (size : nat) : list (list Card) :=
  filter (fun combo => isValidGroup combo t) (getCombinations cards size).

(** [for (const group of possibleGroups) { ...; if (result.valid) return
    result }] followed by the statement after the loop. *)
Fixpoint forEachGroup (body : list Card -> option ValidationResult)
    (possibleGroups : list (list Card)) (otherwise : ValidationResult)
  : option ValidationResult :=
  match possibleGroups with
  | [] => Some otherwise
  | group :: rest =>
      match body group with
      | None => None
      | Some result =>
          if valid result then Some result
          else forEachGroup body rest otherwise
      end
  end.

(** The recursion of the source is on the requirement list, which grows
    when a quantity is expanded; [fuel] bounds the depth and [None] means
    it ran out ([tryAssignCards_fuel] shows [fuelFor] is enough). *)
Fixpoint tryAssignCards (fuel : nat) (remainingCards : list Card)
    (remainingRequirements : list PhaseRequirement)
    (assignedGroups : list (list Card)) {struct fuel}
  : option ValidationResult :=
  match fuel with
  | O => None
  | S fuel' =>
      match remainingRequirements with
      | [] => Some (mkResult true assignedGroups None)
      | currentReq :: otherReqs =>
          if 1 <? quantity currentReq then
            let expanded :=
              mkReq (type currentReq) (size currentReq) 1
              :: mkReq (type currentReq) (size currentReq) (quantity currentReq - 1)
              :: otherReqs in
            tryAssignCards fuel' remainingCards expanded assignedGroups
          else
            let possibleGroups :=
              findValidGroups remainingCards (type currentReq) (size currentReq) in
            forEachGroup
              (fun group =>
                 let newRemaining := removeCards remainingCards group in
                 tryAssignCards fuel' newRemaining otherReqs
                   (assignedGroups ++ [group]))
              possibleGroups
              (mkResult false []
                 (Some ("Cannot satisfy " ++ typeName (type currentReq)
                        ++ " of " ++ Js.showNat (size currentReq))%string))
      end
  end.

(** Depth of the recursion: a requirement of quantity [q > 1] is visited
    [2q - 1] times, any other once, and the empty list once. *)
Definition fuelFor (requirements : list PhaseRequirement) : nat :=
  S (fold_right (fun req n => 2 * Nat.max 1 (quantity req) - 1 + n) 0 requirements).

Definition validatePhase (cards : list Card) (requirements : list PhaseRequirement)
  : ValidationResult :=
  let totalNeeded :=
    fold_left (fun sum req => sum + size req * quantity req) requirements 0 in
  if negb (length cards =? totalNeeded) then
    mkResult false []
      (Some ("Need exactly " ++ Js.showNat totalNeeded ++ " cards, got "
             ++ Js.showNat (length cards))%string)
  else
    match tryAssignCards (fuelFor requirements) cards requirements [] with
    | Some result => result
    | None => mkResult false [] None   (* never taken: [tryAssignCards_fuel] *)
    end.

Definition canHitOnGroup (card : Card) (group : list Card)
    (t : PhaseRequirementType) : bool :=
  if isSkip card then false
  else if isWild card then true
  else
    let nonWilds := filter (fun c => negb (isWild c)) group in
    match t with
    | set =>
        match nonWilds with
        | [] => true
        | first :: _ => (value card =? value first)%Z
        end
    | run =>
        let values := Js.sort Z.leb (map value nonWilds) in
        if length values =? 0 then true
        else
          let min := hd 0%Z values in
          let max := last values 0%Z in
          let runLength := Z.of_nat (length group) in
          let theoreticalMin := (max - runLength + 1)%Z in
          let theoreticalMax := (min + runLength - 1)%Z in
          (value card =? theoreticalMin - 1)%Z || (value card =? theoreticalMax + 1)%Z
    | color_group =>
        match nonWilds with
        | [] => true
        | first :: _ => CardColor_eqb (color card) (color first)
        end
    end.

Definition getStandardPhases : list (list PhaseRequirement) :=
  [ [mkReq set 3 2];
    [mkReq set 3 1; mkReq run 4 1];
    [mkReq set 4 1; mkReq run 4 1];
    [mkReq run 7 1];
    [mkReq run 8 1];
    [mkReq run 9 1];
    [mkReq set 4 2];
    [mkReq color_group 7 1];
    [mkReq set 5 1; mkReq set 2 1];
    [mkReq set 5 1; mkReq set 3 1] ].

(** [sortedValues.every((v, i) => i === 0 || v === sortedValues[i-1] + 1)] *)
Fixpoint isSequential (sortedValues : list Z) : bool :=
  match sortedValues with
  | [] => true
  | v :: rest =>
      match rest with
      | [] => true
      | w :: _ => (w =? v + 1)%Z && isSequential rest
      end
  end.

Definition determineGroupType (group : list Card) : option PhaseRequirementType :=
  let nonWilds := filter (fun c => negb (isWild c) && negb (isSkip c)) group in
  if length nonWilds =? 0 then Some set
  else
    let values := Js.dedupe Z.eqb (map value nonWilds) in
    if length values =? 1 then Some set
    else
      let colors := Js.dedupe CardColor_eqb (map color nonWilds) in
      let sortedValues := Js.sort Z.leb (map value nonWilds) in
      if length colors =? 1 then
        if isSequential sortedValues then Some run else Some color_group
      else
        let minVal := hd 0%Z sortedValues in
        let maxVal := last sortedValues 0%Z in
        if ((maxVal - minVal + 1 =? Z.of_nat (length nonWilds))%Z
            && (length (Js.dedupe Z.eqb sortedValues) =? length nonWilds))%bool
        then Some run
        else
          let gaps := (maxVal - minVal + 1 - Z.of_nat (length nonWilds))%Z in
          let wildCount := Z.of_nat (length group - length nonWilds) in
          if (gaps <=? wildCount)%Z then Some run else None.

End PhaseValidation.

(* ================================================================== *)
(** ** stores/gameStore.ts: the game actions *)
(* ================================================================== *)

Module GameStore.
Import Deck PhaseValidation.

(** The rows an action reads and writes: the game, its players (as
    [loadGame] orders them) and the phases of its phase set. *)
Record Session : Type := mkSession {
  game : Game;
  players : list GamePlayer;
  phases : list (list PhaseRequirement)
}.

(** What an action hands back: the rows after its writes, the boolean it
    returns and the message it stores with [set({ error })], if any. *)
Record Result : Type := mkOutcome {
  rows : Session;
  returned : bool;
  message : option string
}.

Inductive Pile : Type := fromDraw | fromDiscard.

Definition TurnPhase_eqb (a b : TurnPhase) : bool :=
  match a, b with
  | draw, draw | play, play | discard, discard => true
  | _, _ => false
  end.

(** [players.find(p => p.user_id === user.id)], as [loadGame] and the
    realtime handler compute [currentPlayer]. *)
Definition currentPlayer (me : string) (s : Session) : option GamePlayer :=
  find (fun p => String.eqb (user_id p) me) (players s).

(** [[...players].sort((a, b) => a.seat_index - b.seat_index)] *)
Definition sortBySeat (ps : list GamePlayer) : list GamePlayer :=
  Js.sort (fun a b => seat_index a <=? seat_index b) ps.

(** [currentTurnPlayer?.user_id !== currentPlayer.user_id] *)
Definition notMyTurn (s : Session) (cur : GamePlayer) : bool :=
  match nth_error (sortBySeat (players s)) (current_player_index (game s)) with
  | Some currentTurnPlayer =>
      negb (String.eqb (user_id currentTurnPlayer) (user_id cur))
  | None => true
  end.

(** [array.pop()]: the last element and the array without it. *)
Definition pop {A : Type} (a : list A) : option (A * list A) :=
  match a with
  | [] => None
  | x :: t => Some (last a x, removelast a)
  end.

(** [supabase.from('game_players').update(...).eq('id', pid)] *)
Definition updatePlayer (pid : string) (f : GamePlayer -> GamePlayer)
    (table : list GamePlayer) : list GamePlayer :=
  map (fun row => if String.eqb (player_id row) pid then f row else row) table.

Definition withHand (h : list Card) (p : GamePlayer) : GamePlayer :=
  mkPlayer (player_id p) (user_id p) (seat_index p) h (current_phase_index p)
    (has_laid_down p) (laid_down_cards p) (hits p) (score p).

Definition withLaidDownCards (g : list (list Card)) (p : GamePlayer) : GamePlayer :=
  mkPlayer (player_id p) (user_id p) (seat_index p) (hand p)
    (current_phase_index p) (has_laid_down p) g (hits p) (score p).

Definition withLayDown (h : list Card) (g : list (list Card)) (p : GamePlayer)
  : GamePlayer :=
  mkPlayer (player_id p) (user_id p) (seat_index p) h (current_phase_index p)
    true g (hits p) (score p).

Definition withRoundEnd (newScore : Z) (newPhaseIndex : nat) (p : GamePlayer)
  : GamePlayer :=
  mkPlayer (player_id p) (user_id p) (seat_index p) [] newPhaseIndex
    false [] [] newScore.

Definition reject (s : Session) (msg : option string) : Result :=
  mkOutcome s false msg.

(* ---------------------------------------------------------------- *)
(** *** drawCard *)

(** The [try] block up to the writes: the drawn card and the two piles,
    or the message of the exception thrown. *)
Definition drawFrom (rnd : nat -> nat) (pile : Pile)
    (newDrawPile newDiscardPile : list Card)
  : string + (Card * list Card * list Card) :=
  match pile with
  | fromDraw =>
      if length newDrawPile =? 0 then
        if length newDiscardPile <=? 1 then inl "No cards left to draw"%string
        else
          match pop newDiscardPile with
          | Some (topDiscard, rest) =>
              match pop (shuffle rnd rest) with
              | Some (card, newDrawPile') => inr (card, newDrawPile', [topDiscard])
              | None => inl "No cards left to draw"%string   (* never taken *)
              end
          | None => inl "No cards left to draw"%string       (* never taken *)
          end
      else
        match pop newDrawPile with
        | Some (card, newDrawPile') => inr (card, newDrawPile', newDiscardPile)
        | None => inl "No cards left to draw"%string         (* never taken *)
        end
  | fromDiscard =>
      match pop newDiscardPile with
      | None => inl "Discard pile is empty"%string
      | Some (card, newDiscardPile') => inr (card, newDrawPile, newDiscardPile')
      end
  end.

Definition drawCard (rnd : nat -> nat) (me : string) (pile : Pile) (s : Session)
  : Result :=
  match currentPlayer me s with
  | None => reject s None
  | Some cur =>
      if notMyTurn s cur then reject s (Some "Not your turn"%string)
      else if negb (TurnPhase_eqb (turn_phase (game s)) draw)
      then reject s (Some "Already drew this turn"%string)
      else
        match drawFrom rnd pile (draw_pile (game s)) (discard_pile (game s)) with
        | inl err => reject s (Some err)
        | inr (card, newDrawPile, newDiscardPile) =>
            let newHand := hand cur ++ [card] in
            let g := game s in
            let g' := mkGame (game_id g) (status g) (current_player_index g)
                        play newDrawPile newDiscardPile in
            mkOutcome
              (mkSession g' (updatePlayer (player_id cur) (withHand newHand) (players s))
                 (phases s))
              true None
        end
  end.

(* ---------------------------------------------------------------- *)
(** *** layDownPhase *)

(** [for (const card of allCards) { [, remaining] = removeCardById(newHand,
    card.id); newHand = remaining }] *)
Definition removeAll (hand0 allCards : list Card) : list Card :=
  fold_left (fun newHand card => snd (removeCardById newHand (card_id card)))
    allCards hand0.

Definition layDownPhase (me : string) (cardGroups : list (list Card)) (s : Session)
  : Result :=
  match currentPlayer me s with
  | None => reject s None
  | Some cur =>
      if notMyTurn s cur then reject s (Some "Not your turn"%string)
      else if negb (TurnPhase_eqb (turn_phase (game s)) play)
      then reject s (Some "Cannot lay down during this phase"%string)
      else if has_laid_down cur
      then reject s (Some "Already laid down this round"%string)
      else
        match nth_error (phases s) (current_phase_index cur) with
        | None => reject s (Some "Invalid phase"%string)
        | Some requirements =>
            let allCards := concat cardGroups in
            let result := validatePhase allCards requirements in
            if negb (valid result) then
              reject s (Some match error result with
                             | Some e => e
                             | None => "Invalid phase"%string
                             end)
            else
              let newHand := removeAll (hand cur) allCards in
              mkOutcome
                (mkSession (game s)
                   (updatePlayer (player_id cur) (withLayDown newHand cardGroups)
                      (players s))
                   (phases s))
                true None
        end
  end.

(* ---------------------------------------------------------------- *)
(** *** hitOnGroup *)

Definition hitOnGroup (me : string) (targetPlayerId : string) (groupIndex : nat)
    (card : Card) (s : Session) : Result :=
  match currentPlayer me s with
  | None => reject s None
  | Some cur =>
      if notMyTurn s cur then reject s (Some "Not your turn"%string)
      else if negb (TurnPhase_eqb (turn_phase (game s)) play)
      then reject s (Some "Cannot hit during this phase"%string)
      else if negb (has_laid_down cur)
      then reject s (Some "Must lay down phase first"%string)
      else
        match find (fun p => String.eqb (player_id p) targetPlayerId) (players s) with
        | None => reject s (Some "Invalid target player"%string)
        | Some targetPlayer =>
            if negb (has_laid_down targetPlayer)
            then reject s (Some "Invalid target player"%string)
            else
              match nth_error (laid_down_cards targetPlayer) groupIndex with
              | None => reject s (Some "Invalid group"%string)
              | Some targetGroup =>
                  let allowed :=
                    match determineGroupType targetGroup with
                    | None => false
                    | Some groupType => canHitOnGroup card targetGroup groupType
                    end in
                  if negb allowed
                  then reject s (Some "Card cannot be added to this group"%string)
                  else
                    let newHand := snd (removeCardById (hand cur) (card_id card)) in
                    let newLaidDownCards :=
                      Js.set_nth groupIndex (targetGroup ++ [card])
                        (laid_down_cards targetPlayer) in
                    let table1 :=
                      updatePlayer (player_id cur) (withHand newHand) (players s) in
                    let table2 :=
                      updatePlayer (player_id targetPlayer)
                        (withLaidDownCards newLaidDownCards) table1 in
                    mkOutcome (mkSession (game s) table2 (phases s)) true None
              end
        end
  end.

(* ---------------------------------------------------------------- *)
(** *** handleRoundEnd and discardCard *)

(** [p => p.has_laid_down && p.current_phase_index + 1 >= maxPhase] *)
Definition completesAllPhases (maxPhase : nat) (p : GamePlayer) : bool :=
  has_laid_down p && (maxPhase <=? current_phase_index p + 1).

(** The writes of [handleRoundEnd] to [game_players] and [games] (the
    profile statistics live in another table).  The values written for a
    player are computed from the snapshot [players] passed by the caller.
    [None]: the loop of [setupGame] does not stop. *)
Definition handleRoundEnd (generateCardId : nat -> string) (rnd : nat -> nat)
    (s : Session) : option Session :=
  let g := game s in
  let table1 :=
    fold_left
      (fun table player =>
         let handScore := calculateHandScore (hand player) in
         let newScore := (score player + handScore)%Z in
         let newPhaseIndex :=
           if has_laid_down player then current_phase_index player + 1
           else current_phase_index player in
         updatePlayer (player_id player) (withRoundEnd newScore newPhaseIndex) table)
      (players s) (players s) in
  let maxPhase := length (phases s) in
  match find (completesAllPhases maxPhase) (players s) with
  | Some gameWinner =>
      Some (mkSession
              (mkGame (game_id g) finished (current_player_index g) (turn_phase g)
                 (draw_pile g) (discard_pile g))
              table1 (phases s))
  | None =>
      match setupGame generateCardId rnd (length (players s)) with
      | None => None
      | Some setup =>
          let sortedPlayers := sortBySeat (players s) in
          let table2 :=
            fold_left
              (fun table i =>
                 match nth_error sortedPlayers i with
                 | Some p =>
                     updatePlayer (player_id p) (withHand (nth i (hands setup) []))
                       table
                 | None => table
                 end)
              (seq 0 (length sortedPlayers)) table1 in
          Some (mkSession
                  (mkGame (game_id g) (status g) 0 draw (drawPile setup)
                     (discardPile setup))
                  table2 (phases s))
      end
  end.

(** [None]: the call does not return (the new round cannot be set up). *)
Definition discardCard (generateCardId : nat -> string) (rnd : nat -> nat)
    (me : string) (card : Card) (s : Session) : option Result :=
  match currentPlayer me s with
  | None => Some (reject s None)
  | Some cur =>
      if notMyTurn s cur then Some (reject s (Some "Not your turn"%string))
      else if negb (TurnPhase_eqb (turn_phase (game s)) play)
      then Some (reject s (Some "Must draw first"%string))
      else
        match removeCardById (hand cur) (card_id card) with
        | (None, _) => Some (reject s (Some "Card not in hand"%string))
        | (Some removedCard, newHand) =>
            let g := game s in
            let sortedPlayers := sortBySeat (players s) in
            let newDiscardPile := discard_pile g ++ [removedCard] in
            let isRoundOver := length newHand =? 0 in
            let nextPlayerIndex :=
              (current_player_index g + 1) mod length sortedPlayers in
            let actualNextIndex :=
              if isSkip card then (nextPlayerIndex + 1) mod length sortedPlayers
              else nextPlayerIndex in
            if isRoundOver then
              match handleRoundEnd generateCardId rnd s with
              | None => None
              | Some s' => Some (mkOutcome s' true None)
              end
            else
              Some (mkOutcome
                      (mkSession
                         (mkGame (game_id g) (status g) actualNextIndex draw
                            (draw_pile g) newDiscardPile)
                         (updatePlayer (player_id cur) (withHand newHand) (players s))
                         (phases s))
                      true None)
        end
  end.

(* ---------------------------------------------------------------- *)
(** *** startGame: [setupGame] followed by the [start_game] procedure *)

Definition startGame (generateCardId : nat -> string) (rnd : nat -> nat)
    (s : Session) : option Session :=
  if length (players s) <? 2 then Some s
  else if negb match status (game s) with lobby => true | _ => false end
  then Some s                         (* 'Game is not in lobby status' *)
  else
    match setupGame generateCardId rnd (length (players s)) with
    | None => None
    | Some setup =>
        let g := game s in
        let bySeat := sortBySeat (players s) in
        let table :=
          fold_left
            (fun table i =>
               match nth_error bySeat i with
               | Some p =>
                   updatePlayer (player_id p) (withHand (nth i (hands setup) [])) table
               | None => table
               end)
            (seq 0 (length bySeat)) (players s) in
        Some (mkSession
                (mkGame (game_id g) playing 0 draw (drawPile setup) (discardPile setup))
                table (phases s))
    end.

(* ---------------------------------------------------------------- *)
(** *** The conservation invariant of the data model *)

Definition cardsOf (p : GamePlayer) : list Card :=
  hand p ++ concat (laid_down_cards p) ++ hits p.

Definition allCards (s : Session) : list Card :=
  draw_pile (game s) ++ discard_pile (game s) ++ flat_map cardsOf (players s).

Fixpoint distinct (ids : list string) : bool :=
  match ids with
  | [] => true
  | x :: t => negb (existsb (String.eqb x) t) && distinct t
  end.

Definition conserved (s : Session) : bool :=
  (length (allCards s) =? 108) && distinct (map card_id (allCards s)).

Definition Conserved (s : Session) : Prop :=
  length (allCards s) = 108 /\ NoDup (map card_id (allCards s)).

Definition Card_eq_dec : forall a b : Card, {a = b} + {a <> b}.
Proof.
  decide equality; try apply Bool.bool_dec; try apply Z.eq_dec;
    try apply string_dec.
  decide equality.
Defined.

(** In how many places of [l] the card [x] lies. *)
Definition occ (x : Card) (l : list Card) : nat := count_occ Card_eq_dec l x.

(* ---------------------------------------------------------------- *)
(** *** The selection of cards, the game code and the seat of a joiner *)

(** [selectCard], [deselectCard] and [clearSelection] on [selectedCards]. *)
Definition selectCard (cardId : string) (selectedCards : list string) : list string :=
  if existsb (String.eqb cardId) selectedCards then selectedCards
  else selectedCards ++ [cardId].

Definition deselectCard (cardId : string) (selectedCards : list string)
  : list string :=
  filter (fun i => negb (String.eqb i cardId)) selectedCards.

Definition clearSelection (selectedCards : list string) : list string := [].

(** [generateGameCode]: six characters, each [chars[floor(random * 32)]];
    [rnd i] is the raw number of the i-th draw. *)
Definition codeChars : string := "ABCDEFGHJKLMNPQRSTUVWXYZ23456789".

Definition codeChar (r : nat) : string :=
  match String.get (r mod String.length codeChars) codeChars with
  | Some ch => String ch EmptyString
  | None => EmptyString
  end.

Definition generateGameCode (rnd : nat -> nat) : string :=
  fold_left (fun code i => (code ++ codeChar (rnd i))%string) (seq 0 6) EmptyString.

(** The seat given by [joinGame]: [settings?.maxPlayers || 6] seats at
    most, and the seat after the highest one taken
    ([Math.max(...seat_index) + 1], 0 at an empty table). *)
Definition capacity (maxPlayers : option nat) : nat :=
  match maxPlayers with
  | Some (S k) => S k
  | _ => 6
  end.

Definition joinSeat (maxPlayers : option nat) (seats : list nat) : string + nat :=
  if capacity maxPlayers <=? length seats then inl "Game is full"%string
  else
    inr (if 0 <? length seats then fold_right Nat.max 0 seats + 1 else 0).

End GameStore.

(* ================================================================== *)
(** ** Reference definitions, written from the specification *)
(* ================================================================== *)

Module Reference.
Import PhaseValidation.

(** *** Brute-force phase matching

    One slot per group that is needed; an assignment gives every card the
    number of a slot; the groups of an assignment are disjoint and cover
    the cards by construction.  The search tries every assignment. *)

Definition slots (requirements : list PhaseRequirement)
  : list (PhaseRequirementType * nat) :=
  flat_map (fun req => repeat (type req, size req) (quantity req)) requirements.

Fixpoint assignments (n m : nat) : list (list nat) :=
  match n with
  | O => [[]]
  | S n' => flat_map (fun a => map (fun i => i :: a) (seq 0 m)) (assignments n' m)
  end.

Definition groupOf (tagged : list (Card * nat)) (i : nat) : list Card :=
  map fst (filter (fun ca => snd ca =? i) tagged).

Fixpoint satisfiesFrom (i : nat) (tagged : list (Card * nat))
    (sl : list (PhaseRequirementType * nat)) : bool :=
  match sl with
  | [] => true
  | (t, sz) :: rest =>
      (length (groupOf tagged i) =? sz)
      && isValidGroup (groupOf tagged i) t
      && satisfiesFrom (S i) tagged rest
  end.

Definition bruteForce (cards : list Card) (requirements : list PhaseRequirement)
  : bool :=
  let sl := slots requirements in
  existsb (fun a => satisfiesFrom 0 (combine cards a) sl)
    (assignments (length cards) (length sl)).

(** *** The run rule as the specification words it *)

Fixpoint minimum (l : list Z) : Z :=
  match l with
  | [] => 0%Z
  | x :: t => match t with [] => x | _ :: _ => Z.min x (minimum t) end
  end.

Fixpoint maximum (l : list Z) : Z :=
  match l with
  | [] => 0%Z
  | x :: t => match t with [] => x | _ :: _ => Z.max x (maximum t) end
  end.

(** [max - min + 1]; no rank at all spans nothing. *)
Definition span (ranks : list Z) : Z :=
  match ranks with
  | [] => 0%Z
  | _ :: _ => (maximum ranks - minimum ranks + 1)%Z
  end.

(** "after removing wilds, the remaining ranks are pairwise distinct,
    (max - min + 1) <= size, and wildCount >= (max - min + 1) - nonWildCount" *)
Definition runRule (cards : list Card) (size : nat) : Prop :=
  let ranks := map value (filter (fun c => negb (isWild c)) cards) in
  let wildCount := length (filter (fun c => isWild c) cards) in
  NoDup ranks
  /\ (span ranks <= Z.of_nat size)%Z
  /\ (Z.of_nat wildCount >= span ranks - Z.of_nat (length ranks))%Z.

End Reference.

(* ================================================================== *)
(** ** Auxiliary definitions for the statements and the proofs *)
(* ================================================================== *)

Module Auxiliary.
Import PhaseValidation.

(** *** The search of the matcher, one group per step

    What [tryAssignCards] computes once every quantity is written out:
    [unfolded] lists one slot per group the code looks for (a quantity
    below one counts as one, as in the code), [search] is the backtracking
    over these slots. *)

Definition unfolded (requirements : list PhaseRequirement)
  : list (PhaseRequirementType * nat) :=
  flat_map (fun req => repeat (type req, size req) (Nat.max 1 (quantity req)))
    requirements.

Fixpoint search (sl : list (PhaseRequirementType * nat)) (cards : list Card) : bool :=
  match sl with
  | [] => true
  | (t, sz) :: rest =>
      existsb (fun group => search rest (removeCards cards group))
        (findValidGroups cards t sz)
  end.

Definition weight (requirements : list PhaseRequirement) : nat :=
  fold_right (fun req n => 2 * Nat.max 1 (quantity req) - 1 + n) 0 requirements.

(** [removeIds.has(c.id)] *)
Definition inIds (ids : list string) (c : Card) : bool :=
  existsb (String.eqb (card_id c)) ids.

(** [g] is [l] with some elements left out. *)
Inductive Subseq {A : Type} : list A -> list A -> Prop :=
| Subseq_nil : Subseq [] []
| Subseq_take : forall x g l, Subseq g l -> Subseq (x :: g) (x :: l)
| Subseq_drop : forall x g l, Subseq g l -> Subseq g (x :: l).

(** The assignment that gives slot 0 to the cards whose id is in [ids] and
    to the other cards, in order, the slots of [tagged] moved up by one. *)
Fixpoint weave (ids : list string) (cards : list Card) (tagged : list (Card * nat))
  : list (Card * nat) :=
  match cards with
  | [] => []
  | c :: cs =>
      if inIds ids c then (c, 0) :: weave ids cs tagged
      else
        match tagged with
        | [] => (c, 0) :: weave ids cs []
        | (_, i) :: tagged' => (c, S i) :: weave ids cs tagged'
        end
  end.

(** The assignment left for the other slots once slot 0 is served. *)
Definition lower (tagged : list (Card * nat)) : list (Card * nat) :=
  map (fun ca => (fst ca, pred (snd ca)))
    (filter (fun ca => negb (snd ca =? 0)) tagged).

(** The number of cards the slots take. *)
Definition cardsNeeded (sl : list (PhaseRequirementType * nat)) : nat :=
  fold_right (fun slot n => snd slot + n) 0 sl.

(** The groups satisfy the slots one by one, in order. *)
Definition satisfiesInOrder (cardGroups : list (list Card))
    (sl : list (PhaseRequirementType * nat)) : Prop :=
  Forall2 (fun group slot =>
             length group = snd slot /\ isValidGroup group (fst slot) = true)
    cardGroups sl.

(** *** Counting cards *)

Definition isNumbered (c : Card) : bool := negb (isWild c) && negb (isSkip c).

Definition copiesOf (col : CardColor) (v : Z) (deck : list Card) : nat :=
  length (filter (fun c => isNumbered c && CardColor_eqb (color c) col
                           && (value c =? v)%Z) deck).

Definition skipCount (l : list Card) : nat :=
  length (filter (fun c => isSkip c) l).

(** *** What a sorted array of numbers is *)

Inductive ascending : list Z -> Prop :=
| ascending_nil : ascending []
| ascending_one : forall x, ascending [x]
| ascending_cons : forall x y l,
    (x <= y)%Z -> ascending (y :: l) -> ascending (x :: y :: l).

(** The number of ways to take [k] elements out of [n]. *)
Fixpoint choose (n k : nat) : nat :=
  match k, n with
  | O, _ => 1
  | S _, O => 0
  | S k', S n' => choose n' k' + choose n' k
  end.

(** The rows hold no card. *)
Definition holdsNoCard (p : GamePlayer) : Prop :=
  hand p = [] /\ laid_down_cards p = [] /\ hits p = [].

End Auxiliary.

(* ================================================================== *)
(** ** Sample data used by the examples *)
(* ================================================================== *)

Module Sample.
Import Deck PhaseValidation GameStore.

(** Random outcomes: ids "0", "1", ... in the order of the calls, and a
    shuffle whose every draw is 0. *)
Definition freshIds (k : nat) : string := Js.showNat k.
Definition zeros (i : nat) : nat := 0.

(** [Math.random()] giving 0.5 at every call: every id is "i". *)
Definition sameIds (k : nat) : string := "i"%string.

Definition newPlayer (pid uid : string) (seat : nat) : GamePlayer :=
  mkPlayer pid uid seat [] 0 false [] [] 0%Z.

(** A lobby of two, alice on seat 0 and bob on seat 1, standard phases. *)
Definition lobbyOfTwo : Session :=
  mkSession (mkGame "g" lobby 0 draw [] [])
    [newPlayer "pa" "alice" 0; newPlayer "pb" "bob" 1]
    getStandardPhases.

Definition orElse (o : option Session) (d : Session) : Session :=
  match o with Some s => s | None => d end.

(** The round as dealt, and after alice has drawn from the pile. *)
Definition dealt : Session := orElse (startGame freshIds zeros lobbyOfTwo) lobbyOfTwo.
Definition afterDraw : Session := rows (drawCard zeros "alice" fromDraw dealt).

Definition numbered (i : string) (c : CardColor) (v : Z) : Card :=
  mkCard i c v false false.
Definition wild (i : string) : Card := mkCard i red 0%Z true false.
Definition skip (i : string) : Card := mkCard i red (-1)%Z false true.

Definition seated (pid uid : string) (seat : nat) (h : list Card)
    (phaseIndex : nat) (laid : bool) (laidDown : list (list Card)) : GamePlayer :=
  mkPlayer pid uid seat h phaseIndex laid laidDown [] 0%Z.

(** Alice to draw, the draw pile empty and five cards discarded. *)
Definition emptyDrawPile : Session :=
  mkSession
    (mkGame "g" playing 0 draw []
       [numbered "d1" red 1; numbered "d2" blue 2; numbered "d3" green 3;
        numbered "d4" yellow 4; numbered "d5" red 5])
    [seated "pa" "alice" 0 [numbered "a1" red 7] 0 false [];
     seated "pb" "bob" 1 [numbered "b1" blue 8] 0 false []]
    getStandardPhases.

(** Seats 0, 1 and 2; alice, on seat 0, to play with a skip in hand. *)
Definition threeSeats : Session :=
  mkSession
    (mkGame "g" playing 0 play [numbered "d1" red 1] [numbered "d2" blue 2])
    [seated "pa" "alice" 0 [skip "s1"; numbered "a1" red 7] 0 false [];
     seated "pb" "bob" 1 [numbered "b1" blue 8] 0 false [];
     seated "pc" "carol" 2 [numbered "c1" green 9] 0 false []]
    getStandardPhases.

Definition triple (i : string) (v : Z) : list Card :=
  [numbered (i ++ "r") red v; numbered (i ++ "b") blue v;
   numbered (i ++ "g") green v].

(** Alice has laid down phase [phaseIndex + 1] and holds one last card;
    bob has not laid down and holds a wild and a skip. *)
Definition lastCard (c : Card) (phaseIndex : nat) : Session :=
  mkSession
    (mkGame "g" playing 0 play [numbered "d1" red 1] [numbered "d2" blue 2])
    [seated "pa" "alice" 0 [c] phaseIndex true [triple "x" 3; triple "y" 4];
     seated "pb" "bob" 1 [wild "w1"; skip "s2"] 0 false []]
    getStandardPhases.

(** Alice to play, holding two triples and a seventh card. *)
Definition twoTriples : Session :=
  mkSession
    (mkGame "g" playing 0 play [numbered "d1" red 1] [numbered "d2" blue 2])
    [seated "pa" "alice" 0 (triple "x" 5 ++ triple "y" 7 ++ [numbered "z" red 9])
       0 false [];
     seated "pb" "bob" 1 [numbered "b1" blue 8] 0 false []]
    getStandardPhases.

Definition scoreboard (s : Session) : list (string * Z * nat) :=
  map (fun p => (user_id p, score p, current_phase_index p)) (players s).

(** Six wild cards that lie in the draw pile after alice has drawn. *)
Definition wildsOfPile : list Card :=
  filter (fun c => isWild c) (draw_pile (game afterDraw)).
Definition notInHand : list (list Card) :=
  [firstn 3 wildsOfPile; firstn 3 (skipn 3 wildsOfPile)].

(** The two triples of [twoTriples], one after the other. *)
Definition inOrder : list (list Card) := [triple "x" 5; triple "y" 7].

(** The two triples of [twoTriples], dealt out alternately. *)
Definition mixed : list (list Card) :=
  [[numbered "xr" red 5; numbered "yr" red 7; numbered "xb" blue 5];
   [numbered "yb" blue 7; numbered "xg" green 5; numbered "yg" green 7]].

Definition aliceOf (s : Session) : GamePlayer :=
  match currentPlayer "alice" s with
  | Some p => p
  | None => newPlayer "pa" "alice" 0
  end.

End Sample.

(* ================================================================== *)
(** * Properties *)
(* ================================================================== *)

(** ** Arrays *)

Section ArrayFacts.
Context {A : Type}.

Lemma set_nth_perm_head (h y : A) :
  forall (t : list A) (j : nat),
    nth_error t j = Some y ->
    Permutation (y :: Js.set_nth j h t) (h :: t).
Proof.
  induction t as [|a t IH]; intros [|j] Hj; simpl in *; try discriminate.
  - injection Hj as ->. apply perm_swap.
  - rewrite perm_swap. rewrite (IH _ Hj). apply perm_swap.
Qed.

Lemma set_nth_swap_perm :
  forall (a : list A) (i j : nat) (x y : A),
    nth_error a i = Some x ->
    nth_error a j = Some y ->
    Permutation (Js.set_nth j x (Js.set_nth i y a)) a.
Proof.
  induction a as [|h t IH]; intros [|i] [|j] x y Hi Hj; simpl in *;
    try discriminate.
  - injection Hi as ->. reflexivity.
  - injection Hi as ->. now apply set_nth_perm_head.
  - injection Hj as ->. now apply set_nth_perm_head.
  - apply perm_skip. now apply IH.
Qed.

Lemma swap_perm (i j : nat) (a : list A) : Permutation (Js.swap i j a) a.
Proof.
  unfold Js.swap.
  destruct (nth_error a i) as [x|] eqn:Hi; [|reflexivity].
  destruct (nth_error a j) as [y|] eqn:Hj; [|reflexivity].
  now apply set_nth_swap_perm.
Qed.

Lemma shuffle_loop_perm (rnd : nat -> nat) :
  forall (i : nat) (a : list A), Permutation (Deck.shuffle_loop rnd i a) a.
Proof.
  induction i as [|i IH]; intros a; simpl.
  - reflexivity.
  - rewrite IH. apply swap_perm.
Qed.

(** [shuffle] returns a permutation of its argument, whatever the random
    numbers are. *)
Lemma shuffle_perm (rnd : nat -> nat) (a : list A) :
  Permutation (Deck.shuffle rnd a) a.
Proof. apply shuffle_loop_perm. Qed.

Lemma filter_length_perm (f : A -> bool) (l l' : list A) :
  Permutation l l' -> length (filter f l) = length (filter f l').
Proof.
  induction 1 as [|x l l' _ IH|x y l|l l' l'' _ IH1 _ IH2]; simpl.
  - reflexivity.
  - destruct (f x); simpl; congruence.
  - destruct (f x), (f y); reflexivity.
  - congruence.
Qed.

Lemma filter_length_skipn (f : A -> bool) (n : nat) (l : list A) :
  length (filter f (skipn n l)) <= length (filter f l).
Proof.
  rewrite <- (firstn_skipn n l) at 2.
  rewrite filter_app, length_app. lia.
Qed.

Lemma firstn_plus (n m : nat) :
  forall l : list A, firstn (n + m) l = firstn n l ++ firstn m (skipn n l).
Proof.
  induction n as [|n IH]; intros [|x l]; simpl; try reflexivity.
  - now rewrite firstn_nil.
  - now rewrite IH.
Qed.

Lemma firstn_prefix (l1 l2 : list A) : firstn (length l1) (l1 ++ l2) = l1.
Proof. induction l1 as [|x l1 IH]; simpl; [now destruct l2 | now rewrite IH]. Qed.

Lemma skipn_after (l1 : list A) (x : A) (l2 : list A) :
  skipn (S (length l1)) (l1 ++ x :: l2) = l2.
Proof. induction l1 as [|y l1 IH]; simpl; [reflexivity | exact IH]. Qed.

Lemma filter_length_le (f : A -> bool) (l : list A) :
  length (filter f l) <= length l.
Proof.
  induction l as [|x l IH]; simpl; [lia|].
  destruct (f x); simpl; lia.
Qed.

Lemma filter_length_all (f : A -> bool) (l : list A) :
  length (filter f l) = length l <-> forall x, In x l -> f x = true.
Proof.
  induction l as [|a l IH]; simpl.
  - tauto.
  - pose proof (filter_length_le f l) as Hle.
    destruct (f a) eqn:Ha; simpl; split.
    + intros H x [<-|Hx]; auto. apply IH; auto.
    + intros H. f_equal. apply IH. auto.
    + intros H. lia.
    + intros H. rewrite (H a) in Ha; [discriminate | now left].
Qed.

Lemma filter_length_split (f : A -> bool) (l : list A) :
  length (filter f l) + length (filter (fun x => negb (f x)) l) = length l.
Proof.
  induction l as [|x l IH]; simpl; [reflexivity|].
  destruct (f x); simpl; lia.
Qed.

End ArrayFacts.

(** ** The deck *)

Section DeckFacts.
Import Deck Reference Auxiliary.

Variable generateCardId : nat -> string.
Variable rnd : nat -> nat.

Lemma createDeck_length : length (createDeck generateCardId) = 108.
Proof. vm_compute. reflexivity. Qed.

(** The k-th card carries the k-th generated id. *)
Lemma createDeck_ids :
  map card_id (createDeck generateCardId) = map generateCardId (seq 0 108).
Proof. vm_compute. reflexivity. Qed.

(** 96 numbered cards, two of every colour and rank, 8 wilds, 4 skips. *)
Lemma createDeck_composition :
  let deck := createDeck generateCardId in
  length deck = 108
  /\ length (filter isNumbered deck) = 96
  /\ (forall col v, In v VALUES -> copiesOf col v deck = 2)
  /\ length (filter (fun c => isWild c) deck) = 8
  /\ length (filter (fun c => isSkip c) deck) = 4
  /\ forallb (fun c => negb (isWild c && isSkip c)) deck = true.
Proof.
  cbv zeta.
  refine (conj _ (conj _ (conj _ (conj _ (conj _ _)))));
    [vm_compute; reflexivity | vm_compute; reflexivity | |
     vm_compute; reflexivity | vm_compute; reflexivity | vm_compute; reflexivity].
  intros col v Hv. unfold VALUES in Hv. simpl in Hv.
  destruct col;
    repeat (destruct Hv as [<-|Hv]; [vm_compute; reflexivity|]);
    contradiction.
Qed.

(** The ids are pairwise distinct as soon as the 108 generated ids are. *)
Lemma createDeck_ids_distinct :
  (forall i j, i < 108 -> j < 108 -> generateCardId i = generateCardId j -> i = j) ->
  NoDup (map card_id (createDeck generateCardId)).
Proof.
  intros Hinj. rewrite createDeck_ids.
  assert (Hseq : NoDup (seq 0 108)) by apply seq_NoDup.
  assert (Hlt : forall k, In k (seq 0 108) -> k < 108)
    by (intros k Hk; apply in_seq in Hk; lia).
  induction (seq 0 108) as [|k l IH]; simpl; constructor.
  - intros Hin. apply in_map_iff in Hin as (j & Hj & Hjl).
    inversion Hseq as [|? ? Hnotin _]; subst. apply Hnotin.
    assert (j = k) by (apply Hinj; auto using in_eq, in_cons).
    now subst.
  - inversion Hseq; subst. apply IH; auto using in_cons.
Qed.

Lemma createShuffledDeck_perm :
  Permutation (createShuffledDeck generateCardId rnd) (createDeck generateCardId).
Proof. unfold createShuffledDeck. exact (shuffle_perm rnd _). Qed.

Lemma dealHands_loop_spec :
  forall (n k : nat) (hs : list (list Card)) (remaining : list Card),
    snd (dealHands_loop n k hs remaining) = skipn (n * k) remaining
    /\ length (fst (dealHands_loop n k hs remaining)) = length hs + n
    /\ concat (fst (dealHands_loop n k hs remaining))
       = concat hs ++ firstn (n * k) remaining.
Proof.
  induction n as [|n IH]; intros k hs remaining; simpl.
  - rewrite app_nil_r. auto.
  - destruct (IH k (hs ++ [firstn k remaining]) (skipn k remaining))
      as (H1 & H2 & H3).
    rewrite H1, H2, H3, skipn_skipn, length_app, concat_app. simpl.
    rewrite app_nil_r, <- app_assoc.
    repeat split; [f_equal; lia | lia |].
    f_equal. rewrite firstn_plus. reflexivity.
Qed.

Lemma dealHands_snd (deck : list Card) (n k : nat) :
  snd (dealHands deck n k) = skipn (n * k) deck.
Proof. apply dealHands_loop_spec. Qed.

(** *** The flip loop of [setupGame] *)

Lemma flipLoop_finds :
  forall (skipped : list Card) (c : Card) (rest : list Card) (fuel : nat),
    Forall (fun x => isSkip x = true) skipped ->
    isSkip c = false ->
    length skipped < fuel ->
    flipLoop fuel (skipped ++ c :: rest) = Some (rest ++ skipped, [c]).
Proof.
  induction skipped as [|s skipped IH]; intros c rest fuel Hall Hc Hfuel;
    destruct fuel as [|fuel]; simpl in *; try lia.
  - rewrite Hc, app_nil_r. reflexivity.
  - inversion Hall as [|? ? Hs Hall']; subst. rewrite Hs.
    rewrite <- app_assoc. simpl.
    rewrite IH by (auto; lia).
    rewrite <- app_assoc. reflexivity.
Qed.

Lemma first_non_skip :
  forall l : list Card,
    skipCount l < length l ->
    exists skipped c rest,
      l = skipped ++ c :: rest
      /\ Forall (fun x => isSkip x = true) skipped
      /\ isSkip c = false
      /\ length skipped <= skipCount l.
Proof.
  unfold skipCount.
  induction l as [|x l IH]; simpl; intros Hlt; [lia|].
  destruct (isSkip x) eqn:Hx; simpl in *.
  - destruct IH as (skipped & c & rest & -> & Hall & Hc & Hlen); [lia|].
    exists (x :: skipped), c, rest. simpl. repeat split; auto. lia.
  - exists [], x, l. simpl. repeat split; auto. lia.
Qed.

(** A pile of skip cards only is turned over for ever: no fuel is enough. *)
Lemma flipLoop_all_skip :
  forall (fuel : nat) (l : list Card),
    l <> [] -> Forall (fun x => isSkip x = true) l -> flipLoop fuel l = None.
Proof.
  induction fuel as [|fuel IH]; intros [|x l] Hne Hall; simpl;
    try congruence.
  inversion Hall as [|? ? Hx Hl]; subst. rewrite Hx.
  apply IH.
  - destruct l; discriminate.
  - apply Forall_app. split; auto.
Qed.

Lemma flipLoop_fuel_mono :
  forall (fuel : nat) (l : list Card) r,
    flipLoop fuel l = Some r -> forall fuel', fuel <= fuel' -> flipLoop fuel' l = Some r.
Proof.
  induction fuel as [|fuel IH]; intros [|x l] r H fuel' Hle; simpl in *;
    try discriminate; try (destruct fuel'; exact H).
  destruct fuel' as [|fuel']; [lia|]. simpl.
  destruct (isSkip x); [|exact H].
  apply IH with (fuel' := fuel') in H; [exact H | lia].
Qed.

(** The length of the pile is all the fuel the loop can use. *)
Lemma flipLoop_length_fuel (l : list Card) (fuel : nat) :
  length l <= fuel -> flipLoop fuel l = flipLoop (length l) l.
Proof.
  intros Hfuel.
  destruct l as [|x l]; [destruct fuel; reflexivity|].
  pose proof (filter_length_le (fun c => isSkip c) (x :: l)) as Hle.
  destruct (Nat.eq_dec (skipCount (x :: l)) (length (x :: l))) as [Hall|Hsome].
  - assert (Hskips : Forall (fun c => isSkip c = true) (x :: l)).
    { apply Forall_forall. now apply filter_length_all. }
    rewrite !flipLoop_all_skip; auto; discriminate.
  - destruct (first_non_skip (x :: l)) as (skipped & c & rest & E & Hs & Hc & Hk);
      [unfold skipCount in *; lia|].
    rewrite E in *. rewrite !flipLoop_finds; auto; unfold skipCount in *; lia.
Qed.

Lemma remaining_skipCount (n : nat) :
  skipCount (snd (dealHands (createShuffledDeck generateCardId rnd) n 10)) <= 4.
Proof.
  rewrite dealHands_snd. unfold skipCount.
  etransitivity; [apply filter_length_skipn|].
  rewrite (filter_length_perm _ createShuffledDeck_perm).
  apply Nat.eq_le_incl. vm_compute. reflexivity.
Qed.

Lemma remaining_length (n : nat) :
  length (snd (dealHands (createShuffledDeck generateCardId rnd) n 10))
  = 108 - n * 10.
Proof.
  rewrite dealHands_snd, length_skipn.
  rewrite (Permutation_length createShuffledDeck_perm), createDeck_length.
  reflexivity.
Qed.

End DeckFacts.

Section SetupGame.
Import Deck Reference Auxiliary.

Variable generateCardId : nat -> string.
Variable rnd : nat -> nat.

(** With at most ten players the pile left after the deal holds more
    cards than the deck has skips, so the loop meets a card that is not a
    skip after turning over at most four skips. *)
Lemma setupGame_flips (playerCount : nat) :
  playerCount <= 10 ->
  exists setup skipped c rest,
    setupGame generateCardId rnd playerCount = Some setup
    /\ snd (dealHands (createShuffledDeck generateCardId rnd) playerCount 10)
       = skipped ++ c :: rest
    /\ Forall (fun x => isSkip x = true) skipped
    /\ isSkip c = false
    /\ length skipped <= 4
    /\ discardPile setup = [c]
    /\ drawPile setup = rest ++ skipped
    /\ forall fuel, length skipped < fuel ->
         setupGameFuel fuel generateCardId rnd playerCount = Some setup.
Proof.
  intros Hn.
  pose proof (remaining_skipCount generateCardId rnd playerCount) as Hskips.
  pose proof (remaining_length generateCardId rnd playerCount) as Hlen.
  unfold setupGame, setupGameFuel. revert Hskips Hlen.
  destruct (dealHands (createShuffledDeck generateCardId rnd) playerCount 10)
    as [hs remaining] eqn:Hdeal.
  cbn [snd length]. intros Hskips Hlen.
  destruct (first_non_skip remaining) as (skipped & c & rest & -> & Hall & Hc & Hk);
    [unfold skipCount in *; lia|].
  unfold skipCount in *.
  exists (mkSetup hs (rest ++ skipped) [c]), skipped, c, rest.
  assert (Hrun : forall fuel, length skipped < fuel ->
             flipLoop fuel (skipped ++ c :: rest) = Some (rest ++ skipped, [c]))
    by (intros; now apply flipLoop_finds).
  rewrite Hrun by (rewrite length_app; simpl; lia).
  repeat split; auto; try lia.
  intros fuel Hfuel. now rewrite (Hrun fuel Hfuel).
Qed.

(** [setupGame] returns for every number of players. *)
Lemma setupGame_total (playerCount : nat) :
  exists setup, setupGame generateCardId rnd playerCount = Some setup.
Proof.
  destruct (le_gt_dec playerCount 10) as [Hle|Hgt].
  - destruct (setupGame_flips Hle) as (setup & _ & _ & _ & H & _).
    now exists setup.
  - pose proof (remaining_length generateCardId rnd playerCount) as Hlen.
    unfold setupGame, setupGameFuel. revert Hlen.
    destruct (dealHands (createShuffledDeck generateCardId rnd) playerCount 10)
      as [hs remaining] eqn:Hdeal.
    cbn [snd length]. intros Hlen.
    destruct remaining; [|cbn [length] in Hlen; lia].
    simpl. eauto.
Qed.

(** C8. For every player count within the seat capacity (2 to 6),
    [setupGame] terminates: the loop pops cards from the pile left after
    the deal, puts every skip it pops at the bottom of that pile, reaches
    a card [c] that is not a skip, and the discard pile it returns is
    exactly [[c]].  Any fuel above the number of skips popped gives the
    same result. *)
Theorem setupGame_terminates (playerCount : nat) :
  2 <= playerCount <= 6 ->
  exists setup skipped c rest,
    setupGame generateCardId rnd playerCount = Some setup
    /\ snd (dealHands (createShuffledDeck generateCardId rnd) playerCount 10)
       = skipped ++ c :: rest
    /\ Forall (fun x => isSkip x = true) skipped
    /\ isSkip c = false
    /\ discardPile setup = [c]
    /\ drawPile setup = rest ++ skipped
    /\ forall fuel, length skipped < fuel ->
         setupGameFuel fuel generateCardId rnd playerCount = Some setup.
Proof.
  intros [_ Hle].
  destruct (@setupGame_flips playerCount) as
    (setup & skipped & c & rest & H1 & H2 & H3 & H4 & _ & H5 & H6 & H7); [lia|].
  exists setup, skipped, c, rest. auto 10.
Qed.

End SetupGame.

(** C9. [createDeck] always returns 108 cards of the stated composition
    ([createDeck_composition]), but their identities are whatever the 108
    random draws give: when [Math.random] repeats itself (here it returns
    0.5 every time, so that every id is "i") the deck has the 108 cards, 96
    numbered, 8 wild and 4 skip, and its ids are not pairwise distinct. *)
Theorem createDeck_ids_collide :
  length (Deck.createDeck Sample.sameIds) = 108
  /\ length (filter Auxiliary.isNumbered (Deck.createDeck Sample.sameIds)) = 96
  /\ length (filter (fun c => isWild c) (Deck.createDeck Sample.sameIds)) = 8
  /\ length (filter (fun c => isSkip c) (Deck.createDeck Sample.sameIds)) = 4
  /\ ~ NoDup (map card_id (Deck.createDeck Sample.sameIds)).
Proof.
  refine (conj _ (conj _ (conj _ (conj _ _)))); try (vm_compute; reflexivity).
  intros H. vm_compute in H.
  inversion H as [|x l Hnotin _]. apply Hnotin. left. reflexivity.
Qed.

(** ** The turn engine *)

Section StoreFacts.
Import Deck PhaseValidation GameStore.

Lemma insert_length {A : Type} (leb : A -> A -> bool) (x : A) (s : list A) :
  length (Js.insert leb x s) = S (length s).
Proof.
  induction s as [|h t IH]; simpl; [reflexivity|].
  destruct (leb x h); simpl; congruence.
Qed.

Lemma sort_length {A : Type} (leb : A -> A -> bool) (a : list A) :
  length (Js.sort leb a) = length a.
Proof.
  induction a as [|x a IH]; simpl; [reflexivity|].
  now rewrite insert_length, IH.
Qed.

Lemma sortBySeat_length (ps : list GamePlayer) :
  length (sortBySeat ps) = length ps.
Proof. apply sort_length. Qed.

Lemma pop_snoc {A : Type} (l : list A) (x : A) : pop (l ++ [x]) = Some (x, l).
Proof.
  unfold pop. destruct (l ++ [x]) as [|y t] eqn:E.
  - destruct l; discriminate.
  - rewrite <- E, last_last, removelast_last. reflexivity.
Qed.

Lemma snoc_of_nonempty {A : Type} (l : list A) :
  l <> [] -> exists rest x, l = rest ++ [x].
Proof.
  intros Hne. destruct l as [|d t]; [congruence|].
  exists (removelast (d :: t)), (last (d :: t) d).
  apply app_removelast_last. discriminate.
Qed.

(** The acting player after a write to the row of the acting player. *)
Lemma currentPlayer_updatePlayer (me : string) (cur : GamePlayer)
      (f : GamePlayer -> GamePlayer) :
  (forall p, user_id (f p) = user_id p) ->
  forall table,
    find (fun p => String.eqb (user_id p) me) table = Some cur ->
    find (fun p => String.eqb (user_id p) me)
         (updatePlayer (player_id cur) f table) = Some (f cur).
Proof.
  intros Hf. induction table as [|row table IH]; simpl; [discriminate|].
  destruct (String.eqb (user_id row) me) eqn:Hrow.
  - intros [= ->]. rewrite String.eqb_refl. simpl.
    now rewrite Hf, Hrow.
  - intros Hfind.
    destruct (String.eqb (player_id row) (player_id cur)); simpl;
      rewrite ?Hf, Hrow; auto.
Qed.

(** *** drawCard on an empty draw pile *)

(** C6. The active seat draws from the pile in the draw state and the
    draw pile is empty.  With at most one card in the discard pile the
    action fails with 'No cards left to draw' and the rows are unchanged.
    Otherwise the discard pile without its top card is shuffled into the
    new draw pile, the former top is the only card of the discard pile,
    the card drawn from the new pile is appended to the hand of the seat
    and the turn phase is [play]. *)
Theorem drawCard_empty_pile (rnd : nat -> nat) (me : string) (s : Session)
    (cur : GamePlayer) :
  currentPlayer me s = Some cur ->
  notMyTurn s cur = false ->
  turn_phase (game s) = draw ->
  draw_pile (game s) = [] ->
  (length (discard_pile (game s)) <= 1 ->
     drawCard rnd me fromDraw s
     = mkOutcome s false (Some "No cards left to draw"%string))
  /\ (1 < length (discard_pile (game s)) ->
      exists topDiscard rest card newDrawPile,
        discard_pile (game s) = rest ++ [topDiscard]
        /\ shuffle rnd rest = newDrawPile ++ [card]
        /\ Permutation (newDrawPile ++ [card]) rest
        /\ returned (drawCard rnd me fromDraw s) = true
        /\ draw_pile (game (rows (drawCard rnd me fromDraw s))) = newDrawPile
        /\ discard_pile (game (rows (drawCard rnd me fromDraw s))) = [topDiscard]
        /\ turn_phase (game (rows (drawCard rnd me fromDraw s))) = play
        /\ players (rows (drawCard rnd me fromDraw s))
           = updatePlayer (player_id cur) (withHand (hand cur ++ [card])) (players s)
        /\ option_map hand (currentPlayer me (rows (drawCard rnd me fromDraw s)))
           = Some (hand cur ++ [card])).
Proof.
  intros Hcur Hturn Hphase Hpile.
  unfold drawCard, drawFrom. rewrite Hcur, Hturn, Hphase, Hpile. simpl.
  split.
  - intros Hle. apply Nat.leb_le in Hle. rewrite Hle. reflexivity.
  - intros Hlt.
    assert (Hleb : (length (discard_pile (game s)) <=? 1) = false)
      by (apply Nat.leb_gt; exact Hlt).
    rewrite Hleb.
    destruct (@snoc_of_nonempty _ (discard_pile (game s)))
      as (rest & topDiscard & Hdisc).
    { intros E. rewrite E in Hlt. simpl in Hlt. lia. }
    rewrite Hdisc, pop_snoc.
    assert (Hrest : length rest <> 0).
    { rewrite Hdisc, length_app in Hlt. simpl in Hlt. lia. }
    destruct (@snoc_of_nonempty _ (shuffle rnd rest)) as (newDraw & card & Hsh).
    { intros E. apply Hrest.
      rewrite <- (Permutation_length (shuffle_perm rnd rest)), E. reflexivity. }
    rewrite Hsh, pop_snoc. simpl.
    exists topDiscard, rest, card, newDraw.
    repeat split; auto.
    + rewrite <- Hsh. apply shuffle_perm.
    + unfold currentPlayer in *. simpl.
      rewrite (@currentPlayer_updatePlayer me cur (withHand (hand cur ++ [card])));
        auto.
Qed.

End StoreFacts.

Section DiscardFacts.
Import Deck PhaseValidation GameStore.

Variable generateCardId : nat -> string.
Variable rnd : nat -> nat.

(** C7. A discard by the active seat in the play state that leaves cards
    in the hand succeeds; the next active seat is [(active + 1) mod
    seatCount], advanced by one more seat when the discarded card is a
    skip, and the turn phase becomes [draw].  With three seats and seat 0
    active, a discarded skip makes seat 2 the next active seat. *)
Theorem discardCard_next_seat (me : string) (card : Card) (s : Session)
    (cur : GamePlayer) (removedCard : Card) (newHand : list Card) :
  currentPlayer me s = Some cur ->
  notMyTurn s cur = false ->
  turn_phase (game s) = play ->
  removeCardById (hand cur) (card_id card) = (Some removedCard, newHand) ->
  newHand <> [] ->
  exists r,
    discardCard generateCardId rnd me card s = Some r
    /\ returned r = true
    /\ current_player_index (game (rows r))
       = (let seatCount := length (players s) in
          let next := (current_player_index (game s) + 1) mod seatCount in
          if isSkip card then (next + 1) mod seatCount else next)
    /\ turn_phase (game (rows r)) = draw
    /\ discard_pile (game (rows r)) = discard_pile (game s) ++ [removedCard]
    /\ draw_pile (game (rows r)) = draw_pile (game s)
    /\ option_map hand (currentPlayer me (rows r)) = Some newHand
    /\ (length (players s) = 3 -> current_player_index (game s) = 0 ->
        isSkip card = true -> current_player_index (game (rows r)) = 2).
Proof.
  intros Hcur Hturn Hphase Hrm Hne.
  unfold discardCard. rewrite Hcur, Hturn, Hphase, Hrm. simpl.
  assert (Hlen : (length newHand =? 0) = false)
    by (apply Nat.eqb_neq; destruct newHand; simpl; congruence).
  rewrite Hlen, sortBySeat_length.
  eexists. split; [reflexivity|]. simpl.
  repeat split.
  - unfold currentPlayer in *. simpl.
    rewrite (@currentPlayer_updatePlayer me cur (withHand newHand)); auto.
  - intros H3 H0 Hskip. rewrite H3, H0, Hskip. reflexivity.
Qed.

(** The round scorer returns: a new round can always be set up. *)
Lemma handleRoundEnd_total (s : Session) :
  exists s', handleRoundEnd generateCardId rnd s = Some s'.
Proof.
  unfold handleRoundEnd.
  destruct (find _ (players s)); [eauto|].
  destruct (setupGame_total generateCardId rnd (length (players s))) as (setup & ->).
  eauto.
Qed.

(** C10. When the active seat discards a skip card and that empties its
    hand, the call returns what the round scorer produces and the extra
    seat advance of the skip is not applied: if a player completes the
    last phase the game is finished and the active seat and turn phase
    are left as they were; if there is no winner the new round starts
    with seat 0 active in the draw state. *)
Theorem discardCard_skip_round_end (me : string) (card : Card) (s : Session)
    (cur : GamePlayer) (removedCard : Card) :
  currentPlayer me s = Some cur ->
  notMyTurn s cur = false ->
  turn_phase (game s) = play ->
  isSkip card = true ->
  removeCardById (hand cur) (card_id card) = (Some removedCard, []) ->
  exists s',
    handleRoundEnd generateCardId rnd s = Some s'
    /\ discardCard generateCardId rnd me card s = Some (mkOutcome s' true None)
    /\ match find (completesAllPhases (length (phases s))) (players s) with
       | Some _ =>
           status (game s') = finished
           /\ current_player_index (game s') = current_player_index (game s)
           /\ turn_phase (game s') = turn_phase (game s)
       | None =>
           status (game s') = status (game s)
           /\ current_player_index (game s') = 0
           /\ turn_phase (game s') = draw
       end.
Proof.
  intros Hcur Hturn Hphase Hskip Hrm.
  destruct (handleRoundEnd_total s) as (s' & Hs').
  exists s'. split; [exact Hs'|]. split.
  - unfold discardCard. rewrite Hcur, Hturn, Hphase, Hrm. simpl.
    now rewrite Hs'.
  - unfold handleRoundEnd in *.
    destruct (find _ (players s)).
    + injection Hs' as <-. simpl. auto.
    + destruct (setupGame generateCardId rnd (length (players s)));
        [|discriminate].
      injection Hs' as <-. simpl. auto.
Qed.

End DiscardFacts.

Section RoundEndFacts.
Import Deck PhaseValidation GameStore.

Lemma updatePlayer_absent (pid : string) (f : GamePlayer -> GamePlayer) :
  forall table,
    ~ In pid (map player_id table) -> updatePlayer pid f table = table.
Proof.
  induction table as [|row table IH]; simpl; intros Hnin; [reflexivity|].
  destruct (String.eqb_spec (player_id row) pid) as [E|_].
  - exfalso. apply Hnin. now left.
  - rewrite IH; auto.
Qed.

(** Writing every row from its own snapshot, in one pass. *)
Lemma updateEach (F : GamePlayer -> GamePlayer -> GamePlayer) :
  (forall p row, player_id (F p row) = player_id row) ->
  forall todo done,
    NoDup (map player_id (done ++ todo)) ->
    fold_left (fun table p => updatePlayer (player_id p) (F p) table)
      todo (done ++ todo)
    = done ++ map (fun p => F p p) todo.
Proof.
  intros Hid. induction todo as [|p todo IH]; intros done Hnd; simpl.
  - reflexivity.
  - assert (Hsplit : updatePlayer (player_id p) (F p) (done ++ p :: todo)
                     = (done ++ [F p p]) ++ todo).
    { rewrite map_app in Hnd. simpl in Hnd.
      pose proof (NoDup_remove_2 _ _ _ Hnd) as Hnotin.
      unfold updatePlayer at 1. rewrite map_app. simpl.
      rewrite String.eqb_refl.
      fold (updatePlayer (player_id p) (F p) done).
      fold (updatePlayer (player_id p) (F p) todo).
      rewrite !updatePlayer_absent, <- app_assoc; auto;
        intros Hin; apply Hnotin, in_or_app; auto. }
    rewrite Hsplit, IH.
    + rewrite <- app_assoc. reflexivity.
    + rewrite <- app_assoc. simpl.
      rewrite map_app in *. simpl in *. now rewrite Hid.
Qed.

Lemma updatePlayer_withHand_scores (pid : string) (h : list Card) table :
  map (fun p => (player_id p, score p, current_phase_index p))
      (updatePlayer pid (withHand h) table)
  = map (fun p => (player_id p, score p, current_phase_index p)) table.
Proof.
  unfold updatePlayer. rewrite map_map. apply map_ext.
  intros row. destruct (String.eqb (player_id row) pid); reflexivity.
Qed.

(** What the round scorer writes: every player gets the score of the
    hand recorded in the snapshot added, and moves to the next phase
    exactly when the snapshot says the player has laid down. *)
Lemma handleRoundEnd_scores (generateCardId : nat -> string) (rnd : nat -> nat)
      (s s' : Session) :
  NoDup (map player_id (players s)) ->
  handleRoundEnd generateCardId rnd s = Some s' ->
  map (fun p => (player_id p, score p, current_phase_index p)) (players s')
  = map (fun p =>
           (player_id p,
            (score p + calculateHandScore (hand p))%Z,
            if has_laid_down p then current_phase_index p + 1
            else current_phase_index p))
        (players s).
Proof.
  intros Hnd. unfold handleRoundEnd.
  pose proof (@updateEach
                (fun player =>
                   withRoundEnd (score player + calculateHandScore (hand player))%Z
                     (if has_laid_down player then current_phase_index player + 1
                      else current_phase_index player))
                (fun _ _ => eq_refl) (players s) [] Hnd) as Htable.
  simpl in Htable. rewrite Htable.
  assert (Hscored :
    map (fun p => (player_id p, score p, current_phase_index p))
        (map (fun p =>
                withRoundEnd (score p + calculateHandScore (hand p))%Z
                  (if has_laid_down p then current_phase_index p + 1
                   else current_phase_index p) p) (players s))
    = map (fun p =>
             (player_id p, (score p + calculateHandScore (hand p))%Z,
              if has_laid_down p then current_phase_index p + 1
              else current_phase_index p)) (players s))
    by (rewrite map_map; reflexivity).
  destruct (find _ (players s)).
  - intros [= <-]. exact Hscored.
  - destruct (setupGame generateCardId rnd (length (players s))) as [setup|];
      [|discriminate].
    intros [= <-]. simpl. rewrite <- Hscored.
    generalize (map (fun p =>
                withRoundEnd (score p + calculateHandScore (hand p))%Z
                  (if has_laid_down p then current_phase_index p + 1
                   else current_phase_index p) p) (players s)).
    induction (seq 0 (length (sortBySeat (players s)))) as [|i l IH];
      intros table; simpl; [reflexivity|].
    rewrite IH.
    destruct (nth_error (sortBySeat (players s)) i); [|reflexivity].
    apply updatePlayer_withHand_scores.
Qed.

End RoundEndFacts.

(** ** Removing cards from a hand *)

Section HandFacts.
Import Deck PhaseValidation GameStore.

Lemma findIndex_some {A : Type} (f : A -> bool) :
  forall (l : list A) (i : nat),
    Js.findIndex f l = Some i ->
    exists x, nth_error l i = Some x /\ f x = true
              /\ forall y, In y (firstn i l) -> f y = false.
Proof.
  induction l as [|a l IH]; simpl; intros i H; [discriminate|].
  destruct (f a) eqn:Ha.
  - injection H as <-. exists a. simpl. intuition.
  - destruct (Js.findIndex f l) as [k|]; [|discriminate].
    injection H as <-.
    destruct (IH k eq_refl) as (x & Hx & Hfx & Hbefore).
    exists x. simpl. repeat split; auto.
    intros y [<-|Hy]; auto.
Qed.

Lemma findIndex_none {A : Type} (f : A -> bool) :
  forall l : list A,
    Js.findIndex f l = None -> forall x, In x l -> f x = false.
Proof.
  induction l as [|a l IH]; simpl; intros H x Hx; [contradiction|].
  destruct (f a) eqn:Ha; [discriminate|].
  destruct (Js.findIndex f l); [discriminate|].
  destruct Hx as [<-|Hx]; auto.
Qed.

(** A found card is cut out of the array at its first position. *)
Lemma removeCardById_some (cards : list Card) (cardId : string) (c : Card)
      (remaining : list Card) :
  removeCardById cards cardId = (Some c, remaining) ->
  exists l1 l2,
    cards = l1 ++ c :: l2 /\ remaining = l1 ++ l2 /\ card_id c = cardId
    /\ forall y, In y l1 -> card_id y <> cardId.
Proof.
  unfold removeCardById.
  destruct (Js.findIndex _ cards) as [i|] eqn:Hi; [|discriminate].
  destruct (findIndex_some _ _ Hi) as (x & Hx & Hfx & Hbefore).
  intros H. rewrite Hx in H.
  assert (Hc : x = c) by congruence.
  assert (Hr : remaining = firstn i cards ++ skipn (S i) cards) by congruence.
  clear H. subst x remaining.
  destruct (nth_error_split _ _ Hx) as (l1 & l2 & -> & <-).
  exists l1, l2.
  rewrite firstn_prefix, skipn_after in *.
  repeat split; auto.
  - now apply String.eqb_eq.
  - intros y Hy E. apply Hbefore in Hy. apply String.eqb_neq in Hy. auto.
Qed.

Lemma removeCardById_none (cards : list Card) (cardId : string)
      (remaining : list Card) :
  removeCardById cards cardId = (None, remaining) ->
  remaining = cards /\ forall y, In y cards -> card_id y <> cardId.
Proof.
  unfold removeCardById.
  destruct (Js.findIndex _ cards) as [i|] eqn:Hi.
  - destruct (findIndex_some _ _ Hi) as (x & Hx & _). rewrite Hx. discriminate.
  - intros [= <-]. split; [reflexivity|].
    intros y Hy E. apply (findIndex_none _ _ Hi) in Hy.
    apply String.eqb_neq in Hy. auto.
Qed.

(** In a hand without two cards of the same id, a card of the hand is the
    one found under its id. *)
Lemma removeCardById_in (cards : list Card) (c : Card) :
  NoDup (map card_id cards) ->
  In c cards ->
  exists l1 l2,
    cards = l1 ++ c :: l2
    /\ removeCardById cards (card_id c) = (Some c, l1 ++ l2).
Proof.
  intros Hnd Hin.
  destruct (removeCardById cards (card_id c)) as [[x|] remaining] eqn:E.
  - destruct (removeCardById_some _ _ E) as (l1 & l2 & -> & -> & Hid & _).
    assert (Hxc : x = c).
    { rewrite map_app in Hnd. simpl in Hnd.
      apply in_app_or in Hin. simpl in Hin.
      pose proof (NoDup_remove_2 _ _ _ Hnd) as Hnotin.
      destruct Hin as [Hin|[Hin|Hin]]; auto; exfalso; apply Hnotin;
        rewrite Hid; apply in_or_app; [left|right]; now apply in_map. }
    subst x. exists l1, l2. split; reflexivity.
  - destruct (removeCardById_none _ _ E) as (_ & Hno).
    exfalso. now apply (Hno c).
Qed.

(** Cards of the hand, submitted once each, are exactly what the loop of
    [layDownPhase] takes out of the hand. *)
Lemma removeAll_perm :
  forall (submitted hand0 : list Card),
    NoDup (map card_id hand0) ->
    NoDup (map card_id submitted) ->
    incl submitted hand0 ->
    Permutation hand0 (removeAll hand0 submitted ++ submitted)
    /\ NoDup (map card_id (removeAll hand0 submitted)).
Proof.
  unfold removeAll.
  induction submitted as [|c cs IH]; intros hand0 Hh Hc Hincl; simpl.
  - rewrite app_nil_r. auto.
  - destruct (@removeCardById_in hand0 c Hh) as (l1 & l2 & -> & ->);
      [apply Hincl; now left|].
    simpl. inversion Hc as [|? ? Hnotin Hcs]; subst.
    assert (Hh' : NoDup (map card_id (l1 ++ l2))).
    { rewrite map_app in *. simpl in Hh. now apply NoDup_remove_1 in Hh. }
    destruct (IH (l1 ++ l2) Hh' Hcs) as (Hperm & Hnd).
    + intros x Hx. assert (Hx' : In x (l1 ++ c :: l2)) by (apply Hincl; now right).
      apply in_app_or in Hx'. apply in_or_app.
      destruct Hx' as [?|[<-|?]]; auto.
      exfalso. apply Hnotin. now apply in_map.
    + split; [|exact Hnd].
      transitivity (c :: l1 ++ l2); [symmetry; apply Permutation_middle|].
      etransitivity; [apply perm_skip, Hperm|]. apply Permutation_middle.
Qed.

End HandFacts.

Section LayDownFacts.
Import Deck PhaseValidation GameStore.

(** Reading of C2 that fails: the groups recorded are not the groups the
    matcher returns.  Alice holds two triples and submits them dealt out
    alternately; the matcher accepts the six cards and returns the two
    triples, the row keeps the groups as submitted. *)
Lemma layDownPhase_records_submitted_groups :
  returned (layDownPhase "alice" Sample.mixed Sample.twoTriples) = true
  /\ laid_down_cards
       (Sample.aliceOf (rows (layDownPhase "alice" Sample.mixed Sample.twoTriples)))
     = Sample.mixed
  /\ groups (validatePhase (concat Sample.mixed) [mkReq set 3 2])
     = [Sample.triple "x" 5; Sample.triple "y" 7]
  /\ laid_down_cards
       (Sample.aliceOf (rows (layDownPhase "alice" Sample.mixed Sample.twoTriples)))
     <> groups (validatePhase (concat Sample.mixed) [mkReq set 3 2]).
Proof.
  repeat split; try (vm_compute; reflexivity).
  vm_compute. discriminate.
Qed.

(** C1. The round is dealt to two players and alice draws from the
    pile: the rows are conserved (108 cards, no id twice).  She then lays
    down six wild cards that are in the draw pile, not in her hand: the
    call succeeds, her hand keeps its eleven cards, and the rows hold 114
    cards, six ids twice. *)
Theorem layDownPhase_breaks_conservation :
  startGame Sample.freshIds Sample.zeros Sample.lobbyOfTwo = Some Sample.dealt
  /\ conserved Sample.dealt = true
  /\ returned (drawCard Sample.zeros "alice" fromDraw Sample.dealt) = true
  /\ conserved Sample.afterDraw = true
  /\ forallb (fun c => existsb (String.eqb (card_id c))
                         (map card_id (draw_pile (game Sample.afterDraw)))
                     && negb (existsb (String.eqb (card_id c))
                                (map card_id (hand (Sample.aliceOf Sample.afterDraw)))))
       (concat Sample.notInHand) = true
  /\ returned (layDownPhase "alice" Sample.notInHand Sample.afterDraw) = true
  /\ length (hand (Sample.aliceOf
                     (rows (layDownPhase "alice" Sample.notInHand Sample.afterDraw))))
     = 11
  /\ length (allCards (rows (layDownPhase "alice" Sample.notInHand Sample.afterDraw)))
     = 114
  /\ conserved (rows (layDownPhase "alice" Sample.notInHand Sample.afterDraw)) = false.
Proof.
  refine (conj _ (conj _ (conj _ (conj _ (conj _ (conj _ (conj _ (conj _ _))))))));
    vm_compute; reflexivity.
Qed.

(** The same omission in [hitOnGroup]: alice, who has laid down, hits her
    own group with a wild card she does not hold; the call succeeds, her
    hand is unchanged and the rows hold one card more. *)
Lemma hitOnGroup_adds_a_card :
  let s := Sample.lastCard (Sample.numbered "a1" red 5) 0 in
  let r := hitOnGroup "alice" "pa" 0 (Sample.wild "w9") s in
  returned r = true
  /\ hand (Sample.aliceOf (rows r)) = hand (Sample.aliceOf s)
  /\ length (allCards (rows r)) = S (length (allCards s)).
Proof. vm_compute. auto. Qed.

(** C3. Alice has laid down and holds one card, a red 5; bob has not laid
    down and holds a wild and a skip.  Alice discards her card.  The scorer
    adds 40 to bob's score and moves alice, and not bob, to the next
    phase; alice's row gets the 5 points of the card she has just
    discarded, because the scorer reads the hands of the snapshot taken
    before the discard. *)
Theorem discardCard_scores_the_last_card :
  Sample.scoreboard (Sample.lastCard (Sample.numbered "a1" red 5) 0)
  = [("alice"%string, 0%Z, 0); ("bob"%string, 0%Z, 0)]
  /\ option_map (fun r => (returned r, Sample.scoreboard (rows r)))
       (discardCard Sample.freshIds Sample.zeros "alice"
          (Sample.numbered "a1" red 5)
          (Sample.lastCard (Sample.numbered "a1" red 5) 0))
     = Some (true, [("alice"%string, 5%Z, 1); ("bob"%string, 40%Z, 0)]).
Proof. split; vm_compute; reflexivity. Qed.

End LayDownFacts.

(** ** The theorems at sample inputs *)

Section Witnesses.
Import Deck PhaseValidation GameStore.

Lemma distinct_NoDup (ids : list string) : distinct ids = true -> NoDup ids.
Proof.
  induction ids as [|x ids IH]; simpl; intros H; constructor;
    apply andb_prop in H as [Hx Hrest]; auto.
  intros Hin. apply negb_true_iff in Hx.
  assert (Hex : existsb (String.eqb x) ids = true)
    by (apply existsb_exists; exists x; split; [exact Hin | apply String.eqb_refl]).
  congruence.
Qed.

Lemma setupGame_terminates_witness :
  exists setup skipped c rest,
    setupGame Sample.freshIds Sample.zeros 2 = Some setup
    /\ snd (dealHands (createShuffledDeck Sample.freshIds Sample.zeros) 2 10)
       = skipped ++ c :: rest
    /\ Forall (fun x => isSkip x = true) skipped
    /\ isSkip c = false
    /\ discardPile setup = [c]
    /\ drawPile setup = rest ++ skipped
    /\ forall fuel, length skipped < fuel ->
         setupGameFuel fuel Sample.freshIds Sample.zeros 2 = Some setup.
Proof.
  apply (@setupGame_terminates Sample.freshIds Sample.zeros 2). lia.
Defined.

Lemma drawCard_empty_pile_witness :
  exists topDiscard rest card newDrawPile,
    discard_pile (game Sample.emptyDrawPile) = rest ++ [topDiscard]
    /\ shuffle Sample.zeros rest = newDrawPile ++ [card]
    /\ Permutation (newDrawPile ++ [card]) rest
    /\ returned (drawCard Sample.zeros "alice" fromDraw Sample.emptyDrawPile) = true
    /\ draw_pile (game (rows (drawCard Sample.zeros "alice" fromDraw
                                Sample.emptyDrawPile))) = newDrawPile
    /\ discard_pile (game (rows (drawCard Sample.zeros "alice" fromDraw
                                   Sample.emptyDrawPile))) = [topDiscard]
    /\ turn_phase (game (rows (drawCard Sample.zeros "alice" fromDraw
                                 Sample.emptyDrawPile))) = play
    /\ players (rows (drawCard Sample.zeros "alice" fromDraw Sample.emptyDrawPile))
       = updatePlayer (player_id (Sample.aliceOf Sample.emptyDrawPile))
           (withHand (hand (Sample.aliceOf Sample.emptyDrawPile) ++ [card]))
           (players Sample.emptyDrawPile)
    /\ option_map hand
         (currentPlayer "alice"
            (rows (drawCard Sample.zeros "alice" fromDraw Sample.emptyDrawPile)))
       = Some (hand (Sample.aliceOf Sample.emptyDrawPile) ++ [card]).
Proof.
  apply (@drawCard_empty_pile Sample.zeros "alice" Sample.emptyDrawPile
           (Sample.aliceOf Sample.emptyDrawPile));
    try reflexivity.
  simpl. lia.
Defined.

Lemma discardCard_next_seat_witness :
  exists r,
    discardCard Sample.freshIds Sample.zeros "alice" (Sample.skip "s1")
      Sample.threeSeats = Some r
    /\ returned r = true
    /\ current_player_index (game (rows r)) = 2
    /\ turn_phase (game (rows r)) = draw.
Proof.
  destruct (@discardCard_next_seat Sample.freshIds Sample.zeros "alice"
              (Sample.skip "s1") Sample.threeSeats
              (Sample.aliceOf Sample.threeSeats) (Sample.skip "s1")
              [Sample.numbered "a1" red 7])
    as (r & Hr & Hok & _ & Hphase & _ & _ & _ & Hseat);
    try reflexivity; try discriminate.
  exists r. repeat split; auto.
Defined.

Lemma discardCard_skip_round_end_witness :
  exists s',
    handleRoundEnd Sample.freshIds Sample.zeros (Sample.lastCard (Sample.skip "a1") 0)
    = Some s'
    /\ discardCard Sample.freshIds Sample.zeros "alice" (Sample.skip "a1")
         (Sample.lastCard (Sample.skip "a1") 0)
       = Some (mkOutcome s' true None)
    /\ status (game s') = playing
    /\ current_player_index (game s') = 0
    /\ turn_phase (game s') = draw.
Proof.
  destruct (@discardCard_skip_round_end Sample.freshIds Sample.zeros "alice"
              (Sample.skip "a1") (Sample.lastCard (Sample.skip "a1") 0)
              (Sample.aliceOf (Sample.lastCard (Sample.skip "a1") 0))
              (Sample.skip "a1"))
    as (s' & Hend & Hdiscard & Hgame); try reflexivity.
  exists s'. simpl in Hgame. tauto.
Defined.

End Witnesses.

(** ** The phase matcher: sorting, duplicates and the run rule *)

Section SortFacts.
Import Reference Auxiliary.

Lemma insert_perm {A : Type} (leb : A -> A -> bool) (x : A) (s : list A) :
  Permutation (Js.insert leb x s) (x :: s).
Proof.
  induction s as [|h t IH]; simpl; [reflexivity|].
  destruct (leb x h); [reflexivity|].
  rewrite IH. apply perm_swap.
Qed.

Lemma sort_perm {A : Type} (leb : A -> A -> bool) (a : list A) :
  Permutation (Js.sort leb a) a.
Proof.
  induction a as [|x a IH]; simpl; [reflexivity|].
  rewrite insert_perm. now apply perm_skip.
Qed.

Lemma insert_ascending (x : Z) (s : list Z) :
  ascending s -> ascending (Js.insert Z.leb x s).
Proof.
  induction 1 as [|y|y z l Hyz Hs IH]; simpl.
  - constructor.
  - destruct (Z.leb_spec x y); repeat constructor; lia.
  - destruct (Z.leb_spec x y) as [Hxy|Hxy].
    + repeat constructor; auto.
    + simpl in IH. destruct (Z.leb_spec x z); constructor; auto; try lia.
Qed.

Lemma sort_ascending (a : list Z) : ascending (Js.sort Z.leb a).
Proof.
  induction a as [|x a IH]; simpl; [constructor | now apply insert_ascending].
Qed.

Lemma ascending_last (d : Z) :
  forall (l : list Z) (h : Z), ascending (h :: l) -> (h <= last (h :: l) d)%Z.
Proof.
  induction l as [|a l IH]; intros h H; simpl.
  - lia.
  - inversion H; subst. specialize (IH a ltac:(assumption)).
    simpl in IH. lia.
Qed.

Lemma insert_nonempty {A : Type} (leb : A -> A -> bool) (x : A) (s : list A) :
  Js.insert leb x s <> [].
Proof. destruct s as [|h t]; simpl; [|destruct (leb x h)]; discriminate. Qed.

Lemma insert_hd (d x : Z) (s : list Z) :
  s <> [] -> hd d (Js.insert Z.leb x s) = Z.min x (hd d s).
Proof.
  destruct s as [|h t]; [congruence|]. intros _. simpl.
  destruct (Z.leb_spec x h); simpl; lia.
Qed.

Lemma insert_last (d x : Z) :
  forall s : list Z,
    ascending s -> s <> [] -> last (Js.insert Z.leb x s) d = Z.max x (last s d).
Proof.
  induction s as [|h t IH]; intros Hs Hne; [congruence|].
  simpl Js.insert. destruct (Z.leb_spec x h) as [Hxh|Hxh].
  - pose proof (ascending_last d Hs) as Hlast.
    change (last (x :: h :: t) d) with (last (h :: t) d). lia.
  - destruct t as [|a t].
    + simpl. lia.
    + assert (Hins : last (h :: Js.insert Z.leb x (a :: t)) d
                     = last (Js.insert Z.leb x (a :: t)) d).
      { pose proof (@insert_nonempty _ Z.leb x (a :: t)).
        destruct (Js.insert Z.leb x (a :: t)); [congruence|reflexivity]. }
      rewrite Hins, IH; [reflexivity| |discriminate].
      inversion Hs; assumption.
Qed.

Lemma sort_nonempty {A : Type} (leb : A -> A -> bool) (a : list A) :
  a <> [] -> Js.sort leb a <> [].
Proof.
  destruct a as [|x a]; [congruence|]. intros _. simpl. apply insert_nonempty.
Qed.

Lemma sort_hd_minimum (d : Z) :
  forall l : list Z, l <> [] -> hd d (Js.sort Z.leb l) = Reference.minimum l.
Proof.
  induction l as [|x l IH]; intros Hne; [congruence|].
  destruct l as [|y l]; [reflexivity|].
  change (Js.sort Z.leb (x :: y :: l))
    with (Js.insert Z.leb x (Js.sort Z.leb (y :: l))).
  rewrite insert_hd by (apply sort_nonempty; discriminate).
  rewrite IH by discriminate. reflexivity.
Qed.

Lemma sort_last_maximum (d : Z) :
  forall l : list Z, l <> [] -> last (Js.sort Z.leb l) d = Reference.maximum l.
Proof.
  induction l as [|x l IH]; intros Hne; [congruence|].
  destruct l as [|y l]; [reflexivity|].
  change (Js.sort Z.leb (x :: y :: l))
    with (Js.insert Z.leb x (Js.sort Z.leb (y :: l))).
  rewrite insert_last;
    [|apply sort_ascending | apply sort_nonempty; discriminate].
  rewrite IH by discriminate. reflexivity.
Qed.

(** *** [new Set(values).size] *)

Lemma dedupe_In (x : Z) (l : list Z) : In x (Js.dedupe Z.eqb l) <-> In x l.
Proof.
  induction l as [|a l IH]; simpl; [tauto|].
  rewrite filter_In, IH, negb_true_iff, Z.eqb_neq.
  destruct (Z.eq_dec a x); intuition.
Qed.

Lemma dedupe_length_le (l : list Z) : length (Js.dedupe Z.eqb l) <= length l.
Proof.
  induction l as [|a l IH]; simpl; [lia|].
  pose proof (filter_length_le (fun y => negb (a =? y)%Z) (Js.dedupe Z.eqb l)).
  lia.
Qed.

Lemma dedupe_length_NoDup (l : list Z) :
  length (Js.dedupe Z.eqb l) = length l <-> NoDup l.
Proof.
  induction l as [|a l IH]; simpl.
  - split; [constructor | reflexivity].
  - pose proof (filter_length_le (fun y => negb (a =? y)%Z) (Js.dedupe Z.eqb l)).
    pose proof (dedupe_length_le l).
    split.
    + intros Hlen.
      assert (H1 : length (filter (fun y => negb (a =? y)%Z) (Js.dedupe Z.eqb l))
                   = length (Js.dedupe Z.eqb l)) by lia.
      assert (H2 : length (Js.dedupe Z.eqb l) = length l) by lia.
      constructor; [|now apply IH].
      intros Hin. apply dedupe_In in Hin.
      apply (proj1 (filter_length_all _ _) H1) in Hin.
      rewrite Z.eqb_refl in Hin. discriminate.
    + intros Hnd. inversion Hnd as [|? ? Hnotin Hnd']; subst.
      f_equal. rewrite <- (proj2 IH Hnd').
      apply filter_length_all. intros x Hx.
      apply negb_true_iff, Z.eqb_neq. intros ->.
      apply Hnotin. now apply dedupe_In.
Qed.

End SortFacts.

Section RunRule.
Import PhaseValidation Reference Auxiliary.

Lemma existsb_isSkip_false (cards : list Card) :
  existsb (fun c => isSkip c) cards = false
  <-> forall c, In c cards -> isSkip c = false.
Proof.
  induction cards as [|a cards IH]; simpl.
  - split; [intros _ c [] | reflexivity].
  - rewrite orb_false_iff, IH. split.
    + intros [Ha H] c [<-|Hc]; auto.
    + intros H. split; auto.
Qed.

Lemma nonWilds_without_skip (cards : list Card) :
  (forall c, In c cards -> isSkip c = false) ->
  filter (fun c => negb (isWild c) && negb (isSkip c)) cards
  = filter (fun c => negb (isWild c)) cards.
Proof.
  intros H. apply filter_ext_in. intros c Hc.
  rewrite (H c Hc). simpl. apply andb_true_r.
Qed.

(** The run test, given the non-wild ranks: the numbers the code computes
    from the sorted array are the ones the rule names. *)
Lemma isValidRun_rule (nonWilds : list Card) (wildCount : nat) :
  isValidRun nonWilds wildCount (length nonWilds + wildCount) = true
  <-> NoDup (map value nonWilds)
      /\ (span (map value nonWilds) <= Z.of_nat (length nonWilds + wildCount))%Z
      /\ (Z.of_nat wildCount
          >= span (map value nonWilds) - Z.of_nat (length (map value nonWilds)))%Z.
Proof.
  unfold isValidRun. rewrite length_map.
  destruct nonWilds as [|c nonWilds].
  - simpl. split; [intros _|reflexivity].
    repeat split; [constructor|lia|lia].
  - set (ranks := map value (c :: nonWilds)).
    assert (Hne : ranks <> []) by discriminate.
    change (length (c :: nonWilds) =? 0) with false. cbv iota.
    rewrite (sort_hd_minimum 0%Z Hne), (sort_last_maximum 0%Z Hne).
    assert (Hspan : span ranks = (maximum ranks - minimum ranks + 1)%Z)
      by reflexivity.
    rewrite Hspan.
    assert (Hdup : (length (Js.dedupe Z.eqb (Js.sort Z.leb ranks))
                    =? length (Js.sort Z.leb ranks)) = true <-> NoDup ranks).
    { rewrite Nat.eqb_eq, dedupe_length_NoDup.
      split; apply Permutation_NoDup;
        [apply sort_perm | symmetry; apply sort_perm]. }
    set (M := maximum ranks) in *. set (m := minimum ranks) in *.
    set (n := length (c :: nonWilds)) in *. clearbody M m n.
    destruct (length (Js.dedupe Z.eqb (Js.sort Z.leb ranks))
              =? length (Js.sort Z.leb ranks)) eqn:Hd; cbn [negb]; cbv zeta.
    + destruct (Z.ltb_spec (Z.of_nat (n + wildCount)) (M - m + 1)) as [Hlt|Hge].
      * split; [discriminate|]. intros (_ & H & _). lia.
      * rewrite !andb_true_iff, !Z.leb_le.
        split.
        -- intros _. split; [now apply Hdup|]. rewrite Nat2Z.inj_add in *. lia.
        -- intros _. rewrite Nat2Z.inj_add in *. lia.
    + split; [discriminate|]. intros (Hnd & _).
      apply Hdup in Hnd. discriminate.
Qed.

(** C5 (as the code has it). [isValidGroup(cards, 'run')] is true if and
    only if no card of the list is a skip and, after removing wilds, the
    ranks are pairwise distinct, [max - min + 1 <= size] and [wildCount >=
    (max - min + 1) - nonWildCount], where [size] is the number of cards of
    the list.  (The conjunct [gaps + extraNeeded <= wildCount] of the code
    adds nothing.) *)
Theorem isValidGroup_run (cards : list Card) :
  isValidGroup cards run = true
  <-> (forall c, In c cards -> isSkip c = false)
      /\ runRule cards (length cards).
Proof.
  unfold isValidGroup, runRule.
  destruct (existsb (fun c => isSkip c) cards) eqn:Hskip.
  - split; [discriminate|]. intros [Hno _].
    apply (proj2 (existsb_isSkip_false cards)) in Hno. congruence.
  - pose proof (proj1 (existsb_isSkip_false cards) Hskip) as Hno.
    rewrite (nonWilds_without_skip _ Hno).
    assert (Hlen : length cards
                   = length (filter (fun c => negb (isWild c)) cards)
                     + length (filter (fun c => isWild c) cards)).
    { rewrite <- (filter_length_split (fun c => isWild c) cards) at 1. lia. }
    rewrite Hlen.
    rewrite isValidRun_rule. tauto.
Qed.

(** The rule of C5 alone accepts a list that contains a skip: for the
    single skip card the ranks left after removing wilds are [[-1]], which
    are distinct and span one card (and no rank at all is left if the skip
    is removed with the wilds), yet [isValidGroup] rejects the list. *)
Lemma isValidGroup_run_rejects_skip :
  runRule [Sample.skip "s1"] 1
  /\ runRule (filter (fun c => negb (isSkip c)) [Sample.skip "s1"]) 1
  /\ isValidGroup [Sample.skip "s1"] run = false.
Proof.
  split; [|split; [|reflexivity]].
  - unfold runRule. simpl. repeat split; try lia.
    repeat constructor. simpl. tauto.
  - unfold runRule. simpl. repeat split; try lia. constructor.
Qed.

End RunRule.

(** ** The phase matcher against the brute-force search *)

Section MatcherFacts.
Import PhaseValidation Reference Auxiliary.

Lemma forEachGroup_existsb (body : list Card -> option ValidationResult)
      (P : list Card -> bool) (otherwise : ValidationResult) :
  valid otherwise = false ->
  forall possibleGroups,
    (forall g, In g possibleGroups ->
       exists r, body g = Some r /\ valid r = P g) ->
    exists r, forEachGroup body possibleGroups otherwise = Some r
              /\ valid r = existsb P possibleGroups.
Proof.
  intros Hother. induction possibleGroups as [|g gs IH]; intros Hbody; simpl.
  - eauto.
  - destruct (Hbody g (or_introl eq_refl)) as (r & -> & Hr).
    destruct (valid r) eqn:Hv.
    + exists r. rewrite <- Hr. auto.
    + rewrite <- Hr. simpl. apply IH. intros g' Hg'. apply Hbody. now right.
Qed.

Lemma weight_cons (req : PhaseRequirement) (rest : list PhaseRequirement) :
  weight (req :: rest) = 2 * Nat.max 1 (quantity req) - 1 + weight rest.
Proof. reflexivity. Qed.

Lemma unfolded_cons (req : PhaseRequirement) (rest : list PhaseRequirement) :
  unfolded (req :: rest)
  = repeat (type req, size req) (Nat.max 1 (quantity req)) ++ unfolded rest.
Proof. reflexivity. Qed.

(** With fuel above the weight of the requirements the recursion reaches
    its end, and its verdict is the one of [search]. *)
Lemma tryAssignCards_fuel :
  forall (fuel : nat) (requirements : list PhaseRequirement)
         (cards : list Card) (assigned : list (list Card)),
    weight requirements < fuel ->
    exists r, tryAssignCards fuel cards requirements assigned = Some r
              /\ valid r = search (unfolded requirements) cards.
Proof.
  induction fuel as [|fuel IH]; intros requirements cards assigned Hfuel; [lia|].
  destruct requirements as [|req rest].
  - simpl. eauto.
  - rewrite weight_cons in Hfuel. cbn [tryAssignCards]. rewrite unfolded_cons.
    destruct (Nat.ltb_spec 1 (quantity req)) as [Hq|Hq].
    + destruct (IH (mkReq (type req) (size req) 1
                      :: mkReq (type req) (size req) (quantity req - 1) :: rest)
                  cards assigned) as (r & Hr & Hv).
      { rewrite !weight_cons. cbn [quantity]. lia. }
      exists r. split; [exact Hr|]. rewrite Hv, !unfolded_cons.
      cbn [type size quantity].
      replace (Nat.max 1 (quantity req - 1)) with (quantity req - 1) by lia.
      replace (Nat.max 1 (quantity req)) with (S (quantity req - 1)) by lia.
      reflexivity.
    + replace (Nat.max 1 (quantity req)) with 1 by lia.
      cbn [repeat app search].
      apply forEachGroup_existsb; [reflexivity|].
      intros g _. apply IH. lia.
Qed.

Lemma validatePhase_search (cards : list Card) (requirements : list PhaseRequirement) :
  valid (validatePhase cards requirements)
  = (length cards
     =? fold_left (fun sum req => sum + size req * quantity req) requirements 0)
    && search (unfolded requirements) cards.
Proof.
  unfold validatePhase. cbv zeta.
  destruct (length cards =? _); cbn [negb andb]; [|reflexivity].
  destruct (@tryAssignCards_fuel (fuelFor requirements) requirements cards [])
    as (r & -> & Hv); [unfold fuelFor; fold (weight requirements); lia|].
  exact Hv.
Qed.

End MatcherFacts.

Section CombinationFacts.
Import PhaseValidation Reference Auxiliary.
Context {A : Type}.

Lemma Subseq_nil_l (l : list A) : Subseq [] l.
Proof. induction l; constructor; auto. Qed.

Lemma Subseq_In (g l : list A) : Subseq g l -> forall x, In x g -> In x l.
Proof.
  induction 1 as [|y g l _ IH|y g l _ IH]; intros x Hx; simpl in *; auto.
  destruct Hx as [<-|Hx]; auto.
Qed.

Lemma Subseq_map_filter {B : Type} (f : B -> A) (p : B -> bool) (l : list B) :
  Subseq (map f (filter p l)) (map f l).
Proof.
  induction l as [|b l IH]; simpl; [constructor|].
  destruct (p b); simpl; constructor; exact IH.
Qed.

(** Every combination keeps the order of the array and has [k] elements. *)
Lemma getCombinations_sound :
  forall (l : list A) (k : nat) (g : list A),
    In g (getCombinations l k) -> Subseq g l /\ length g = k.
Proof.
  induction l as [|x l IH]; intros [|k] g Hg; simpl in Hg.
  - destruct Hg as [<-|[]]. split; [constructor|reflexivity].
  - contradiction.
  - destruct Hg as [<-|[]]. split; [apply Subseq_nil_l|reflexivity].
  - apply in_app_or in Hg as [Hg|Hg].
    + apply in_map_iff in Hg as (g' & <- & Hg').
      destruct (IH _ _ Hg') as [Hsub Hlen].
      split; [now constructor | simpl; now rewrite Hlen].
    + destruct (IH _ _ Hg) as [Hsub Hlen]. split; [now constructor | exact Hlen].
Qed.

(** Every choice of elements of the array is one of the combinations. *)
Lemma getCombinations_complete (g l : list A) :
  Subseq g l -> In g (getCombinations l (length g)).
Proof.
  induction 1 as [|x g l _ IH|x g l _ IH]; simpl.
  - now left.
  - apply in_or_app. left. now apply in_map.
  - destruct g as [|y g]; simpl in *; [now left|].
    apply in_or_app. now right.
Qed.

End CombinationFacts.

Section IdFacts.
Import PhaseValidation Reference Auxiliary.

Lemma inIds_true (ids : list string) (c : Card) :
  inIds ids c = true <-> In (card_id c) ids.
Proof.
  unfold inIds. rewrite existsb_exists. split.
  - intros (i & Hi & E). apply String.eqb_eq in E. now subst.
  - intros H. exists (card_id c). split; [exact H | apply String.eqb_refl].
Qed.

Lemma inIds_false (ids : list string) (c : Card) :
  inIds ids c = false <-> ~ In (card_id c) ids.
Proof.
  rewrite <- inIds_true. destruct (inIds ids c); split; congruence.
Qed.

Lemma removeCards_filter (cards toRemove : list Card) :
  removeCards cards toRemove
  = filter (fun c => negb (inIds (map card_id toRemove) c)) cards.
Proof. reflexivity. Qed.

Lemma filter_inIds_extend (i : string) (ids : list string) (l : list Card) :
  ~ In i (map card_id l) ->
  filter (inIds (i :: ids)) l = filter (inIds ids) l.
Proof.
  intros Hnotin. apply filter_ext_in. intros c Hc.
  unfold inIds. simpl.
  destruct (String.eqb_spec (card_id c) i) as [E|_]; [|reflexivity].
  exfalso. apply Hnotin. rewrite <- E. now apply in_map.
Qed.

Lemma filter_not_inIds_extend (i : string) (ids : list string) (l : list Card) :
  ~ In i (map card_id l) ->
  filter (fun c => negb (inIds (i :: ids) c)) l
  = filter (fun c => negb (inIds ids c)) l.
Proof.
  intros Hnotin. apply filter_ext_in. intros c Hc.
  unfold inIds. simpl.
  destruct (String.eqb_spec (card_id c) i) as [E|_]; [|reflexivity].
  exfalso. apply Hnotin. rewrite <- E. now apply in_map.
Qed.

(** With distinct ids, selecting by the ids of a choice gives the choice. *)
Lemma filter_inIds_Subseq (g cards : list Card) :
  Subseq g cards ->
  NoDup (map card_id cards) ->
  filter (inIds (map card_id g)) cards = g.
Proof.
  induction 1 as [|x g l Hsub IH|x g l Hsub IH]; intros Hnd; simpl in *.
  - reflexivity.
  - inversion Hnd as [|? ? Hnotin Hnd']; subst.
    unfold inIds at 1. simpl. rewrite String.eqb_refl. simpl.
    rewrite filter_inIds_extend by exact Hnotin. now rewrite IH.
  - inversion Hnd as [|? ? Hnotin Hnd']; subst.
    destruct (inIds (map card_id g) x) eqn:Hx.
    + exfalso. apply inIds_true in Hx. apply Hnotin.
      apply in_map_iff in Hx as (y & Hy & Hin).
      rewrite <- Hy. apply in_map. eapply Subseq_In; eauto.
    + now apply IH.
Qed.

Lemma NoDup_ids_filter (p : Card -> bool) (cards : list Card) :
  NoDup (map card_id cards) -> NoDup (map card_id (filter p cards)).
Proof.
  induction cards as [|c cards IH]; simpl; intros Hnd; [constructor|].
  inversion Hnd as [|? ? Hnotin Hnd']; subst.
  destruct (p c); simpl; auto.
  constructor; auto.
  intros Hin. apply Hnotin.
  apply in_map_iff in Hin as (y & Hy & Hin). apply filter_In in Hin as [Hin _].
  rewrite <- Hy. now apply in_map.
Qed.

Lemma removeCards_length (g cards : list Card) :
  Subseq g cards ->
  NoDup (map card_id cards) ->
  length (removeCards cards g) + length g = length cards.
Proof.
  intros Hsub Hnd. rewrite removeCards_filter.
  assert (Hg : length g = length (filter (inIds (map card_id g)) cards))
    by now rewrite filter_inIds_Subseq.
  pose proof (filter_length_split (inIds (map card_id g)) cards). lia.
Qed.

End IdFacts.

Section AssignmentFacts.
Import PhaseValidation Reference Auxiliary.

Lemma weave_fst (ids : list string) :
  forall cards tagged, map fst (weave ids cards tagged) = cards.
Proof.
  induction cards as [|c cards IH]; intros tagged; simpl; [reflexivity|].
  destruct (inIds ids c); [|destruct tagged as [|[c' i] tagged]]; simpl;
    now rewrite IH.
Qed.

Lemma weave_groups (ids : list string) :
  forall cards tagged,
    map fst tagged = filter (fun c => negb (inIds ids c)) cards ->
    groupOf (weave ids cards tagged) 0 = filter (inIds ids) cards
    /\ forall i, groupOf (weave ids cards tagged) (S i) = groupOf tagged i.
Proof.
  unfold groupOf.
  induction cards as [|c cards IH]; intros tagged Hfst; simpl in *.
  - destruct tagged; [|discriminate]. auto.
  - destruct (inIds ids c); simpl in *.
    + destruct (IH tagged Hfst) as [H0 HS]. rewrite H0. auto.
    + destruct tagged as [|[c' j] tagged]; [discriminate|].
      simpl in *. injection Hfst as -> Hfst.
      destruct (IH tagged Hfst) as [H0 HS]. split; [exact H0|].
      intros i. destruct (j =? i); simpl; now rewrite HS.
Qed.

Lemma weave_bound (ids : list string) (m : nat) :
  forall cards tagged,
    Forall (fun ca => snd ca < m) tagged ->
    Forall (fun ca => snd ca < S m) (weave ids cards tagged).
Proof.
  induction cards as [|c cards IH]; intros tagged Hb; simpl; [constructor|].
  destruct (inIds ids c).
  - constructor; [simpl; lia | now apply IH].
  - destruct tagged as [|[c' j] tagged].
    + constructor; [simpl; lia | now apply IH].
    + inversion Hb; subst. simpl in *. constructor; [simpl; lia | now apply IH].
Qed.

Lemma groupOf_In (tagged : list (Card * nat)) (i : nat) (c : Card) :
  In c (groupOf tagged i) -> In c (map fst tagged).
Proof. apply Subseq_In, Subseq_map_filter. Qed.

Lemma lower_fst :
  forall tagged,
    NoDup (map card_id (map fst tagged)) ->
    map fst (lower tagged) = removeCards (map fst tagged) (groupOf tagged 0).
Proof.
  unfold lower, groupOf. intros tagged. rewrite removeCards_filter.
  induction tagged as [|[c i] tagged IH]; intros Hnd; simpl in *; [reflexivity|].
  inversion Hnd as [|? ? Hnotin Hnd']; subst.
  destruct i as [|i]; simpl.
  - unfold inIds at 1. simpl. rewrite String.eqb_refl. simpl.
    rewrite (IH Hnd'). symmetry.
    exact (filter_not_inIds_extend (card_id c) _ _ Hnotin).
  - assert (Hc : inIds (map card_id
                          (map fst (filter (fun ca => snd ca =? 0) tagged))) c
                 = false).
    { apply inIds_false. intros Hin. apply Hnotin.
      apply in_map_iff in Hin as (y & Hy & Hin).
      rewrite <- Hy. apply in_map. eapply groupOf_In. exact Hin. }
    rewrite Hc. simpl. f_equal. now apply IH.
Qed.

Lemma lower_group (i : nat) :
  forall tagged, groupOf (lower tagged) i = groupOf tagged (S i).
Proof.
  unfold lower, groupOf.
  induction tagged as [|[c j] tagged IH]; simpl; [reflexivity|].
  destruct j as [|j]; simpl; [exact IH|].
  destruct (j =? i); simpl; now rewrite IH.
Qed.

Lemma lower_bound (m : nat) :
  forall tagged,
    Forall (fun ca => snd ca < S m) tagged ->
    Forall (fun ca => snd ca < m) (lower tagged).
Proof.
  unfold lower.
  induction tagged as [|[c j] tagged IH]; intros Hb; simpl; [constructor|].
  inversion Hb; subst. simpl in *.
  destruct j as [|j]; simpl; [now apply IH|].
  constructor; [simpl; lia | now apply IH].
Qed.

Lemma satisfiesFrom_shift (tagged tagged' : list (Card * nat)) :
  (forall i, groupOf tagged (S i) = groupOf tagged' i) ->
  forall sl k, satisfiesFrom (S k) tagged sl = satisfiesFrom k tagged' sl.
Proof.
  intros Hshift. induction sl as [|[t sz] sl IH]; intros k; simpl; [reflexivity|].
  now rewrite Hshift, IH.
Qed.

(** A successful search gives an assignment. *)
Lemma search_assignment :
  forall sl cards,
    NoDup (map card_id cards) ->
    length cards = cardsNeeded sl ->
    search sl cards = true ->
    exists tagged,
      map fst tagged = cards
      /\ Forall (fun ca => snd ca < length sl) tagged
      /\ satisfiesFrom 0 tagged sl = true.
Proof.
  induction sl as [|[t sz] sl IH]; intros cards Hnd Hlen Hsearch.
  - exists []. destruct cards; [|discriminate]. simpl. auto.
  - simpl in Hsearch. apply existsb_exists in Hsearch as (g & Hg & Hrest).
    apply filter_In in Hg as [Hcomb Hvalid].
    apply getCombinations_sound in Hcomb as [Hsub Hsz].
    pose proof (removeCards_length Hsub Hnd) as Hrm.
    destruct (IH (removeCards cards g)) as (tagged' & Hfst & Hb & Hsat); auto.
    { rewrite removeCards_filter. now apply NoDup_ids_filter. }
    { simpl in Hlen. lia. }
    rewrite removeCards_filter in Hfst.
    destruct (weave_groups (map card_id g) cards tagged' Hfst) as [H0 HS].
    exists (weave (map card_id g) cards tagged').
    split; [apply weave_fst|]. split; [now apply weave_bound|].
    simpl. rewrite H0, (filter_inIds_Subseq Hsub Hnd), Hsz, Nat.eqb_refl, Hvalid.
    simpl. rewrite (satisfiesFrom_shift _ _ HS). exact Hsat.
Qed.

(** An assignment makes the search succeed. *)
Lemma assignment_search :
  forall sl tagged,
    NoDup (map card_id (map fst tagged)) ->
    Forall (fun ca => snd ca < length sl) tagged ->
    satisfiesFrom 0 tagged sl = true ->
    search sl (map fst tagged) = true.
Proof.
  induction sl as [|[t sz] sl IH]; intros tagged Hnd Hb Hsat; [reflexivity|].
  simpl in Hsat. apply andb_prop in Hsat as [Hsat Hrest].
  apply andb_prop in Hsat as [Hsz Hvalid]. apply Nat.eqb_eq in Hsz.
  simpl. apply existsb_exists. exists (groupOf tagged 0). split.
  - apply filter_In. split; [|exact Hvalid].
    rewrite <- Hsz. apply getCombinations_complete. apply Subseq_map_filter.
  - rewrite <- (lower_fst _ Hnd). apply IH.
    + rewrite (lower_fst _ Hnd), removeCards_filter. now apply NoDup_ids_filter.
    + now apply lower_bound.
    + rewrite <- (@satisfiesFrom_shift tagged (lower tagged)); [exact Hrest|].
      intros i. symmetry. apply lower_group.
Qed.

End AssignmentFacts.

Section BruteForceFacts.
Import PhaseValidation Reference Auxiliary.

Lemma in_assignments (m : nat) :
  forall (n : nat) (a : list nat),
    In a (assignments n m) <-> length a = n /\ Forall (fun i => i < m) a.
Proof.
  induction n as [|n IH]; intros a; simpl.
  - split.
    + intros [<-|[]]. auto.
    + intros [Hlen _]. destruct a; [now left | discriminate].
  - rewrite in_flat_map. split.
    + intros (a' & Ha' & Hin). apply in_map_iff in Hin as (i & <- & Hi).
      apply IH in Ha' as [Hlen Hb]. apply in_seq in Hi.
      split; [simpl; congruence | constructor; [lia | exact Hb]].
    + intros [Hlen Hb]. destruct a as [|i a]; [discriminate|].
      inversion Hb; subst. exists a. split.
      * apply IH. split; [simpl in Hlen; congruence | assumption].
      * apply in_map_iff. exists i. split; [reflexivity|]. apply in_seq. lia.
Qed.

Lemma combine_fst_snd {A B : Type} :
  forall (l : list A) (l' : list B),
    length l = length l' ->
    map fst (combine l l') = l /\ map snd (combine l l') = l'.
Proof.
  induction l as [|x l IH]; intros [|y l'] Hlen; simpl in *;
    try discriminate; auto.
  destruct (IH l') as [H1 H2]; [congruence|]. now rewrite H1, H2.
Qed.

Lemma combine_of_maps {A B : Type} (l : list (A * B)) :
  combine (map fst l) (map snd l) = l.
Proof.
  induction l as [|[a b] l IH]; simpl; [reflexivity | now rewrite IH].
Qed.

(** The brute-force search succeeds exactly when an assignment exists. *)
Lemma bruteForce_iff (cards : list Card) (requirements : list PhaseRequirement) :
  bruteForce cards requirements = true
  <-> exists tagged,
        map fst tagged = cards
        /\ Forall (fun ca => snd ca < length (slots requirements)) tagged
        /\ satisfiesFrom 0 tagged (slots requirements) = true.
Proof.
  unfold bruteForce. cbv zeta. rewrite existsb_exists. split.
  - intros (a & Ha & Hsat). apply in_assignments in Ha as [Hlen Hb].
    destruct (combine_fst_snd cards a) as [Hfst Hsnd]; [congruence|].
    exists (combine cards a). repeat split; auto.
    apply Forall_forall. intros ca Hca.
    rewrite Forall_forall in Hb. apply Hb.
    rewrite <- Hsnd. now apply in_map.
  - intros (tagged & <- & Hb & Hsat).
    exists (map snd tagged). split.
    + apply in_assignments. split; [now rewrite !length_map|].
      apply Forall_forall. intros i Hi.
      apply in_map_iff in Hi as (ca & <- & Hca).
      rewrite Forall_forall in Hb. now apply Hb.
    + now rewrite combine_of_maps.
Qed.

Lemma cardsNeeded_repeat (slot : PhaseRequirementType * nat) (q : nat)
      (rest : list (PhaseRequirementType * nat)) :
  cardsNeeded (repeat slot q ++ rest) = snd slot * q + cardsNeeded rest.
Proof.
  induction q as [|q IH]; simpl; [lia|].
  fold (cardsNeeded (repeat slot q ++ rest)). rewrite IH. lia.
Qed.

Lemma totalNeeded_slots :
  forall (requirements : list PhaseRequirement) (sum : nat),
    fold_left (fun sum req => sum + size req * quantity req) requirements sum
    = sum + cardsNeeded (slots requirements).
Proof.
  induction requirements as [|req rest IH]; intros sum; simpl.
  - unfold cardsNeeded. simpl. lia.
  - rewrite IH. fold (slots rest). rewrite cardsNeeded_repeat. simpl. lia.
Qed.

Lemma unfolded_slots (requirements : list PhaseRequirement) :
  Forall (fun req => 1 <= quantity req) requirements ->
  unfolded requirements = slots requirements.
Proof.
  induction 1 as [|req rest Hq _ IH]; [reflexivity|].
  rewrite unfolded_cons, IH.
  now replace (Nat.max 1 (quantity req)) with (quantity req) by lia.
Qed.

(** C4 (as the code has it). For requirements whose quantities are at
    least one and cards whose ids are pairwise distinct, in the exact number
    the requirements take, [validatePhase] answers valid if and only if the
    brute-force search over all assignments of the cards to the groups
    finds one that satisfies the requirements. *)
Theorem validatePhase_bruteForce (cards : list Card)
    (requirements : list PhaseRequirement) :
  NoDup (map card_id cards) ->
  Forall (fun req => 1 <= quantity req) requirements ->
  length cards
  = fold_left (fun sum req => sum + size req * quantity req) requirements 0 ->
  valid (validatePhase cards requirements) = bruteForce cards requirements.
Proof.
  intros Hnd Hq Hlen.
  rewrite validatePhase_search, <- Hlen, Nat.eqb_refl, (unfolded_slots Hq).
  cbn [andb]. apply eq_true_iff_eq. rewrite bruteForce_iff. split.
  - apply search_assignment; [exact Hnd|].
    rewrite Hlen, totalNeeded_slots. reflexivity.
  - intros (tagged & <- & Hb & Hsat). now apply assignment_search.
Qed.

(** C4 fails outside these bounds.  A requirement of quantity 0 is looked
    for once by the code, and a card that comes twice is removed twice by
    [removeCards]; the brute-force search is satisfied in both cases. *)
Lemma validatePhase_differs_from_bruteForce :
  (length (@nil Card)
   = fold_left (fun sum req => sum + size req * quantity req) [mkReq set 1 0] 0
   /\ valid (validatePhase [] [mkReq set 1 0]) = false
   /\ bruteForce [] [mkReq set 1 0] = true)
  /\ (length [Sample.wild "w1"; Sample.wild "w1"]
      = fold_left (fun sum req => sum + size req * quantity req) [mkReq set 1 2] 0
      /\ valid (validatePhase [Sample.wild "w1"; Sample.wild "w1"] [mkReq set 1 2])
         = false
      /\ bruteForce [Sample.wild "w1"; Sample.wild "w1"] [mkReq set 1 2] = true).
Proof. repeat split. Qed.

Lemma validatePhase_bruteForce_witness :
  valid (validatePhase (concat Sample.mixed) [mkReq set 3 2])
  = bruteForce (concat Sample.mixed) [mkReq set 3 2].
Proof.
  apply validatePhase_bruteForce.
  - apply distinct_NoDup. reflexivity.
  - repeat constructor.
  - reflexivity.
Defined.

End BruteForceFacts.

(** ** When the actions succeed *)

Section SuccessFacts.
Import Deck PhaseValidation GameStore.

(** A discard returns [true] only past the three guards and with the card
    found in the hand. *)
Lemma discardCard_success_inv (generateCardId : nat -> string) (rnd : nat -> nat)
      (me : string) (card : Card) (s : Session) (r : Result) :
  discardCard generateCardId rnd me card s = Some r ->
  returned r = true ->
  exists cur removedCard newHand,
    currentPlayer me s = Some cur
    /\ notMyTurn s cur = false
    /\ turn_phase (game s) = play
    /\ removeCardById (hand cur) (card_id card) = (Some removedCard, newHand).
Proof.
  unfold discardCard. intros H Hok.
  destruct (currentPlayer me s) as [cur|] eqn:Hcur; [|injection H as <-; discriminate].
  destruct (notMyTurn s cur) eqn:Hturn; [injection H as <-; discriminate|].
  destruct (turn_phase (game s)) eqn:Hphase; cbn [TurnPhase_eqb negb] in H;
    try (injection H as <-; discriminate).
  destruct (removeCardById (hand cur) (card_id card)) as [[removedCard|] newHand]
    eqn:Hrm;
    [|injection H as <-; discriminate].
  exists cur, removedCard, newHand. repeat split; auto.
Qed.

(** A lay-down returns [true] only past its guards and with the matcher
    accepting the flattened groups. *)
Lemma layDownPhase_success_inv (me : string) (cardGroups : list (list Card))
      (s : Session) :
  returned (layDownPhase me cardGroups s) = true ->
  exists cur requirements,
    currentPlayer me s = Some cur
    /\ notMyTurn s cur = false
    /\ turn_phase (game s) = play
    /\ has_laid_down cur = false
    /\ nth_error (phases s) (current_phase_index cur) = Some requirements
    /\ valid (validatePhase (concat cardGroups) requirements) = true.
Proof.
  unfold layDownPhase.
  destruct (currentPlayer me s) as [cur|] eqn:Hcur; [|discriminate].
  destruct (notMyTurn s cur) eqn:Hturn; [discriminate|].
  destruct (turn_phase (game s)) eqn:Hphase; cbn [TurnPhase_eqb negb];
    try discriminate.
  destruct (has_laid_down cur) eqn:Hlaid; [discriminate|].
  destruct (nth_error (phases s) (current_phase_index cur)) as [requirements|]
    eqn:Hreq;
    [|discriminate].
  destruct (valid (validatePhase (concat cardGroups) requirements)) eqn:Hvalid;
    [|discriminate].
  intros _. exists cur, requirements. repeat split; auto.
Qed.

(** The scenario of the empty draw pile with five discarded cards: after
    the draw the discard pile holds its former top alone, the hand has one
    card more, and the draw pile holds the three cards left of the four
    that were reshuffled. *)
Lemma drawCard_five_discards :
  length (discard_pile (game Sample.emptyDrawPile)) = 5
  /\ returned (drawCard Sample.zeros "alice" fromDraw Sample.emptyDrawPile) = true
  /\ length (draw_pile (game (rows (drawCard Sample.zeros "alice" fromDraw
                                      Sample.emptyDrawPile)))) = 3
  /\ discard_pile (game (rows (drawCard Sample.zeros "alice" fromDraw
                                 Sample.emptyDrawPile)))
     = [Sample.numbered "d5" red 5]
  /\ length (hand (Sample.aliceOf (rows (drawCard Sample.zeros "alice" fromDraw
                                           Sample.emptyDrawPile))))
     = S (length (hand (Sample.aliceOf Sample.emptyDrawPile))).
Proof. repeat split. Qed.

End SuccessFacts.

(** ** Where the cards are: actions that keep the count *)

Section ConservationFacts.
Import Deck PhaseValidation GameStore.

Lemma occ_app (x : Card) (l1 l2 : list Card) :
  occ x (l1 ++ l2) = occ x l1 + occ x l2.
Proof. apply count_occ_app. Qed.

Lemma occ_cons (x c : Card) (l : list Card) : occ x (c :: l) = occ x [c] + occ x l.
Proof. change (c :: l) with ([c] ++ l). apply occ_app. Qed.

Lemma perm_occ (l1 l2 : list Card) :
  Permutation l1 l2 <-> forall x, occ x l1 = occ x l2.
Proof. apply Permutation_count_occ. Qed.

Lemma distinct_iff (ids : list string) : distinct ids = true <-> NoDup ids.
Proof.
  split; [apply distinct_NoDup|].
  induction 1 as [|x ids Hnotin _ IH]; simpl; [reflexivity|].
  rewrite IH, andb_true_r. apply negb_true_iff.
  destruct (existsb (String.eqb x) ids) eqn:E; [|reflexivity].
  apply existsb_exists in E as (y & Hy & Hxy).
  apply String.eqb_eq in Hxy. subst. contradiction.
Qed.

Lemma conserved_iff (s : Session) : conserved s = true <-> Conserved s.
Proof.
  unfold conserved, Conserved.
  now rewrite andb_true_iff, Nat.eqb_eq, distinct_iff.
Qed.

(** An action that only moves cards keeps the invariant. *)
Lemma Conserved_perm (s s' : Session) :
  Permutation (allCards s') (allCards s) -> Conserved s -> Conserved s'.
Proof.
  intros Hperm [Hlen Hnd]. split.
  - now rewrite (Permutation_length Hperm).
  - apply Permutation_NoDup with (l := map card_id (allCards s)); [|exact Hnd].
    symmetry. now apply Permutation_map.
Qed.

Lemma updatePlayer_ids (pid : string) (f : GamePlayer -> GamePlayer) :
  (forall p, player_id (f p) = player_id p) ->
  forall table, map player_id (updatePlayer pid f table) = map player_id table.
Proof.
  intros Hf. induction table as [|row table IH]; simpl; [reflexivity|].
  rewrite IH. destruct (String.eqb (player_id row) pid); now rewrite ?Hf.
Qed.

(** Writing the row of [p]: the cards of the table change by what the
    cards of [p] change. *)
Lemma updatePlayer_occ (f : GamePlayer -> GamePlayer) (p : GamePlayer) (x : Card) :
  forall table,
    NoDup (map player_id table) ->
    In p table ->
    occ x (flat_map cardsOf (updatePlayer (player_id p) f table)) + occ x (cardsOf p)
    = occ x (flat_map cardsOf table) + occ x (cardsOf (f p)).
Proof.
  induction table as [|row table IH]; intros Hnd Hin; [contradiction|].
  inversion Hnd as [|? ? Hnotin Hnd']; subst.
  simpl. rewrite !occ_app.
  destruct Hin as [->|Hin].
  - rewrite String.eqb_refl.
    fold (updatePlayer (player_id p) f table).
    rewrite updatePlayer_absent by exact Hnotin. lia.
  - destruct (String.eqb_spec (player_id row) (player_id p)) as [E|_].
    + exfalso. apply Hnotin. rewrite E. now apply in_map.
    + fold (updatePlayer (player_id p) f table).
      specialize (IH Hnd' Hin). lia.
Qed.

Lemma currentPlayer_In (me : string) (s : Session) (cur : GamePlayer) :
  currentPlayer me s = Some cur -> In cur (players s).
Proof. intros H. now apply find_some in H as [H _]. Qed.

Lemma pop_some {A : Type} (l rest : list A) (x : A) :
  pop l = Some (x, rest) -> l = rest ++ [x].
Proof.
  unfold pop. destruct l as [|y t]; [discriminate|].
  intros H.
  assert (Hx : x = last (y :: t) y) by congruence.
  assert (Hrest : rest = removelast (y :: t)) by congruence.
  rewrite Hx, Hrest. apply app_removelast_last. discriminate.
Qed.

(** The card drawn and the two piles left hold the cards of the two piles. *)
Lemma drawFrom_occ (rnd : nat -> nat) (pile : Pile) (D X D' X' : list Card)
      (card x : Card) :
  drawFrom rnd pile D X = inr (card, D', X') ->
  occ x D' + occ x X' + occ x [card] = occ x D + occ x X.
Proof.
  unfold drawFrom. destruct pile.
  - destruct (length D =? 0) eqn:HD.
    + destruct (length X <=? 1); [discriminate|].
      destruct (pop X) as [[topDiscard rest]|] eqn:HX; [|discriminate].
      destruct (pop (shuffle rnd rest)) as [[c nd]|] eqn:Hsh; [|discriminate].
      intros [= <- <- <-].
      apply pop_some in HX, Hsh. subst X.
      pose proof (proj1 (perm_occ _ _) (shuffle_perm rnd rest) x) as Hperm.
      rewrite Hsh in Hperm. rewrite !occ_app in *.
      apply Nat.eqb_eq in HD. destruct D; [|discriminate].
      change (occ x []) with 0. lia.
    + destruct (pop D) as [[c nd]|] eqn:HDp; [|discriminate].
      intros [= <- <- <-]. apply pop_some in HDp. subst D.
      rewrite !occ_app. lia.
  - destruct (pop X) as [[c nx]|] eqn:HX; [|discriminate].
    intros [= <- <- <-]. apply pop_some in HX. subst X.
    rewrite !occ_app. lia.
Qed.

(** Every successful draw moves one card from a pile to the hand. *)
Lemma drawCard_conserves (rnd : nat -> nat) (me : string) (pile : Pile)
      (s : Session) :
  NoDup (map player_id (players s)) ->
  returned (drawCard rnd me pile s) = true ->
  Permutation (allCards (rows (drawCard rnd me pile s))) (allCards s).
Proof.
  intros Hids. unfold drawCard.
  destruct (currentPlayer me s) as [cur|] eqn:Hcur; [|discriminate].
  destruct (notMyTurn s cur); [discriminate|].
  destruct (negb (TurnPhase_eqb (turn_phase (game s)) draw)); [discriminate|].
  destruct (drawFrom rnd pile (draw_pile (game s)) (discard_pile (game s)))
    as [err|[[card D'] X']] eqn:Hdraw; [discriminate|].
  intros _. apply perm_occ. intros x.
  pose proof (drawFrom_occ _ _ _ _ x Hdraw) as Hpiles.
  pose proof (@updatePlayer_occ (withHand (hand cur ++ [card])) cur x (players s)
                Hids (currentPlayer_In _ _ Hcur)) as Hrow.
  unfold allCards, cardsOf in *. cbn [rows game players draw_pile discard_pile] in *.
  cbn [withHand hand laid_down_cards hits] in Hrow.
  rewrite !occ_app in *. lia.
Qed.

(** A discard after which the round goes on moves the card from the hand
    to the discard pile. *)
Lemma discardCard_conserves (generateCardId : nat -> string) (rnd : nat -> nat)
      (me : string) (card : Card) (s : Session) (cur : GamePlayer)
      (removedCard : Card) (newHand : list Card) (r : Result) :
  NoDup (map player_id (players s)) ->
  currentPlayer me s = Some cur ->
  removeCardById (hand cur) (card_id card) = (Some removedCard, newHand) ->
  newHand <> [] ->
  discardCard generateCardId rnd me card s = Some r ->
  returned r = true ->
  Permutation (allCards (rows r)) (allCards s).
Proof.
  intros Hids Hcur Hrm Hne. unfold discardCard. rewrite Hcur, Hrm.
  destruct (notMyTurn s cur); [intros [= <-]; discriminate|].
  destruct (negb (TurnPhase_eqb (turn_phase (game s)) play));
    [intros [= <-]; discriminate|].
  assert (Hlen : (length newHand =? 0) = false)
    by (apply Nat.eqb_neq; destruct newHand; simpl; congruence).
  cbv zeta. rewrite Hlen. intros [= <-] _.
  apply perm_occ. intros x.
  destruct (removeCardById_some _ _ Hrm) as (l1 & l2 & Hhand & -> & _).
  pose proof (@updatePlayer_occ (withHand (l1 ++ l2)) cur x (players s)
                Hids (currentPlayer_In _ _ Hcur)) as Hrow.
  unfold allCards, cardsOf in *. cbn [rows game players draw_pile discard_pile] in *.
  cbn [withHand hand laid_down_cards hits] in Hrow.
  rewrite Hhand in Hrow. rewrite !occ_app in *.
  rewrite (occ_cons x removedCard l2) in Hrow. lia.
Qed.

(** A lay-down of cards of the hand, each submitted once, by a seat whose
    row holds no group yet moves the cards from the hand to the groups. *)
Lemma layDownPhase_conserves (me : string) (cardGroups : list (list Card))
      (s : Session) (cur : GamePlayer) :
  NoDup (map player_id (players s)) ->
  currentPlayer me s = Some cur ->
  laid_down_cards cur = [] ->
  NoDup (map card_id (hand cur)) ->
  NoDup (map card_id (concat cardGroups)) ->
  incl (concat cardGroups) (hand cur) ->
  returned (layDownPhase me cardGroups s) = true ->
  Permutation (allCards (rows (layDownPhase me cardGroups s))) (allCards s).
Proof.
  intros Hids Hcur Hnone Hh Hc Hincl. unfold layDownPhase. rewrite Hcur.
  destruct (notMyTurn s cur); [discriminate|].
  destruct (negb (TurnPhase_eqb (turn_phase (game s)) play)); [discriminate|].
  destruct (has_laid_down cur); [discriminate|].
  destruct (nth_error (phases s) (current_phase_index cur)) as [requirements|];
    [|discriminate].
  cbv zeta.
  destruct (negb (valid (validatePhase (concat cardGroups) requirements)));
    [discriminate|].
  intros _. apply perm_occ. intros x.
  destruct (removeAll_perm Hh Hc Hincl) as [Hperm _].
  pose proof (proj1 (perm_occ _ _) Hperm x) as Hhand.
  pose proof (@updatePlayer_occ
                (withLayDown (removeAll (hand cur) (concat cardGroups)) cardGroups)
                cur x (players s) Hids (currentPlayer_In _ _ Hcur)) as Hrow.
  unfold allCards, cardsOf in *. cbn [rows game players draw_pile discard_pile] in *.
  cbn [withLayDown hand laid_down_cards hits] in Hrow.
  rewrite Hnone in Hrow. cbn [concat] in Hrow.
  rewrite !occ_app in *. change (occ x []) with 0 in Hrow. lia.
Qed.

Lemma set_nth_concat_occ (x c : Card) (g : list Card) :
  forall (G : list (list Card)) (i : nat),
    nth_error G i = Some g ->
    occ x (concat (Js.set_nth i (g ++ [c]) G)) = occ x (concat G) + occ x [c].
Proof.
  induction G as [|h G IH]; intros [|i] Hi;
    cbn [concat Js.set_nth nth_error] in *; try discriminate.
  - injection Hi as ->. rewrite !occ_app. lia.
  - rewrite !occ_app, (IH i Hi). lia.
Qed.

(** A hit with a card of the hand moves the card from the hand to the
    group. *)
Lemma hitOnGroup_conserves (me targetPlayerId : string) (groupIndex : nat)
      (card : Card) (s : Session) (cur : GamePlayer) :
  NoDup (map player_id (players s)) ->
  currentPlayer me s = Some cur ->
  NoDup (map card_id (hand cur)) ->
  In card (hand cur) ->
  returned (hitOnGroup me targetPlayerId groupIndex card s) = true ->
  Permutation (allCards (rows (hitOnGroup me targetPlayerId groupIndex card s)))
              (allCards s).
Proof.
  intros Hids Hcur Hh Hin. unfold hitOnGroup. rewrite Hcur.
  destruct (notMyTurn s cur); [discriminate|].
  destruct (negb (TurnPhase_eqb (turn_phase (game s)) play)); [discriminate|].
  destruct (negb (has_laid_down cur)); [discriminate|].
  destruct (find _ (players s)) as [target|] eqn:Htarget; [|discriminate].
  destruct (negb (has_laid_down target)); [discriminate|].
  destruct (nth_error (laid_down_cards target) groupIndex) as [targetGroup|]
    eqn:Hgroup; [|discriminate].
  cbv zeta.
  destruct (negb match determineGroupType targetGroup with
                 | Some groupType => canHitOnGroup card targetGroup groupType
                 | None => false
                 end); [discriminate|].
  intros _. apply perm_occ. intros x.
  destruct (@removeCardById_in (hand cur) card Hh Hin) as (l1 & l2 & Hhand & Hrm).
  rewrite Hrm. cbn [snd].
  apply find_some in Htarget as [Htarget _].
  set (table1 := updatePlayer (player_id cur) (withHand (l1 ++ l2)) (players s)).
  set (newLaid := Js.set_nth groupIndex (targetGroup ++ [card])
                    (laid_down_cards target)).
  set (p2 := if String.eqb (player_id target) (player_id cur)
             then withHand (l1 ++ l2) target else target).
  assert (Hp2 : In p2 table1).
  { unfold table1, updatePlayer, p2.
    apply (in_map (fun row => if String.eqb (player_id row) (player_id cur)
                              then withHand (l1 ++ l2) row else row)).
    exact Htarget. }
  assert (Hp2id : player_id p2 = player_id target)
    by (unfold p2; destruct (String.eqb (player_id target) (player_id cur));
        reflexivity).
  assert (Hp2cards : laid_down_cards p2 = laid_down_cards target
                     /\ hits p2 = hits target)
    by (unfold p2; destruct (String.eqb (player_id target) (player_id cur));
        split; reflexivity).
  destruct Hp2cards as [Hp2laid Hp2hits].
  assert (Hids1 : NoDup (map player_id table1))
    by (unfold table1; rewrite updatePlayer_ids; auto).
  pose proof (@updatePlayer_occ (withHand (l1 ++ l2)) cur x (players s)
                Hids (currentPlayer_In _ _ Hcur)) as Hrow1.
  pose proof (@updatePlayer_occ (withLaidDownCards newLaid) p2 x table1
                Hids1 Hp2) as Hrow2.
  rewrite Hp2id in Hrow2.
  pose proof (set_nth_concat_occ x card _ _ Hgroup) as Hset.
  fold newLaid in Hset.
  unfold allCards, cardsOf in *. cbn [rows game players draw_pile discard_pile] in *.
  fold table1. cbn [withHand withLaidDownCards hand laid_down_cards hits] in *.
  rewrite Hp2laid, Hp2hits in Hrow2. rewrite Hhand in Hrow1.
  rewrite !occ_app in *. rewrite (occ_cons x card l2) in Hrow1.
  unfold table1 in *. lia.
Qed.

End ConservationFacts.

(** ** Groups that are submitted already sorted out *)

Section SubmittedGroups.
Import Deck PhaseValidation GameStore Reference Auxiliary.

Lemma getCombinations_first {A : Type} (g : list A) :
  forall rest : list A,
    exists others, getCombinations (g ++ rest) (length g) = g :: others.
Proof.
  induction g as [|x g IH]; intros rest; simpl.
  - destruct rest; simpl; eauto.
  - destruct (IH rest) as (others & ->). simpl. eauto.
Qed.

Lemma filter_nothing {A : Type} (f : A -> bool) (l : list A) :
  (forall x, In x l -> f x = false) -> filter f l = [].
Proof.
  induction l as [|a l IH]; intros H; simpl; [reflexivity|].
  rewrite (H a (or_introl eq_refl)). apply IH. intros x Hx. apply H. now right.
Qed.

Lemma filter_everything {A : Type} (f : A -> bool) (l : list A) :
  (forall x, In x l -> f x = true) -> filter f l = l.
Proof.
  induction l as [|a l IH]; intros H; simpl; [reflexivity|].
  rewrite (H a (or_introl eq_refl)). f_equal. apply IH.
  intros x Hx. apply H. now right.
Qed.

Lemma NoDup_app_disjoint {A : Type} (l1 l2 : list A) :
  NoDup (l1 ++ l2) -> forall a, In a l1 -> ~ In a l2.
Proof.
  induction l1 as [|x l1 IH]; simpl; intros Hnd a Ha Hin; [contradiction|].
  inversion Hnd as [|? ? Hnotin Hnd']; subst.
  destruct Ha as [->|Ha].
  - apply Hnotin, in_or_app. now right.
  - now apply (IH Hnd' a).
Qed.

Lemma removeCards_prefix (g rest : list Card) :
  NoDup (map card_id (g ++ rest)) -> removeCards (g ++ rest) g = rest.
Proof.
  intros Hnd. rewrite removeCards_filter, filter_app.
  rewrite filter_nothing, filter_everything; [reflexivity| |].
  - intros x Hx. apply negb_true_iff, inIds_false. intros Hin.
    rewrite map_app in Hnd.
    apply (NoDup_app_disjoint _ _ Hnd (card_id x)); [exact Hin | now apply in_map].
  - intros x Hx. apply negb_false_iff, inIds_true. now apply in_map.
Qed.

(** Groups that satisfy the requirements one by one are what the search
    meets first: the matcher returns them as they are. *)
Lemma tryAssignCards_in_order :
  forall (fuel : nat) (requirements : list PhaseRequirement)
         (cardGroups assigned : list (list Card)),
    weight requirements < fuel ->
    satisfiesInOrder cardGroups (unfolded requirements) ->
    NoDup (map card_id (concat cardGroups)) ->
    tryAssignCards fuel (concat cardGroups) requirements assigned
    = Some (mkResult true (assigned ++ cardGroups) None).
Proof.
  induction fuel as [|fuel IH]; intros requirements cardGroups assigned Hfuel Hsat Hnd;
    [lia|].
  destruct requirements as [|req rest].
  - inversion Hsat; subst. simpl. now rewrite app_nil_r.
  - rewrite weight_cons in Hfuel. rewrite unfolded_cons in Hsat.
    cbn [tryAssignCards].
    destruct (Nat.ltb_spec 1 (quantity req)) as [Hq|Hq].
    + apply IH; [rewrite !weight_cons; cbn [quantity]; lia| |exact Hnd].
      rewrite !unfolded_cons. cbn [type size quantity].
      replace (Nat.max 1 (quantity req - 1)) with (quantity req - 1) by lia.
      replace (Nat.max 1 (quantity req)) with (S (quantity req - 1)) in Hsat by lia.
      exact Hsat.
    + replace (Nat.max 1 (quantity req)) with 1 in Hsat by lia.
      cbn [repeat app] in Hsat.
      inversion Hsat as [|g slot groups sl [Hlen Hvalid] Hrest]; subst.
      cbn [fst snd concat] in *.
      destruct (getCombinations_first g (concat groups)) as (others & Hcomb).
      unfold findValidGroups. rewrite <- Hlen, Hcomb.
      cbn [filter]. rewrite Hvalid. cbn [forEachGroup].
      rewrite (removeCards_prefix _ _ Hnd).
      rewrite (IH rest groups (assigned ++ [g])); [| lia | exact Hrest |].
      * cbn [valid]. now rewrite <- app_assoc.
      * rewrite map_app in Hnd. now apply NoDup_app_remove_l in Hnd.
Qed.

Lemma validatePhase_in_order (cardGroups : list (list Card))
      (requirements : list PhaseRequirement) :
  satisfiesInOrder cardGroups (unfolded requirements) ->
  NoDup (map card_id (concat cardGroups)) ->
  valid (validatePhase (concat cardGroups) requirements) = true ->
  groups (validatePhase (concat cardGroups) requirements) = cardGroups.
Proof.
  intros Hsat Hnd. unfold validatePhase. cbv zeta.
  destruct (negb (length (concat cardGroups) =? _)); [discriminate|].
  rewrite (@tryAssignCards_in_order (fuelFor requirements) requirements
             cardGroups []); auto.
Qed.

End SubmittedGroups.

(** ** Laying down a phase *)

Section LayDownGroups.
Import Deck PhaseValidation GameStore Reference Auxiliary.

(** C2 (as the code has it). When [layDownPhase] is called by the active
    seat in the play state, the seat has not laid down, the matcher
    accepts the flattened groups against the current phase, and the
    submitted cards are cards of the hand, each submitted once: the call
    succeeds, the hand loses exactly the submitted cards, the has-laid-down
    flag is set, and the groups recorded are the groups as submitted.  They
    are the groups the matcher returns when the submitted groups satisfy the
    requirements one by one, in order. *)
Theorem layDownPhase_success (me : string) (cardGroups : list (list Card))
    (s : Session) (cur : GamePlayer) (requirements : list PhaseRequirement) :
  currentPlayer me s = Some cur ->
  notMyTurn s cur = false ->
  turn_phase (game s) = play ->
  has_laid_down cur = false ->
  nth_error (phases s) (current_phase_index cur) = Some requirements ->
  valid (validatePhase (concat cardGroups) requirements) = true ->
  NoDup (map card_id (hand cur)) ->
  NoDup (map card_id (concat cardGroups)) ->
  incl (concat cardGroups) (hand cur) ->
  exists cur',
    returned (layDownPhase me cardGroups s) = true
    /\ game (rows (layDownPhase me cardGroups s)) = game s
    /\ players (rows (layDownPhase me cardGroups s))
       = updatePlayer (player_id cur) (withLayDown (hand cur') cardGroups) (players s)
    /\ currentPlayer me (rows (layDownPhase me cardGroups s)) = Some cur'
    /\ Permutation (hand cur) (hand cur' ++ concat cardGroups)
    /\ laid_down_cards cur' = cardGroups
    /\ has_laid_down cur' = true
    /\ (satisfiesInOrder cardGroups (unfolded requirements) ->
        laid_down_cards cur'
        = groups (validatePhase (concat cardGroups) requirements)).
Proof.
  intros Hcur Hturn Hphase Hlaid Hreq Hvalid Hh Hc Hincl.
  unfold layDownPhase.
  rewrite Hcur, Hturn, Hphase, Hlaid, Hreq, Hvalid. simpl.
  exists (withLayDown (removeAll (hand cur) (concat cardGroups)) cardGroups cur).
  simpl. repeat split.
  - unfold currentPlayer in *. simpl.
    now apply currentPlayer_updatePlayer.
  - now apply removeAll_perm.
  - intros Hsat. symmetry. now apply validatePhase_in_order.
Qed.

Lemma layDownPhase_success_witness :
  exists cur',
    returned (layDownPhase "alice" Sample.inOrder Sample.twoTriples) = true
    /\ game (rows (layDownPhase "alice" Sample.inOrder Sample.twoTriples))
       = game Sample.twoTriples
    /\ players (rows (layDownPhase "alice" Sample.inOrder Sample.twoTriples))
       = updatePlayer (player_id (Sample.aliceOf Sample.twoTriples))
           (withLayDown (hand cur') Sample.inOrder) (players Sample.twoTriples)
    /\ currentPlayer "alice" (rows (layDownPhase "alice" Sample.inOrder Sample.twoTriples))
       = Some cur'
    /\ Permutation (hand (Sample.aliceOf Sample.twoTriples))
         (hand cur' ++ concat Sample.inOrder)
    /\ laid_down_cards cur' = Sample.inOrder
    /\ has_laid_down cur' = true
    /\ (satisfiesInOrder Sample.inOrder (unfolded [mkReq set 3 2]) ->
        laid_down_cards cur'
        = groups (validatePhase (concat Sample.inOrder) [mkReq set 3 2])).
Proof.
  apply (@layDownPhase_success "alice" Sample.inOrder Sample.twoTriples
           (Sample.aliceOf Sample.twoTriples) [mkReq set 3 2]);
    try reflexivity.
  - apply distinct_NoDup. reflexivity.
  - apply distinct_NoDup. reflexivity.
  - intros c Hc. simpl in Hc. simpl.
    repeat (destruct Hc as [<-|Hc]; [auto 20|]). contradiction.
Defined.

End LayDownGroups.

(* ================================================================== *)
(** * Further properties of the deck manager *)
(* ================================================================== *)

Section DeckCoverage.
Import Deck Reference Auxiliary.

(** X1. Whatever ids the random source gives, [createDeck] returns 108
    cards: 96 numbered ones, two of every colour and rank, 8 wilds and 4
    skips, no card both wild and skip; the k-th card carries the k-th id
    generated, so the ids of the deck are pairwise distinct exactly when
    the 108 generated ids are. *)
Theorem createDeck_for_any_ids (generateCardId : nat -> string) :
  length (createDeck generateCardId) = 108
  /\ length (filter isNumbered (createDeck generateCardId)) = 96
  /\ (forall col v, In v VALUES -> copiesOf col v (createDeck generateCardId) = 2)
  /\ length (filter (fun c => isWild c) (createDeck generateCardId)) = 8
  /\ length (filter (fun c => isSkip c) (createDeck generateCardId)) = 4
  /\ forallb (fun c => negb (isWild c && isSkip c)) (createDeck generateCardId) = true
  /\ map card_id (createDeck generateCardId) = map generateCardId (seq 0 108)
  /\ (NoDup (map card_id (createDeck generateCardId))
      <-> NoDup (map generateCardId (seq 0 108))).
Proof.
  destruct (createDeck_composition generateCardId) as (H1 & H2 & H3 & H4 & H5 & H6).
  refine (conj H1 (conj H2 (conj H3 (conj H4 (conj H5 (conj H6 (conj _ _))))))).
  - apply createDeck_ids.
  - now rewrite createDeck_ids.
Qed.

(** X2. [shuffle] returns a permutation of its argument for every outcome
    of the random draws: no element is lost, added or doubled, and the
    length is kept. *)
Theorem shuffle_keeps_the_elements {A : Type} (rnd : nat -> nat) (array : list A) :
  Permutation (shuffle rnd array) array
  /\ length (shuffle rnd array) = length array
  /\ forall x, In x (shuffle rnd array) <-> In x array.
Proof.
  pose proof (shuffle_perm rnd array) as Hperm.
  split; [exact Hperm|]. split; [now apply Permutation_length|].
  intros x. split; apply Permutation_in; [exact Hperm | now symmetry].
Qed.

Lemma dealHands_loop_sizes (k : nat) :
  forall (n : nat) (hs : list (list Card)) (remaining : list Card),
    Forall (fun h => length h <= k) hs ->
    Forall (fun h => length h <= k) (fst (dealHands_loop n k hs remaining))
    /\ (n * k <= length remaining ->
        Forall (fun h => length h = k) hs ->
        Forall (fun h => length h = k) (fst (dealHands_loop n k hs remaining))).
Proof.
  induction n as [|n IH]; intros hs remaining Hle; cbn [dealHands_loop dealCards].
  - auto.
  - destruct (IH (hs ++ [firstn k remaining]) (skipn k remaining)) as [H1 H2].
    { apply Forall_app. split; [exact Hle|]. constructor; [|constructor].
      rewrite length_firstn. lia. }
    split; [exact H1|]. intros Hlong Heq. apply H2.
    + rewrite length_skipn. simpl in Hlong. lia.
    + apply Forall_app. split; [exact Heq|]. constructor; [|constructor].
      rewrite length_firstn. simpl in Hlong. lia.
Qed.

Lemma dealHands_facts (deck : list Card) (playerCount cardsPerPlayer : nat) :
  length (fst (dealHands deck playerCount cardsPerPlayer)) = playerCount
  /\ concat (fst (dealHands deck playerCount cardsPerPlayer))
     ++ snd (dealHands deck playerCount cardsPerPlayer) = deck
  /\ Forall (fun h => length h <= cardsPerPlayer)
       (fst (dealHands deck playerCount cardsPerPlayer))
  /\ (playerCount * cardsPerPlayer <= length deck ->
      Forall (fun h => length h = cardsPerPlayer)
        (fst (dealHands deck playerCount cardsPerPlayer))
      /\ length (snd (dealHands deck playerCount cardsPerPlayer))
         = length deck - playerCount * cardsPerPlayer).
Proof.
  unfold dealHands.
  destruct (dealHands_loop_spec playerCount cardsPerPlayer [] deck) as (H1 & H2 & H3).
  destruct (@dealHands_loop_sizes cardsPerPlayer playerCount [] deck (Forall_nil _))
    as [H4 H5].
  split; [exact H2|]. split; [|split; [exact H4|]].
  - rewrite H1, H3. simpl. apply firstn_skipn.
  - intros Hlong. split; [apply H5; auto|].
    rewrite H1, length_skipn. reflexivity.
Qed.

(** X3. [dealHands] deals from the front of the deck: it returns
    [playerCount] hands, the hands in order followed by the remaining deck
    are the deck, and no hand has more than [cardsPerPlayer] cards.  When
    the deck holds [playerCount * cardsPerPlayer] cards or more every hand
    is full; a shorter deck gives short hands, not an error. *)
Theorem dealHands_deals_the_front (deck : list Card) (playerCount cardsPerPlayer : nat) :
  length (fst (dealHands deck playerCount cardsPerPlayer)) = playerCount
  /\ concat (fst (dealHands deck playerCount cardsPerPlayer))
     ++ snd (dealHands deck playerCount cardsPerPlayer) = deck
  /\ Forall (fun h => length h <= cardsPerPlayer)
       (fst (dealHands deck playerCount cardsPerPlayer))
  /\ (playerCount * cardsPerPlayer <= length deck ->
      Forall (fun h => length h = cardsPerPlayer)
        (fst (dealHands deck playerCount cardsPerPlayer))
      /\ length (snd (dealHands deck playerCount cardsPerPlayer))
         = length deck - playerCount * cardsPerPlayer).
Proof. apply dealHands_facts. Qed.

Lemma dealHands_deals_the_front_witness :
  Forall (fun h => length h = 10)
    (fst (dealHands (createDeck Sample.freshIds) 6 10))
  /\ length (snd (dealHands (createDeck Sample.freshIds) 6 10)) = 108 - 6 * 10.
Proof.
  apply (dealHands_deals_the_front (createDeck Sample.freshIds) 6 10).
  rewrite createDeck_length. lia.
Defined.

(** The flip loop only moves cards. *)
Lemma flipLoop_perm :
  forall (fuel : nat) (l drawPile discardPile : list Card),
    flipLoop fuel l = Some (drawPile, discardPile) ->
    Permutation (drawPile ++ discardPile) l
    /\ ((l = [] /\ drawPile = [] /\ discardPile = [])
        \/ exists c, discardPile = [c] /\ isSkip c = false).
Proof.
  induction fuel as [|fuel IH]; intros [|x l] dp disc H; simpl in H;
    try discriminate.
  - injection H as <- <-. auto.
  - injection H as <- <-. auto.
  - destruct (isSkip x) eqn:Hx.
    + destruct (IH _ _ _ H) as [Hperm Hcase]. split.
      * rewrite Hperm. rewrite Permutation_app_comm. reflexivity.
      * destruct Hcase as [(E & _)|Hc]; [destruct l; discriminate | now right].
    + injection H as <- <-. split.
      * rewrite Permutation_app_comm. reflexivity.
      * right. eauto.
Qed.

(** The deal of [setupGame], piece by piece. *)
Lemma setupGame_facts (generateCardId : nat -> string) (rnd : nat -> nat)
      (playerCount : nat) :
  exists setup,
    setupGame generateCardId rnd playerCount = Some setup
    /\ length (hands setup) = playerCount
    /\ Permutation (concat (hands setup) ++ drawPile setup ++ discardPile setup)
         (createDeck generateCardId)
    /\ (playerCount <= 10 ->
        Forall (fun h => length h = 10) (hands setup)
        /\ (exists c, discardPile setup = [c] /\ isSkip c = false)
        /\ length (drawPile setup) = 107 - playerCount * 10)
    /\ (10 < playerCount -> drawPile setup = [] /\ discardPile setup = []).
Proof.
  destruct (setupGame_total generateCardId rnd playerCount) as (setup & Hsetup).
  exists setup. split; [exact Hsetup|].
  unfold setupGame, setupGameFuel in Hsetup.
  pose proof (dealHands_facts
                (createShuffledDeck generateCardId rnd) playerCount 10)
    as (Hn & Hdeck & _ & Hfull).
  pose proof (remaining_length generateCardId rnd playerCount) as Hrem.
  pose proof (createShuffledDeck_perm generateCardId rnd) as Hshuffle.
  pose proof (Permutation_length Hshuffle) as Hlen.
  rewrite createDeck_length in Hlen.
  revert Hsetup Hn Hdeck Hfull Hrem.
  generalize (dealHands (createShuffledDeck generateCardId rnd) playerCount 10).
  intros [hs remaining]. cbn [fst snd]. intros Hsetup Hn Hdeck Hfull Hrem.
  revert Hsetup. generalize (flipLoop_perm (length remaining) remaining).
  generalize (flipLoop (length remaining) remaining).
  intros [[dp disc]|] Hflip Hsetup; [|discriminate].
  injection Hsetup as <-. cbn [hands drawPile discardPile].
  destruct (Hflip dp disc eq_refl) as [Hperm Hcase].
  split; [exact Hn|]. split; [|split].
  - rewrite Hperm, Hdeck. exact Hshuffle.
  - intros Hle. destruct Hfull as [Hfull _]; [lia|]. split; [exact Hfull|].
    destruct Hcase as [(E & _ & _)|(c & -> & Hc)].
    + subst remaining. cbn [length] in Hrem. lia.
    + split; [eauto|].
      apply Permutation_length in Hperm. rewrite length_app in Hperm.
      cbn [length] in Hperm. lia.
  - intros Hgt. destruct Hcase as [(_ & -> & ->)|(c & -> & _)]; [auto|].
    apply Permutation_length in Hperm. rewrite length_app in Hperm.
    cbn [length] in Hperm. lia.
Qed.

(** X4. [setupGame] returns for every number of players and deals the
    whole deck: the hands, the draw pile and the discard pile together are
    a permutation of the 108 cards of [createDeck].  Up to ten players
    every hand has ten cards and the discard pile is one card that is not a
    skip; from eleven players on the deck is used up by the deal and both
    piles are empty. *)
Theorem setupGame_deals_the_deck (generateCardId : nat -> string) (rnd : nat -> nat)
    (playerCount : nat) :
  exists setup,
    setupGame generateCardId rnd playerCount = Some setup
    /\ length (hands setup) = playerCount
    /\ Permutation (concat (hands setup) ++ drawPile setup ++ discardPile setup)
         (createDeck generateCardId)
    /\ (playerCount <= 10 ->
        Forall (fun h => length h = 10) (hands setup)
        /\ (exists c, discardPile setup = [c] /\ isSkip c = false)
        /\ length (drawPile setup) = 107 - playerCount * 10)
    /\ (10 < playerCount -> drawPile setup = [] /\ discardPile setup = []).
Proof. apply setupGame_facts. Qed.

End DeckCoverage.

Section ScoreCoverage.
Import Deck Reference Auxiliary.

Lemma getCardPoints_range (card : Card) :
  (5 <= getCardPoints card <= 25)%Z.
Proof.
  unfold getCardPoints.
  destruct (isWild card), (isSkip card), (10 <=? value card)%Z; lia.
Qed.

Lemma handScore_from (hand : list Card) :
  forall total : Z,
    fold_left (fun total card => (total + getCardPoints card)%Z) hand total
    = (total + calculateHandScore hand)%Z.
Proof.
  unfold calculateHandScore.
  induction hand as [|c hand IH]; intros total; simpl; [lia|].
  rewrite IH, (IH (getCardPoints c)). lia.
Qed.

Lemma handScore_cons (c : Card) (hand : list Card) :
  calculateHandScore (c :: hand) = (getCardPoints c + calculateHandScore hand)%Z.
Proof.
  unfold calculateHandScore at 1. simpl. rewrite handScore_from. lia.
Qed.

(** X5. The score of a hand lies between 5 and 25 points per card, so a
    hand scores 0 only when it is empty; the score of two hands put
    together is the sum of their scores. *)
Theorem calculateHandScore_bounds (hand other : list Card) :
  (5 * Z.of_nat (length hand) <= calculateHandScore hand
   <= 25 * Z.of_nat (length hand))%Z
  /\ (calculateHandScore hand = 0%Z <-> hand = [])
  /\ calculateHandScore (hand ++ other)
     = (calculateHandScore hand + calculateHandScore other)%Z.
Proof.
  assert (Hb : forall h, (5 * Z.of_nat (length h) <= calculateHandScore h
                          <= 25 * Z.of_nat (length h))%Z).
  { induction h as [|c h IH]; [unfold calculateHandScore; simpl; lia|].
    rewrite handScore_cons. pose proof (getCardPoints_range c).
    cbn [length]. lia. }
  split; [apply Hb|]. split.
  - split.
    + intros H0. destruct hand as [|c hand]; [reflexivity|].
      specialize (Hb (c :: hand)). cbn [length] in Hb. lia.
    + intros ->. reflexivity.
  - unfold calculateHandScore at 1. rewrite fold_left_app, handScore_from.
    fold (calculateHandScore hand). reflexivity.
Qed.

(** X6. The score of a hand does not depend on the order of its cards. *)
Theorem calculateHandScore_any_order (hand hand' : list Card) :
  Permutation hand hand' -> calculateHandScore hand = calculateHandScore hand'.
Proof.
  induction 1 as [|c h h' _ IH|c d h|h h' h'' _ IH1 _ IH2].
  - reflexivity.
  - rewrite !handScore_cons. lia.
  - rewrite !handScore_cons. lia.
  - congruence.
Qed.

Lemma calculateHandScore_any_order_witness :
  calculateHandScore [Sample.wild "w1"; Sample.skip "s2"; Sample.numbered "a1" red 11]
  = calculateHandScore [Sample.skip "s2"; Sample.numbered "a1" red 11; Sample.wild "w1"].
Proof.
  apply calculateHandScore_any_order.
  apply (Permutation_cons_append [Sample.skip "s2"; Sample.numbered "a1" red 11]).
Defined.

(** X7. [removeCardById] takes out one card, the first one that carries the
    id, which is also the card [findCardById] returns; the cards before and
    after it stay in order.  When no card carries the id, nothing is
    returned, the array is returned as it is, and [findCardById] finds
    nothing either. *)
Theorem removeCardById_takes_the_first (cards : list Card) (cardId : string) :
  match removeCardById cards cardId with
  | (Some c, remaining) =>
      card_id c = cardId
      /\ findCardById cards cardId = Some c
      /\ length cards = S (length remaining)
      /\ exists before after,
           cards = before ++ c :: after
           /\ remaining = before ++ after
           /\ forall y, In y before -> card_id y <> cardId
  | (None, remaining) =>
      remaining = cards
      /\ findCardById cards cardId = None
      /\ forall y, In y cards -> card_id y <> cardId
  end.
Proof.
  destruct (removeCardById cards cardId) as [[c|] remaining] eqn:E.
  - destruct (removeCardById_some _ _ E) as (l1 & l2 & -> & -> & Hid & Hbefore).
    split; [exact Hid|]. split; [|split].
    + unfold findCardById. clear E.
      induction l1 as [|y l1 IH]; simpl.
      * subst cardId. now rewrite String.eqb_refl.
      * destruct (String.eqb_spec (card_id y) cardId) as [Ey|_].
        -- exfalso. apply (Hbefore y); [now left | exact Ey].
        -- apply IH. intros z Hz. apply Hbefore. now right.
    + rewrite !length_app. simpl. lia.
    + exists l1, l2. auto.
  - destruct (removeCardById_none _ _ E) as (-> & Hno).
    split; [reflexivity|]. split; [|exact Hno].
    unfold findCardById.
    destruct (find _ cards) as [c|] eqn:Hfind; [|reflexivity].
    apply find_some in Hfind as [Hin Hc]. apply String.eqb_eq in Hc.
    exfalso. now apply (Hno c).
Qed.

End ScoreCoverage.

Section SortCoverage.
Import Deck Reference Auxiliary.

Lemma insert_sorted {A : Type} (leb : A -> A -> bool) :
  (forall a b, leb a b = false -> leb b a = true) ->
  (forall a b c, leb a b = true -> leb b c = true -> leb a c = true) ->
  forall (x : A) (s : list A),
    StronglySorted (fun a b => leb a b = true) s ->
    StronglySorted (fun a b => leb a b = true) (Js.insert leb x s).
Proof.
  intros Htotal Htrans x s Hs.
  induction Hs as [|h t Ht IH Hh]; simpl.
  - constructor; constructor.
  - destruct (leb x h) eqn:Hxh.
    + constructor; [constructor; assumption|].
      constructor; [exact Hxh|].
      rewrite Forall_forall in *. intros y Hy. eapply Htrans; eauto.
    + constructor; [exact IH|].
      rewrite insert_perm.
      constructor; [now apply Htotal | exact Hh].
Qed.

Lemma sort_sorted {A : Type} (leb : A -> A -> bool) :
  (forall a b, leb a b = false -> leb b a = true) ->
  (forall a b c, leb a b = true -> leb b c = true -> leb a c = true) ->
  forall l : list A, StronglySorted (fun a b => leb a b = true) (Js.sort leb l).
Proof.
  intros Htotal Htrans. induction l as [|x l IH]; simpl.
  - constructor.
  - now apply insert_sorted.
Qed.

Ltac compare_cases :=
  unfold compareCards;
  repeat match goal with
         | |- context [isWild ?c] => destruct (isWild c)
         | |- context [isSkip ?c] => destruct (isSkip c)
         end;
  cbn [andb negb];
  repeat match goal with
         | |- context [(?d =? 0)%Z] => destruct (Z.eqb_spec d 0)
         end;
  cbn [negb]; rewrite ?Z.leb_le, ?Z.leb_gt; try lia.

Lemma compareCards_total (a b : Card) :
  (compareCards a b <=? 0)%Z = false -> (compareCards b a <=? 0)%Z = true.
Proof. compare_cases. Qed.

Lemma compareCards_trans (a b c : Card) :
  (compareCards a b <=? 0)%Z = true ->
  (compareCards b c <=? 0)%Z = true ->
  (compareCards a c <=? 0)%Z = true.
Proof. compare_cases. Qed.

Lemma sorted_split {A : Type} (R : A -> A -> Prop) (f : A -> bool) :
  (forall a b, R a b -> f a = true -> f b = true) ->
  forall l : list A,
    StronglySorted R l ->
    filter (fun x => negb (f x)) l ++ filter f l = l.
Proof.
  intros Hmono. induction 1 as [|x l Hl IH Hx]; simpl; [reflexivity|].
  destruct (f x) eqn:Hfx; simpl.
  - assert (Hall : forall y, In y l -> f y = true).
    { rewrite Forall_forall in Hx. intros y Hy. eapply Hmono; eauto. }
    assert (H1 : filter (fun y => negb (f y)) l = []).
    { clear IH. induction l as [|y l IHl]; simpl; [reflexivity|].
      rewrite (Hall y (or_introl eq_refl)). simpl. apply IHl.
      - now inversion Hl.
      - now inversion Hx.
      - intros z Hz. apply Hall. now right. }
    assert (H2 : filter f l = l).
    { clear IH H1. induction l as [|y l IHl]; simpl; [reflexivity|].
      rewrite (Hall y (or_introl eq_refl)). f_equal. apply IHl.
      - now inversion Hl.
      - now inversion Hx.
      - intros z Hz. apply Hall. now right. }
    now rewrite H1, H2.
  - now rewrite IH.
Qed.

(** X8. [sortCards] returns the cards of its argument, each as often as
    before, in the order of its comparator: numbered cards by colour (red,
    blue, green, yellow) and then by value, after them the skips, and the
    wilds at the end. *)
Theorem sortCards_orders_the_hand (cards : list Card) :
  Permutation (sortCards cards) cards
  /\ StronglySorted (fun a b => (compareCards a b <= 0)%Z) (sortCards cards)
  /\ filter (fun c => negb (isWild c)) (sortCards cards)
     ++ filter (fun c => isWild c) (sortCards cards) = sortCards cards
  /\ filter isNumbered (sortCards cards)
     ++ filter (fun c => negb (isNumbered c)) (sortCards cards) = sortCards cards.
Proof.
  assert (Hsorted : StronglySorted (fun a b => (compareCards a b <= 0)%Z)
                      (sortCards cards)).
  { pose proof (@sort_sorted _ (fun a b => (compareCards a b <=? 0)%Z)
                  compareCards_total compareCards_trans cards) as H.
    unfold sortCards.
    induction H as [|x l Hl IH Hx]; constructor; auto.
    rewrite Forall_forall in *. intros y Hy. apply Z.leb_le. now apply Hx. }
  split; [apply sort_perm|]. split; [exact Hsorted|]. split.
  - apply (sorted_split (R := fun a b => (compareCards a b <= 0)%Z)); [|exact Hsorted].
    intros a b. unfold compareCards.
    destruct (isWild a), (isWild b); cbn [andb negb]; intros; try reflexivity;
      try discriminate; lia.
  - pose proof (sorted_split (R := fun a b => (compareCards a b <= 0)%Z)
                  (fun c => negb (isNumbered c))) as Hsplit.
    etransitivity; [|apply Hsplit; [clear Hsplit|exact Hsorted]].
    + f_equal. apply filter_ext. intros c. now rewrite negb_involutive.
    + intros a b. unfold compareCards, isNumbered.
      destruct (isWild a), (isWild b), (isSkip a), (isSkip b); cbn [andb negb];
        intros; try reflexivity; try discriminate; lia.
Qed.

End SortCoverage.

(* ================================================================== *)
(** * Further properties of the phase matcher *)
(* ================================================================== *)

Section MatcherCoverage.
Import Deck PhaseValidation Reference Auxiliary.

Lemma forEachGroup_result (body : list Card -> option ValidationResult)
      (otherwise r : ValidationResult) :
  forall possibleGroups,
    forEachGroup body possibleGroups otherwise = Some r ->
    r = otherwise
    \/ (valid r = true /\ exists g, In g possibleGroups /\ body g = Some r).
Proof.
  induction possibleGroups as [|g gs IH]; simpl; intros H.
  - left. congruence.
  - destruct (body g) as [r'|] eqn:Hg; [|discriminate].
    destruct (valid r') eqn:Hv.
    + injection H as <-. right. eauto.
    + destruct (IH H) as [->|(Hr & g' & Hin & Hg')]; [now left|].
      right. eauto.
Qed.

Lemma filter_split_perm {A : Type} (f : A -> bool) (l : list A) :
  Permutation l (filter f l ++ filter (fun x => negb (f x)) l).
Proof.
  induction l as [|a l IH]; simpl; [reflexivity|].
  destruct (f a); simpl.
  - now apply perm_skip.
  - rewrite <- Permutation_middle. now apply perm_skip.
Qed.

Lemma satisfiesInOrder_length (G : list (list Card))
      (sl : list (PhaseRequirementType * nat)) :
  satisfiesInOrder G sl -> length (concat G) = cardsNeeded sl.
Proof.
  induction 1 as [|g slot G sl [Hlen _] _ IH]; [reflexivity|].
  simpl. fold (cardsNeeded sl). rewrite length_app. lia.
Qed.

Lemma cardsNeeded_unfolded (requirements : list PhaseRequirement) :
  cardsNeeded (slots requirements) <= cardsNeeded (unfolded requirements).
Proof.
  induction requirements as [|req rest IH]; [reflexivity|].
  rewrite unfolded_cons. unfold slots. cbn [flat_map]. fold (slots rest).
  rewrite !cardsNeeded_repeat. cbn [snd].
  assert (quantity req <= Nat.max 1 (quantity req)) by lia. nia.
Qed.

(** What the recursion hands back: on success the groups chosen so far
    followed by one group per slot, each fit for its slot, taken from the
    cards; on failure no group and a message. *)
Lemma tryAssignCards_result :
  forall (fuel : nat) (requirements : list PhaseRequirement)
         (cards : list Card) (assigned : list (list Card)) (r : ValidationResult),
    tryAssignCards fuel cards requirements assigned = Some r ->
    (valid r = true ->
     error r = None
     /\ exists G,
          groups r = assigned ++ G
          /\ satisfiesInOrder G (unfolded requirements)
          /\ (NoDup (map card_id cards) ->
              exists rest, Permutation cards (concat G ++ rest)))
    /\ (valid r = false -> groups r = [] /\ error r <> None).
Proof.
  induction fuel as [|fuel IH]; intros requirements cards assigned r H;
    [discriminate|].
  destruct requirements as [|req rest]; cbn [tryAssignCards] in H.
  - injection H as <-. cbn [valid groups error]. split; [|discriminate].
    intros _. split; [reflexivity|]. exists []. rewrite app_nil_r.
    split; [reflexivity|]. split; [constructor|].
    intros _. exists cards. reflexivity.
  - rewrite unfolded_cons.
    destruct (Nat.ltb_spec 1 (quantity req)) as [Hq|Hq].
    + apply IH in H. rewrite !unfolded_cons in H. cbn [type size quantity] in H.
      replace (Nat.max 1 (quantity req - 1)) with (quantity req - 1) in H by lia.
      replace (Nat.max 1 (quantity req)) with (S (quantity req - 1)) by lia.
      exact H.
    + replace (Nat.max 1 (quantity req)) with 1 by lia. cbn [repeat app].
      apply forEachGroup_result in H as [->|(Hr & g & Hg & Hbody)].
      * cbn [valid groups error]. split; [discriminate|].
        intros _. split; [reflexivity | discriminate].
      * split; [|congruence]. intros _.
        apply filter_In in Hg as [Hcomb Hvalid].
        apply getCombinations_sound in Hcomb as [Hsub Hsz].
        destruct (IH _ _ _ _ Hbody) as [Hok _].
        destruct (Hok Hr) as (Herr & G & HG & Hsat & Hperm).
        split; [exact Herr|]. exists (g :: G). split; [|split].
        -- rewrite HG, <- app_assoc. reflexivity.
        -- constructor; [split; assumption | exact Hsat].
        -- intros Hnd. destruct Hperm as (leftover & Hperm).
           { rewrite removeCards_filter. now apply NoDup_ids_filter. }
           exists leftover. cbn [concat]. rewrite <- app_assoc, <- Hperm.
           rewrite removeCards_filter.
           etransitivity; [apply (filter_split_perm (inIds (map card_id g)))|].
           rewrite (filter_inIds_Subseq Hsub Hnd). reflexivity.
Qed.

Lemma validatePhase_result (cards : list Card) (requirements : list PhaseRequirement) :
  (valid (validatePhase cards requirements) = true ->
   error (validatePhase cards requirements) = None
   /\ length cards
      = fold_left (fun sum req => sum + size req * quantity req) requirements 0
   /\ satisfiesInOrder (groups (validatePhase cards requirements))
        (unfolded requirements)
   /\ (NoDup (map card_id cards) ->
       Permutation (concat (groups (validatePhase cards requirements))) cards))
  /\ (valid (validatePhase cards requirements) = false ->
      groups (validatePhase cards requirements) = []
      /\ error (validatePhase cards requirements) <> None).
Proof.
  unfold validatePhase. cbv zeta.
  destruct (Nat.eqb_spec (length cards)
              (fold_left (fun sum req => sum + size req * quantity req)
                 requirements 0)) as [Hlen|Hlen]; cbn [negb].
  - destruct (@tryAssignCards_fuel (fuelFor requirements) requirements cards [])
      as (r & Hr & _); [unfold fuelFor; fold (weight requirements); lia|].
    rewrite Hr. destruct (tryAssignCards_result _ _ _ _ Hr) as [Hok Hbad].
    split; [|exact Hbad]. intros Hv.
    destruct (Hok Hv) as (Herr & G & HG & Hsat & Hperm).
    cbn [app] in HG. rewrite HG.
    split; [exact Herr|]. split; [exact Hlen|]. split; [exact Hsat|].
    intros Hnd. destruct (Hperm Hnd) as (leftover & Hp).
    assert (Hnone : leftover = []).
    { pose proof (Permutation_length Hp) as Hl. rewrite length_app in Hl.
      rewrite (satisfiesInOrder_length Hsat) in Hl.
      pose proof (cardsNeeded_unfolded requirements) as Hle.
      rewrite totalNeeded_slots in Hlen.
      destruct leftover; [reflexivity|]. simpl in Hl. lia. }
    subst leftover. rewrite app_nil_r in Hp. now symmetry.
  - cbn [valid groups error]. split; [discriminate|].
    intros _. split; [reflexivity | discriminate].
Qed.



(** X10. A list with another number of cards than the requirements take is
    rejected at once, with the message that names both numbers; and every
    rejection, whatever its cause, returns no groups and an error message. *)
Theorem validatePhase_rejection (cards : list Card)
    (requirements : list PhaseRequirement) :
  let totalNeeded :=
    fold_left (fun sum req => sum + size req * quantity req) requirements 0 in
  (length cards <> totalNeeded ->
   validatePhase cards requirements
   = mkResult false []
       (Some ("Need exactly " ++ Js.showNat totalNeeded ++ " cards, got "
              ++ Js.showNat (length cards))%string))
  /\ (valid (validatePhase cards requirements) = false ->
      groups (validatePhase cards requirements) = []
      /\ error (validatePhase cards requirements) <> None).
Proof.
  cbv zeta. split.
  - intros Hlen. unfold validatePhase. cbv zeta.
    apply Nat.eqb_neq in Hlen. now rewrite Hlen.
  - apply validatePhase_result.
Qed.

Lemma validatePhase_rejection_witness :
  validatePhase [Sample.wild "w1"] [mkReq set 3 2]
  = mkResult false [] (Some "Need exactly 6 cards, got 1"%string).
Proof.
  apply (proj1 (validatePhase_rejection [Sample.wild "w1"] [mkReq set 3 2])).
  discriminate.
Defined.

(** X11. Validating the groups that [validatePhase] returned, put end to
    end, gives the same result again (cards with pairwise distinct ids):
    what the game screen passes on to [layDownPhase] is accepted there with
    the same groups. *)
Theorem validatePhase_again (cards : list Card)
    (requirements : list PhaseRequirement) :
  NoDup (map card_id cards) ->
  valid (validatePhase cards requirements) = true ->
  validatePhase (concat (groups (validatePhase cards requirements))) requirements
  = validatePhase cards requirements.
Proof.
  intros Hnd Hv. destruct (validatePhase_result cards requirements) as [Hok _].
  destruct (Hok Hv) as (Herr & Hlen & Hsat & Hperm). specialize (Hperm Hnd).
  assert (Hnd' : NoDup (map card_id
                          (concat (groups (validatePhase cards requirements))))).
  { apply Permutation_NoDup with (l := map card_id cards); [|exact Hnd].
    apply Permutation_map. now symmetry. }
  destruct (validatePhase cards requirements) as [v G e] eqn:E.
  cbn [valid groups error] in *. subst v e.
  unfold validatePhase. cbv zeta.
  rewrite (Permutation_length Hperm), Hlen, Nat.eqb_refl. cbn [negb].
  rewrite (@tryAssignCards_in_order (fuelFor requirements) requirements G []);
    auto.
Qed.

Lemma validatePhase_again_witness :
  validatePhase
    (concat (groups (validatePhase (concat Sample.mixed) [mkReq set 3 2])))
    [mkReq set 3 2]
  = validatePhase (concat Sample.mixed) [mkReq set 3 2].
Proof.
  apply validatePhase_again; [|reflexivity].
  apply distinct_NoDup. reflexivity.
Defined.

End MatcherCoverage.

Section GroupCoverage.
Import Deck PhaseValidation Reference Auxiliary.

Lemma CardColor_eqb_eq (a b : CardColor) : CardColor_eqb a b = true <-> a = b.
Proof. destruct a, b; simpl; split; congruence. Qed.

Section Dedupe.
Variable A : Type.
Variable eqb : A -> A -> bool.
Hypothesis eqb_eq : forall a b, eqb a b = true <-> a = b.

Lemma dedupe_In_iff (x : A) (l : list A) : In x (Js.dedupe eqb l) <-> In x l.
Proof.
  induction l as [|a l IH]; simpl; [tauto|].
  rewrite filter_In, IH. split.
  - intros [H|[H _]]; auto.
  - intros [H|H]; auto.
    destruct (eqb a x) eqn:E; [apply eqb_eq in E; auto|auto].
Qed.

(** A set of at most one element: all members of the array are equal. *)
Lemma dedupe_at_most_one (l : list A) :
  length (Js.dedupe eqb l) <= 1 <-> forall a b, In a l -> In b l -> a = b.
Proof.
  destruct l as [|x l]; simpl.
  - split; [intros _ a b []|lia].
  - split.
    + intros Hlen.
      assert (Hall : forall y, In y l -> y = x).
      { intros y Hy. apply (proj2 (dedupe_In_iff y l)) in Hy.
        destruct (eqb x y) eqn:E; [apply eqb_eq in E; auto|].
        assert (Hin : In y (filter (fun y => negb (eqb x y)) (Js.dedupe eqb l)))
          by (apply filter_In; rewrite E; auto).
        destruct (filter (fun y => negb (eqb x y)) (Js.dedupe eqb l));
          [contradiction|simpl in Hlen; lia]. }
      intros a b [<-|Ha] [<-|Hb]; auto.
      * symmetry. auto.
      * rewrite (Hall a Ha), (Hall b Hb). reflexivity.
    + intros Hall. rewrite filter_nothing; [simpl; lia|].
      intros y Hy. apply (proj1 (dedupe_In_iff y l)) in Hy.
      rewrite (Hall x y (or_introl eq_refl) (or_intror Hy)).
      rewrite (proj2 (eqb_eq y y) eq_refl). reflexivity.
Qed.

Lemma dedupe_exactly_one (l : list A) :
  length (Js.dedupe eqb l) = 1
  <-> l <> [] /\ forall a b, In a l -> In b l -> a = b.
Proof.
  rewrite <- dedupe_at_most_one.
  destruct l as [|x l]; simpl.
  - split; [discriminate|intros [H _]; congruence].
  - split; [intros H; split; [discriminate|lia]|intros [_ H]; lia].
Qed.

End Dedupe.

Lemma isValidGroup_no_skip (cards : list Card) (t : PhaseRequirementType) :
  isValidGroup cards t = true -> forall c, In c cards -> isSkip c = false.
Proof.
  unfold isValidGroup. intros H. apply existsb_isSkip_false.
  destruct (existsb (fun c => isSkip c) cards); [discriminate|reflexivity].
Qed.

(** Without a skip among the cards the three checks see the cards that are
    not wild, and the run check a target of as many cards as there are. *)
Lemma isValidGroup_without_skip (cards : list Card) (t : PhaseRequirementType) :
  (forall c, In c cards -> isSkip c = false) ->
  isValidGroup cards t
  = let nonWilds := filter (fun c => negb (isWild c)) cards in
    let wildCount := length (filter (fun c => isWild c) cards) in
    match t with
    | set => isValidSet nonWilds wildCount
    | run => isValidRun nonWilds wildCount (length nonWilds + wildCount)
    | color_group => isValidColor nonWilds wildCount
    end.
Proof.
  intros Hno. unfold isValidGroup.
  rewrite (proj2 (existsb_isSkip_false cards) Hno).
  rewrite (nonWilds_without_skip _ Hno). cbv zeta.
  replace (length cards)
    with (length (filter (fun c => negb (isWild c)) cards)
          + length (filter (fun c => isWild c) cards)); [reflexivity|].
  rewrite <- (filter_length_split (fun c => isWild c) cards). lia.
Qed.

Lemma all_equal_map {B : Type} (f : Card -> B) (cards : list Card) :
  (forall a b, In a (map f (filter (fun c => negb (isWild c)) cards)) ->
               In b (map f (filter (fun c => negb (isWild c)) cards)) -> a = b)
  <-> (forall a b, In a cards -> In b cards ->
                   isWild a = false -> isWild b = false -> f a = f b).
Proof.
  split.
  - intros H a b Ha Hb Hwa Hwb.
    apply H; apply in_map; apply filter_In; rewrite ?Hwa, ?Hwb; auto.
  - intros H x y Hx Hy.
    apply in_map_iff in Hx as (a & <- & Ha). apply in_map_iff in Hy as (b & <- & Hb).
    apply filter_In in Ha as [Ha Hwa]. apply filter_In in Hb as [Hb Hwb].
    apply H; auto; [destruct (isWild a)|destruct (isWild b)]; auto; discriminate.
Qed.

Lemma isValidSet_rule (nonWilds : list Card) (wildCount : nat) :
  isValidSet nonWilds wildCount = true
  <-> forall a b, In a (map value nonWilds) -> In b (map value nonWilds) -> a = b.
Proof.
  unfold isValidSet. destruct nonWilds as [|c l].
  - simpl. split; [intros _ a b []|reflexivity].
  - change (length (c :: l) =? 0) with false. cbv iota zeta.
    rewrite Nat.leb_le. apply dedupe_at_most_one. apply Z.eqb_eq.
Qed.

Lemma isValidColor_rule (nonWilds : list Card) (wildCount : nat) :
  isValidColor nonWilds wildCount = true
  <-> forall a b, In a (map color nonWilds) -> In b (map color nonWilds) -> a = b.
Proof.
  unfold isValidColor. destruct nonWilds as [|c l].
  - simpl. split; [intros _ a b []|reflexivity].
  - change (length (c :: l) =? 0) with false. cbv iota zeta.
    rewrite Nat.leb_le. apply dedupe_at_most_one. apply CardColor_eqb_eq.
Qed.

(** X12. A list of cards is a valid set exactly when it holds no skip and
    all its cards that are not wild have the same value, and a valid
    colour group exactly when it holds no skip and all its cards that are
    not wild have the same colour; how many cards there are, and how many
    wilds, plays no part (a list of wilds only, and the empty list, are
    both). *)
Theorem isValidGroup_set_and_color (cards : list Card) :
  (isValidGroup cards set = true
   <-> (forall c, In c cards -> isSkip c = false)
       /\ (forall a b, In a cards -> In b cards ->
                       isWild a = false -> isWild b = false ->
                       value a = value b))
  /\ (isValidGroup cards color_group = true
      <-> (forall c, In c cards -> isSkip c = false)
          /\ (forall a b, In a cards -> In b cards ->
                          isWild a = false -> isWild b = false ->
                          color a = color b)).
Proof.
  split; (split; [intros H; pose proof (isValidGroup_no_skip _ _ H) as Hno;
                  split; [exact Hno|];
                  rewrite (@isValidGroup_without_skip cards _ Hno) in H;
                  cbv zeta in H
                 |intros [Hno H]; rewrite (@isValidGroup_without_skip cards _ Hno);
                  cbv zeta]).
  - apply all_equal_map. exact (proj1 (isValidSet_rule _ _) H).
  - apply isValidSet_rule. exact (proj2 (all_equal_map value cards) H).
  - apply all_equal_map. exact (proj1 (isValidColor_rule _ _) H).
  - apply isValidColor_rule. exact (proj2 (all_equal_map color cards) H).
Qed.

Lemma map_cons_NoDup {A : Type} (x : A) (ll : list (list A)) :
  NoDup ll -> NoDup (map (cons x) ll).
Proof.
  induction 1 as [|l ll Hnotin _ IH]; simpl; constructor; auto.
  intros Hin. apply in_map_iff in Hin as (l' & E & Hl'). congruence.
Qed.

Lemma getCombinations_NoDup {A : Type} :
  forall (array : list A) (k : nat),
    NoDup array -> NoDup (getCombinations array k).
Proof.
  induction array as [|x rest IH]; intros [|k] Hnd; simpl.
  - repeat constructor. intros [].
  - constructor.
  - repeat constructor. intros [].
  - inversion Hnd as [|? ? Hx Hrest]; subst.
    apply NoDup_app; [apply map_cons_NoDup|idtac|]; auto.
    intros c Hc Hc'. apply in_map_iff in Hc as (c' & <- & _).
    apply getCombinations_sound in Hc' as [Hsub _].
    apply Hx. apply (Subseq_In Hsub). now left.
Qed.

Lemma getCombinations_count {A : Type} :
  forall (array : list A) (k : nat),
    length (getCombinations array k) = choose (length array) k.
Proof.
  induction array as [|x rest IH]; intros [|k]; simpl; try reflexivity.
  rewrite length_app, length_map, !IH. reflexivity.
Qed.

Lemma choose_beyond : forall n k, n < k -> choose n k = 0.
Proof.
  induction n as [|n IH]; intros [|k] H; simpl; try lia.
  rewrite !IH by lia. reflexivity.
Qed.

Lemma getCombinations_whole {A : Type} (array : list A) :
  getCombinations array (length array) = [array].
Proof.
  induction array as [|x rest IH]; simpl; [reflexivity|].
  rewrite IH. simpl.
  assert (H : length (getCombinations rest (S (length rest))) = 0)
    by (rewrite getCombinations_count; apply choose_beyond; lia).
  destruct (getCombinations rest (S (length rest))); [reflexivity|discriminate].
Qed.

(** X13. [getCombinations(array, k)] returns exactly the lists of [k]
    elements taken from the array in the order of the array; there are
    "length choose k" of them, none when [k] is more than the length and
    the array alone when [k] is the length; from an array without repeated
    elements every combination comes out once. *)
Theorem getCombinations_all {A : Type} (array : list A) (k : nat) :
  (forall c, In c (getCombinations array k) <-> Subseq c array /\ length c = k)
  /\ length (getCombinations array k) = choose (length array) k
  /\ (length array < k -> getCombinations array k = [])
  /\ (k = length array -> getCombinations array k = [array])
  /\ (NoDup array -> NoDup (getCombinations array k)).
Proof.
  split; [|split; [|split; [|split]]].
  - intros c. split; [apply getCombinations_sound|].
    intros [Hsub <-]. now apply getCombinations_complete.
  - apply getCombinations_count.
  - intros H. apply length_zero_iff_nil.
    rewrite getCombinations_count. now apply choose_beyond.
  - intros ->. apply getCombinations_whole.
  - apply getCombinations_NoDup.
Qed.

End GroupCoverage.

Section HitCoverage.
Import Deck PhaseValidation Reference Auxiliary.

Lemma minimum_snoc (v : Z) :
  forall l : list Z, l <> [] -> minimum (l ++ [v]) = Z.min (minimum l) v.
Proof.
  induction l as [|x t IH]; intros Hne; [congruence|].
  destruct t as [|y t]; [reflexivity|].
  change (minimum ((x :: y :: t) ++ [v]))
    with (Z.min x (minimum ((y :: t) ++ [v]))).
  rewrite IH by discriminate.
  change (minimum (x :: y :: t)) with (Z.min x (minimum (y :: t))). lia.
Qed.

Lemma maximum_snoc (v : Z) :
  forall l : list Z, l <> [] -> maximum (l ++ [v]) = Z.max (maximum l) v.
Proof.
  induction l as [|x t IH]; intros Hne; [congruence|].
  destruct t as [|y t]; [reflexivity|].
  change (maximum ((x :: y :: t) ++ [v]))
    with (Z.max x (maximum ((y :: t) ++ [v]))).
  rewrite IH by discriminate.
  change (maximum (x :: y :: t)) with (Z.max x (maximum (y :: t))). lia.
Qed.

Lemma minimum_maximum_bounds :
  forall (l : list Z) (x : Z), In x l -> (minimum l <= x <= maximum l)%Z.
Proof.
  induction l as [|a t IH]; intros x Hx; [contradiction|].
  destruct t as [|y t]; [destruct Hx as [<-|[]]; simpl; lia|].
  change (minimum (a :: y :: t)) with (Z.min a (minimum (y :: t))).
  change (maximum (a :: y :: t)) with (Z.max a (maximum (y :: t))).
  destruct Hx as [<-|Hx]; [lia|]. specialize (IH x Hx). lia.
Qed.

Lemma span_nonempty (l : list Z) :
  l <> [] -> span l = (maximum l - minimum l + 1)%Z.
Proof. destruct l; [congruence|reflexivity]. Qed.

Lemma NoDup_snoc {A : Type} (l : list A) (x : A) :
  NoDup l -> ~ In x l -> NoDup (l ++ [x]).
Proof.
  intros Hnd Hx. apply NoDup_app; auto.
  - repeat constructor. intros [].
  - intros a Ha [<-|[]]. auto.
Qed.

(** The run case of a hit: a rank just below or just above what the run
    can still reach is new and stretches the run by one. *)
Lemma isValidRun_hit (nonWilds : list Card) (wildCount : nat) (card : Card) :
  nonWilds <> [] ->
  isValidRun nonWilds wildCount (length nonWilds + wildCount) = true ->
  (let values := Js.sort Z.leb (map value nonWilds) in
   let min := hd 0%Z values in
   let max := last values 0%Z in
   let runLength := Z.of_nat (length nonWilds + wildCount) in
   let theoreticalMin := (max - runLength + 1)%Z in
   let theoreticalMax := (min + runLength - 1)%Z in
   (value card =? theoreticalMin - 1)%Z || (value card =? theoreticalMax + 1)%Z)
  = true ->
  isValidRun (nonWilds ++ [card]) wildCount
    (length (nonWilds ++ [card]) + wildCount) = true.
Proof.
  intros Hne Hv Hhit. cbv zeta in Hhit.
  assert (Hr : map value nonWilds <> [])
    by (destruct nonWilds; [congruence|discriminate]).
  rewrite (sort_hd_minimum 0%Z Hr), (sort_last_maximum 0%Z Hr) in Hhit.
  apply isValidRun_rule in Hv as (Hnd & Hspan & _).
  apply isValidRun_rule. rewrite !map_app, !length_app, !length_map.
  cbn [map length]. rewrite (span_nonempty Hr) in Hspan.
  rewrite span_nonempty by (destruct (map value nonWilds); discriminate).
  rewrite (minimum_snoc _ Hr), (maximum_snoc _ Hr).
  pose proof (minimum_maximum_bounds (map value nonWilds)) as Hb.
  set (m := minimum (map value nonWilds)) in *.
  set (M := maximum (map value nonWilds)) in *.
  assert (Hout : (value card < m \/ M < value card)%Z).
  { apply orb_true_iff in Hhit as [H|H]; apply Z.eqb_eq in H; lia. }
  split; [|split].
  - apply NoDup_snoc; [exact Hnd|]. intros Hin. specialize (Hb _ Hin). lia.
  - apply orb_true_iff in Hhit as [H|H]; apply Z.eqb_eq in H; lia.
  - apply orb_true_iff in Hhit as [H|H]; apply Z.eqb_eq in H; lia.
Qed.

Lemma canHitOnGroup_valid (card : Card) (group : list Card)
      (t : PhaseRequirementType) :
  isValidGroup group t = true ->
  canHitOnGroup card group t = true ->
  isValidGroup (group ++ [card]) t = true.
Proof.
  intros Hv Hhit. pose proof (isValidGroup_no_skip _ _ Hv) as Hno.
  unfold canHitOnGroup in Hhit.
  destruct (isSkip card) eqn:Hskip; [discriminate|].
  assert (Hno' : forall c, In c (group ++ [card]) -> isSkip c = false).
  { intros c Hc. apply in_app_or in Hc as [Hc|[<-|[]]]; auto. }
  rewrite (@isValidGroup_without_skip group _ Hno) in Hv.
  rewrite (@isValidGroup_without_skip (group ++ [card]) _ Hno').
  cbv zeta in *. rewrite !filter_app. cbn [filter].
  set (nonWilds := filter (fun c => negb (isWild c)) group) in *.
  set (wilds := filter (fun c => isWild c) group) in *.
  destruct (isWild card) eqn:Hwild; cbn [negb].
  - rewrite app_nil_r, length_app. cbn [length].
    destruct t.
    + exact Hv.
    + apply isValidRun_rule in Hv as (Hnd & Hspan & Hw).
      replace (length nonWilds + (length wilds + 1))
        with (length nonWilds + S (length wilds)) by lia.
      replace (length wilds + 1) with (S (length wilds)) by lia.
      apply isValidRun_rule. repeat split; [exact Hnd|lia|lia].
    + exact Hv.
  - rewrite app_nil_r.
    assert (Hlen : length group = length nonWilds + length wilds).
    { unfold nonWilds, wilds.
      rewrite <- (filter_length_split (fun c => isWild c) group). lia. }
    destruct t.
    + apply isValidSet_rule. rewrite map_app. cbn [map].
      pose proof (proj1 (isValidSet_rule _ _) Hv) as Hall.
      destruct nonWilds as [|first rest].
      * intros a b [<-|[]] [<-|[]]. reflexivity.
      * apply Z.eqb_eq in Hhit.
        assert (Hone : forall a, In a (map value (first :: rest) ++ [value card]) ->
                                 a = value first).
        { intros a Ha. apply in_app_or in Ha as [Ha|[<-|[]]]; [|exact Hhit].
          apply Hall; [exact Ha|now left]. }
        intros a b Ha Hb. rewrite (Hone a Ha), (Hone b Hb). reflexivity.
    + rewrite sort_length, length_map in Hhit.
      destruct (length nonWilds =? 0) eqn:Hz.
      * apply Nat.eqb_eq in Hz. destruct nonWilds; [|discriminate].
        apply isValidRun_rule. cbn. repeat split; try lia.
        repeat constructor. intros [].
      * apply isValidRun_hit; auto.
        -- intros ->. discriminate.
        -- rewrite Hlen in Hhit. exact Hhit.
    + apply isValidColor_rule. rewrite map_app. cbn [map].
      pose proof (proj1 (isValidColor_rule _ _) Hv) as Hall.
      destruct nonWilds as [|first rest].
      * intros a b [<-|[]] [<-|[]]. reflexivity.
      * apply CardColor_eqb_eq in Hhit.
        assert (Hone : forall a, In a (map color (first :: rest) ++ [color card]) ->
                                 a = color first).
        { intros a Ha. apply in_app_or in Ha as [Ha|[<-|[]]]; [|exact Hhit].
          apply Hall; [exact Ha|now left]. }
        intros a b Ha Hb. rewrite (Hone a Ha), (Hone b Hb). reflexivity.
Qed.

(** X14. A card that [canHitOnGroup] accepts for a group of some type
    keeps the group valid: if the group is valid for the type and the card
    can hit it as that type, the card is no skip and the group with the
    card added at its end is valid for the same type. *)
Theorem canHitOnGroup_keeps_the_group_valid (card : Card) (group : list Card)
    (t : PhaseRequirementType) :
  isValidGroup group t = true ->
  canHitOnGroup card group t = true ->
  isSkip card = false /\ isValidGroup (group ++ [card]) t = true.
Proof.
  intros Hv Hhit. split; [|now apply canHitOnGroup_valid].
  unfold canHitOnGroup in Hhit. destruct (isSkip card); [discriminate|reflexivity].
Qed.

Lemma canHitOnGroup_keeps_the_group_valid_witness :
  isSkip (Sample.numbered "c6" blue 6) = false
  /\ isValidGroup
       ([Sample.numbered "c3" red 3; Sample.wild "w"; Sample.numbered "c5" green 5]
        ++ [Sample.numbered "c6" blue 6]) run = true.
Proof.
  apply canHitOnGroup_keeps_the_group_valid; reflexivity.
Defined.

End HitCoverage.

Section GroupTypeCoverage.
Import Deck PhaseValidation Reference Auxiliary.

Lemma isSequential_run (d : Z) :
  forall (rest : list Z) (v : Z),
    isSequential (v :: rest) = true ->
    (forall x, In x rest -> (v < x)%Z)
    /\ NoDup (v :: rest)
    /\ last (v :: rest) d = (v + Z.of_nat (length rest))%Z.
Proof.
  induction rest as [|w rest IH]; intros v H.
  - split; [intros x []|]. split; [repeat constructor; intros []|].
    simpl. lia.
  - cbn [isSequential] in H. apply andb_true_iff in H as [Hw Hrest].
    apply Z.eqb_eq in Hw. destruct (IH w Hrest) as (Hlt & Hnd & Hlast).
    assert (Hall : forall x, In x (w :: rest) -> (v < x)%Z).
    { intros x [<-|Hx]; [lia|]. specialize (Hlt x Hx). lia. }
    split; [exact Hall|]. split.
    + constructor; [|exact Hnd]. intros Hin. specialize (Hall v Hin). lia.
    + change (last (v :: w :: rest) d) with (last (w :: rest) d).
      rewrite Hlast. cbn [length]. lia.
Qed.

Lemma dedupe_nonempty {A : Type} (eqb : A -> A -> bool) (l : list A) :
  l <> [] -> 1 <= length (Js.dedupe eqb l).
Proof. destruct l; [congruence|simpl; lia]. Qed.

(** What [determineGroupType] answers for a group that is valid for some
    type: a type the group is valid for. *)
Lemma determineGroupType_valid (group : list Card) (t : PhaseRequirementType) :
  isValidGroup group t = true ->
  exists t', determineGroupType group = Some t'
             /\ isValidGroup group t' = true
             /\ (t = set -> t' = set).
Proof.
  intros Hv. pose proof (isValidGroup_no_skip _ _ Hv) as Hno.
  unfold determineGroupType. rewrite (nonWilds_without_skip _ Hno).
  assert (Hlen : length group
                 = length (filter (fun c => negb (isWild c)) group)
                   + length (filter (fun c => isWild c) group)).
  { rewrite <- (filter_length_split (fun c => isWild c) group). lia. }
  pose proof Hv as Hv'.
  rewrite (@isValidGroup_without_skip group _ Hno) in Hv'. cbv zeta in *.
  set (nonWilds := filter (fun c => negb (isWild c)) group) in *.
  set (wilds := filter (fun c => isWild c) group) in *.
  assert (Hset : forall b, isValidSet nonWilds (length wilds) = b ->
                           isValidGroup group set = b).
  { intros b <-. now rewrite (@isValidGroup_without_skip group _ Hno). }
  assert (Hcol : forall b, isValidColor nonWilds (length wilds) = b ->
                           isValidGroup group color_group = b).
  { intros b <-. now rewrite (@isValidGroup_without_skip group _ Hno). }
  assert (Hrun : forall b, isValidRun nonWilds (length wilds)
                             (length nonWilds + length wilds) = b ->
                           isValidGroup group run = b).
  { intros b <-. now rewrite (@isValidGroup_without_skip group _ Hno). }
  destruct (length nonWilds =? 0) eqn:Hz.
  { exists set. split; [reflexivity|]. split; [|reflexivity].
    apply Hset. unfold isValidSet. now rewrite Hz. }
  assert (Hne : nonWilds <> []) by (intros E; rewrite E in Hz; discriminate).
  assert (Hr : map value nonWilds <> [])
    by (destruct nonWilds; [congruence|discriminate]).
  assert (Hc : map color nonWilds <> [])
    by (destruct nonWilds; [congruence|discriminate]).
  pose proof (dedupe_nonempty Z.eqb Hr) as Hv1.
  pose proof (dedupe_nonempty CardColor_eqb Hc) as Hc1.
  destruct (length (Js.dedupe Z.eqb (map value nonWilds)) =? 1) eqn:Hone.
  { exists set. split; [reflexivity|]. split; [|reflexivity].
    apply Hset. unfold isValidSet. rewrite Hz. cbv zeta.
    apply Nat.eqb_eq in Hone. apply Nat.leb_le. lia. }
  apply Nat.eqb_neq in Hone.
  assert (Hnotset : t <> set).
  { intros ->. unfold isValidSet in Hv'. rewrite Hz in Hv'. cbv zeta in Hv'.
    apply Nat.leb_le in Hv'. lia. }
  destruct (length (Js.dedupe CardColor_eqb (map color nonWilds)) =? 1) eqn:Hcone.
  { apply Nat.eqb_eq in Hcone.
    destruct (isSequential (Js.sort Z.leb (map value nonWilds))) eqn:Hseq.
    - exists run. split; [reflexivity|]. split; [|congruence].
      apply Hrun. apply isValidRun_rule.
      rewrite (span_nonempty Hr), length_map.
      rewrite <- (sort_hd_minimum 0%Z Hr), <- (sort_last_maximum 0%Z Hr).
      pose proof (sort_perm Z.leb (map value nonWilds)) as Hperm.
      pose proof (sort_length Z.leb (map value nonWilds)) as Hsl.
      rewrite length_map in Hsl.
      destruct (Js.sort Z.leb (map value nonWilds)) as [|v rest] eqn:Es;
        [apply Permutation_nil in Hperm; congruence|].
      destruct (isSequential_run 0%Z _ _ Hseq) as (_ & Hnd & Hlast).
      rewrite Hlast. cbn [hd]. cbn [length] in Hsl.
      split; [eapply Permutation_NoDup; eauto|]. lia.
    - exists color_group. split; [reflexivity|]. split; [|congruence].
      apply Hcol. unfold isValidColor. rewrite Hz. cbv zeta.
      apply Nat.leb_le. lia. }
  apply Nat.eqb_neq in Hcone.
  destruct t; [congruence| |].
  - exists run.
    assert (Hgaps : ((last (Js.sort Z.leb (map value nonWilds)) 0
                      - hd 0 (Js.sort Z.leb (map value nonWilds)) + 1
                      - Z.of_nat (length nonWilds)
                      <=? Z.of_nat (length group - length nonWilds)) = true)%Z).
    { apply isValidRun_rule in Hv' as (_ & Hspan & _).
      rewrite (span_nonempty Hr) in Hspan.
      rewrite (sort_hd_minimum 0%Z Hr), (sort_last_maximum 0%Z Hr).
      apply Z.leb_le. lia. }
    rewrite Hgaps.
    split; [|split; [exact Hv|congruence]].
    destruct (_ && _)%bool; reflexivity.
  - exfalso. unfold isValidColor in Hv'. rewrite Hz in Hv'. cbv zeta in Hv'.
    apply Nat.leb_le in Hv'. lia.
Qed.

(** X15. For a group that is valid for some type [determineGroupType]
    answers with a type, never with "none", and the group is valid for the
    type it answers; a group that is a valid set is always typed a set. *)
Theorem determineGroupType_of_a_valid_group (group : list Card)
    (t : PhaseRequirementType) :
  isValidGroup group t = true ->
  exists t', determineGroupType group = Some t'
             /\ isValidGroup group t' = true
             /\ (t = set -> t' = set).
Proof. apply determineGroupType_valid. Qed.

Lemma determineGroupType_of_a_valid_group_witness :
  exists t', determineGroupType
               [Sample.numbered "c3" red 3; Sample.wild "w";
                Sample.numbered "c5" red 5] = Some t'
             /\ isValidGroup [Sample.numbered "c3" red 3; Sample.wild "w";
                              Sample.numbered "c5" red 5] t' = true
             /\ (run = set -> t' = set).
Proof.
  apply determineGroupType_of_a_valid_group. reflexivity.
Defined.

End GroupTypeCoverage.

(* ================================================================== *)
(** * Further properties of the store actions *)
(* ================================================================== *)

Section TurnCoverage.
Import Deck PhaseValidation GameStore.

Lemma insert_map {A : Type} (leb : A -> A -> bool) (g : A -> A) (x : A) :
  (forall a b, leb (g a) (g b) = leb a b) ->
  forall s, Js.insert leb (g x) (map g s) = map g (Js.insert leb x s).
Proof.
  intros Hg. induction s as [|h t IH]; simpl; [reflexivity|].
  rewrite Hg. destruct (leb x h); simpl; [reflexivity|]. now rewrite IH.
Qed.

Lemma sort_map {A : Type} (leb : A -> A -> bool) (g : A -> A) :
  (forall a b, leb (g a) (g b) = leb a b) ->
  forall l, Js.sort leb (map g l) = map g (Js.sort leb l).
Proof.
  intros Hg. induction l as [|x l IH]; simpl; [reflexivity|].
  fold (Js.sort leb (map g l)). fold (Js.sort leb l).
  rewrite IH. now apply insert_map.
Qed.

(** A write that leaves seats and users alone leaves the seating order
    alone. *)
Lemma sortBySeat_updatePlayer (pid : string) (f : GamePlayer -> GamePlayer)
      (table : list GamePlayer) :
  (forall p, seat_index (f p) = seat_index p) ->
  sortBySeat (updatePlayer pid f table) = updatePlayer pid f (sortBySeat table).
Proof.
  intros Hf. unfold sortBySeat, updatePlayer. apply sort_map.
  intros a b.
  destruct (String.eqb (player_id a) pid), (String.eqb (player_id b) pid);
    rewrite ?Hf; reflexivity.
Qed.

Lemma notMyTurn_updatePlayer (g g' : Game) (pid : string)
      (f : GamePlayer -> GamePlayer) (table : list GamePlayer)
      (ph : list (list PhaseRequirement)) (cur cur' : GamePlayer) :
  (forall p, seat_index (f p) = seat_index p) ->
  (forall p, user_id (f p) = user_id p) ->
  current_player_index g' = current_player_index g ->
  user_id cur' = user_id cur ->
  notMyTurn (mkSession g' (updatePlayer pid f table) ph) cur'
  = notMyTurn (mkSession g table ph) cur.
Proof.
  intros Hseat Huser Hidx Hcur. unfold notMyTurn. cbn [players game].
  rewrite sortBySeat_updatePlayer by exact Hseat. rewrite Hidx, Hcur.
  unfold updatePlayer. rewrite nth_error_map.
  destruct (nth_error (sortBySeat table) (current_player_index g)) as [p|];
    [|reflexivity].
  cbn [option_map]. destruct (String.eqb (player_id p) pid);
    rewrite ?Huser; reflexivity.
Qed.

Ltac branches :=
  repeat match goal with
         | |- context [match ?x with _ => _ end] => destruct x eqn:?
         | H : context [match ?x with _ => _ end] |- _ => destruct x eqn:?
         end.


Lemma TurnPhase_eqb_eq (a b : TurnPhase) : TurnPhase_eqb a b = true <-> a = b.
Proof. destruct a, b; simpl; split; congruence. Qed.

(** A draw returns [true] only past the guards and with a card drawn. *)
Lemma drawCard_success_inv (rnd : nat -> nat) (me : string) (pile : Pile)
      (s : Session) :
  returned (drawCard rnd me pile s) = true ->
  exists cur card newDrawPile newDiscardPile,
    currentPlayer me s = Some cur
    /\ notMyTurn s cur = false
    /\ turn_phase (game s) = draw
    /\ drawFrom rnd pile (draw_pile (game s)) (discard_pile (game s))
       = inr (card, newDrawPile, newDiscardPile)
    /\ rows (drawCard rnd me pile s)
       = mkSession
           (mkGame (game_id (game s)) (status (game s))
              (current_player_index (game s)) play newDrawPile newDiscardPile)
           (updatePlayer (player_id cur) (withHand (hand cur ++ [card])) (players s))
           (phases s).
Proof.
  unfold drawCard, reject.
  destruct (currentPlayer me s) as [cur|]; [|discriminate].
  destruct (notMyTurn s cur) eqn:Hturn; [discriminate|].
  destruct (TurnPhase_eqb (turn_phase (game s)) draw) eqn:Hphase;
    [|discriminate].
  apply TurnPhase_eqb_eq in Hphase. cbn [negb].
  destruct (drawFrom rnd pile (draw_pile (game s)) (discard_pile (game s)))
    as [err|[[card newDrawPile] newDiscardPile]]; [discriminate|].
  intros _. exists cur, card, newDrawPile, newDiscardPile.
  repeat split; auto.
Qed.

(** X17. The player whose turn it is, in the draw phase, gets the last card
    of the array of the pile drawn from, at the end of the hand, and the
    turn moves to the play phase: the last card of the draw pile when that
    pile is not empty, and the last card of the discard pile when drawing
    from it; the other pile is left as it is.  Drawing from an empty
    discard pile is refused with "Discard pile is empty". *)
Theorem drawCard_takes_the_top (rnd : nat -> nat) (me : string) (s : Session)
    (cur : GamePlayer) :
  currentPlayer me s = Some cur ->
  notMyTurn s cur = false ->
  turn_phase (game s) = draw ->
  let took top newDrawPile newDiscardPile :=
    mkOutcome
      (mkSession
         (mkGame (game_id (game s)) (status (game s))
            (current_player_index (game s)) play newDrawPile newDiscardPile)
         (updatePlayer (player_id cur) (withHand (hand cur ++ [top])) (players s))
         (phases s))
      true None in
  (forall rest top,
      draw_pile (game s) = rest ++ [top] ->
      drawCard rnd me fromDraw s = took top rest (discard_pile (game s)))
  /\ (forall rest top,
         discard_pile (game s) = rest ++ [top] ->
         drawCard rnd me fromDiscard s = took top (draw_pile (game s)) rest)
  /\ (discard_pile (game s) = [] ->
      drawCard rnd me fromDiscard s
      = mkOutcome s false (Some "Discard pile is empty"%string)).
Proof.
  intros Hcur Hturn Hphase. cbv zeta. unfold drawCard.
  rewrite Hcur, Hturn, Hphase. cbn [TurnPhase_eqb negb].
  split; [|split].
  - intros rest top E. unfold drawFrom. rewrite E, pop_snoc.
    rewrite length_app. cbn [length].
    replace (length rest + 1 =? 0) with false
      by (symmetry; apply Nat.eqb_neq; lia).
    reflexivity.
  - intros rest top E. unfold drawFrom. rewrite E, pop_snoc. reflexivity.
  - intros E. unfold drawFrom. rewrite E. reflexivity.
Qed.

Lemma drawCard_takes_the_top_witness :
  drawCard Sample.zeros "alice" fromDiscard Sample.emptyDrawPile
  = mkOutcome
      (mkSession
         (mkGame "g" playing 0 play []
            [Sample.numbered "d1" red 1; Sample.numbered "d2" blue 2;
             Sample.numbered "d3" green 3; Sample.numbered "d4" yellow 4])
         [Sample.seated "pa" "alice" 0
            [Sample.numbered "a1" red 7; Sample.numbered "d5" red 5] 0 false [];
          Sample.seated "pb" "bob" 1 [Sample.numbered "b1" blue 8] 0 false []]
         getStandardPhases)
      true None.
Proof.
  apply (proj1 (proj2 (@drawCard_takes_the_top Sample.zeros "alice"
                         Sample.emptyDrawPile
                         (Sample.aliceOf Sample.emptyDrawPile)
                         eq_refl eq_refl eq_refl))
           [Sample.numbered "d1" red 1; Sample.numbered "d2" blue 2;
            Sample.numbered "d3" green 3; Sample.numbered "d4" yellow 4]
           (Sample.numbered "d5" red 5)).
  reflexivity.
Defined.

(** X18. One draw per turn: after a draw that returned [true] the turn is
    in the play phase, a second draw by the same player is refused with
    "Already drew this turn", and no player at all can draw. *)
Theorem drawCard_once_per_turn (rnd : nat -> nat) (me : string) (pile : Pile)
    (s : Session) :
  returned (drawCard rnd me pile s) = true ->
  let s' := rows (drawCard rnd me pile s) in
  turn_phase (game s') = play
  /\ (forall rnd' pile',
         drawCard rnd' me pile' s'
         = mkOutcome s' false (Some "Already drew this turn"%string))
  /\ (forall rnd' me' pile', returned (drawCard rnd' me' pile' s') = false).
Proof.
  intros Hok. cbv zeta.
  destruct (drawCard_success_inv _ _ _ _ Hok)
    as (cur & card & D & X & Hcur & Hturn & Hphase & _ & ->).
  split; [reflexivity|]. split.
  - intros rnd' pile'. unfold drawCard.
    unfold currentPlayer. cbn [players].
    rewrite (@currentPlayer_updatePlayer me cur (withHand (hand cur ++ [card])))
      by (reflexivity || exact Hcur).
    rewrite (@notMyTurn_updatePlayer (game s) _ _ _ _ _ cur)
      by reflexivity.
    destruct s as [g ps ph]. cbn [game players phases] in *. rewrite Hturn.
    reflexivity.
  - intros rnd' me' pile'. unfold drawCard, reject. cbn [game turn_phase].
    cbn [TurnPhase_eqb negb]. branches; reflexivity.
Qed.

Lemma drawCard_once_per_turn_witness :
  turn_phase (game Sample.afterDraw) = play
  /\ (forall rnd' pile',
         drawCard rnd' "alice" pile' Sample.afterDraw
         = mkOutcome Sample.afterDraw false (Some "Already drew this turn"%string))
  /\ (forall rnd' me' pile',
         returned (drawCard rnd' me' pile' Sample.afterDraw) = false).
Proof.
  apply (@drawCard_once_per_turn Sample.zeros "alice" fromDraw Sample.dealt).
  vm_compute. reflexivity.
Defined.

(** X19. One phase per round: after a lay-down that returned [true] the
    game row is as before (the turn stays in the play phase), and a second
    lay-down by the same player, whatever the groups, is refused with
    "Already laid down this round". *)
Theorem layDownPhase_once_per_round (me : string) (cardGroups : list (list Card))
    (s : Session) :
  returned (layDownPhase me cardGroups s) = true ->
  let s' := rows (layDownPhase me cardGroups s) in
  game s' = game s
  /\ turn_phase (game s') = play
  /\ forall cardGroups',
       layDownPhase me cardGroups' s'
       = mkOutcome s' false (Some "Already laid down this round"%string).
Proof.
  intros Hok. cbv zeta.
  destruct (layDownPhase_success_inv _ _ _ Hok)
    as (cur & requirements & Hcur & Hturn & Hphase & Hlaid & Hreq & Hvalid).
  assert (Hrows : rows (layDownPhase me cardGroups s)
                  = mkSession (game s)
                      (updatePlayer (player_id cur)
                         (withLayDown (removeAll (hand cur) (concat cardGroups))
                            cardGroups)
                         (players s))
                      (phases s)).
  { unfold layDownPhase.
    rewrite Hcur, Hturn, Hphase, Hlaid, Hreq, Hvalid. reflexivity. }
  rewrite Hrows. clear Hrows Hok.
  split; [reflexivity|]. split; [exact Hphase|].
  intros cardGroups'. unfold layDownPhase.
  unfold currentPlayer. cbn [players].
  rewrite (@currentPlayer_updatePlayer me cur
             (withLayDown (removeAll (hand cur) (concat cardGroups)) cardGroups))
    by (reflexivity || exact Hcur).
  rewrite (@notMyTurn_updatePlayer (game s) _ _ _ _ _ cur) by reflexivity.
  destruct s as [g ps ph]. cbn [game players phases] in *.
  rewrite Hturn, Hphase. reflexivity.
Qed.

Lemma layDownPhase_once_per_round_witness :
  game (rows (layDownPhase "alice" Sample.inOrder Sample.twoTriples))
  = game Sample.twoTriples
  /\ turn_phase (game (rows (layDownPhase "alice" Sample.inOrder Sample.twoTriples)))
     = play
  /\ forall cardGroups',
       layDownPhase "alice" cardGroups'
         (rows (layDownPhase "alice" Sample.inOrder Sample.twoTriples))
       = mkOutcome (rows (layDownPhase "alice" Sample.inOrder Sample.twoTriples))
           false (Some "Already laid down this round"%string).
Proof.
  apply layDownPhase_once_per_round. reflexivity.
Defined.



End TurnCoverage.

(* ================================================================== *)
(** * Further properties of the round end and of the start of a game *)
(* ================================================================== *)

Section RoundCoverage.
Import Deck PhaseValidation GameStore Auxiliary.

Lemma map_nth_seq {A : Type} (d : A) :
  forall (l pre : list A),
    map (fun i => nth i (pre ++ l) d) (seq (length pre) (length l)) = l.
Proof.
  induction l as [|x l IH]; intros pre; [reflexivity|].
  cbn [length seq map]. rewrite nth_middle. f_equal.
  specialize (IH (pre ++ [x])).
  rewrite <- app_assoc, length_app in IH. cbn [length app] in IH.
  rewrite Nat.add_1_r in IH. exact IH.
Qed.

Lemma cardsOf_withHand (h : list Card) (r : GamePlayer) :
  cardsOf r = [] -> cardsOf (withHand h r) = h.
Proof.
  unfold cardsOf. cbn [withHand hand laid_down_cards hits].
  intros H. apply app_eq_nil in H as [_ ->]. apply app_nil_r.
Qed.

(** The deal to the seats, one write per seat: over rows that hold no
    card, the cards on the table grow by the hands dealt. *)
Lemma deal_fold_occ (x : Card) (bySeat : list GamePlayer) (hs : list (list Card)) :
  forall (rest : list GamePlayer) (a : nat) (table : list GamePlayer),
    (forall i, i < length rest -> nth_error bySeat (a + i) = nth_error rest i) ->
    NoDup (map player_id rest) ->
    NoDup (map player_id table) ->
    (forall p, In p rest -> In (player_id p) (map player_id table)) ->
    (forall r, In r table -> In (player_id r) (map player_id rest) ->
               cardsOf r = []) ->
    occ x (flat_map cardsOf
             (fold_left
                (fun table i =>
                   match nth_error bySeat i with
                   | Some p => updatePlayer (player_id p) (withHand (nth i hs [])) table
                   | None => table
                   end)
                (seq a (length rest)) table))
    = occ x (flat_map cardsOf table)
      + occ x (concat (map (fun i => nth i hs []) (seq a (length rest)))).
Proof.
  induction rest as [|p rest IH]; intros a table Hnth Hnd Htable Hin Hempty;
    cbn [length seq fold_left map concat].
  - unfold occ. simpl. lia.
  - pose proof (Hnth 0 (Nat.lt_0_succ _)) as H0.
    rewrite Nat.add_0_r in H0. cbn [nth_error] in H0. rewrite H0.
    inversion Hnd as [|? ? Hp Hnd']; subst.
    destruct (proj1 (in_map_iff _ _ _) (Hin p (or_introl eq_refl)))
      as (r & Hid & Hr).
    pose proof (@updatePlayer_occ (withHand (nth a hs [])) r x table Htable Hr)
      as Hocc.
    rewrite Hid in Hocc.
    assert (Hr0 : cardsOf r = [])
      by (apply Hempty; [exact Hr|rewrite Hid; now left]).
    rewrite (@cardsOf_withHand (nth a hs []) r Hr0), Hr0 in Hocc.
    rewrite IH; auto.
    + rewrite occ_app. unfold occ in *. simpl in Hocc. lia.
    + intros i Hi. specialize (Hnth (S i) (proj1 (Nat.succ_lt_mono _ _) Hi)).
      rewrite Nat.add_succ_r in Hnth. exact Hnth.
    + now rewrite updatePlayer_ids.
    + intros q Hq. rewrite updatePlayer_ids by reflexivity. apply Hin. now right.
    + intros r1 Hr1 Hid1. unfold updatePlayer in Hr1.
      apply in_map_iff in Hr1 as (r0 & E & Hr0in).
      destruct (String.eqb_spec (player_id r0) (player_id p)) as [Ep|_].
      * exfalso. apply Hp. rewrite <- Ep. subst r1. exact Hid1.
      * subst r1. apply Hempty; [exact Hr0in|now right].
Qed.

(** Every row that is dealt to holds one of the hands dealt. *)
Lemma deal_fold_hands (bySeat : list GamePlayer) (hs : list (list Card)) :
  forall (rest : list GamePlayer) (a : nat) (table : list GamePlayer),
    (forall i, i < length rest -> nth_error bySeat (a + i) = nth_error rest i) ->
    a + length rest <= length hs ->
    (forall r, In r table ->
               In (player_id r) (map player_id rest) \/ In (hand r) hs) ->
    forall r,
      In r (fold_left
              (fun table i =>
                 match nth_error bySeat i with
                 | Some p => updatePlayer (player_id p) (withHand (nth i hs [])) table
                 | None => table
                 end)
              (seq a (length rest)) table) ->
      In (hand r) hs.
Proof.
  induction rest as [|p rest IH]; intros a table Hnth Hlen Hrows;
    cbn [length seq fold_left].
  - intros r Hr. destruct (Hrows r Hr) as [[]|H]. exact H.
  - pose proof (Hnth 0 (Nat.lt_0_succ _)) as H0.
    rewrite Nat.add_0_r in H0. cbn [nth_error] in H0. rewrite H0.
    cbn [length] in Hlen.
    apply IH.
    + intros i Hi. specialize (Hnth (S i) (proj1 (Nat.succ_lt_mono _ _) Hi)).
      rewrite Nat.add_succ_r in Hnth. exact Hnth.
    + lia.
    + intros r1 Hr1. unfold updatePlayer in Hr1.
      apply in_map_iff in Hr1 as (r0 & E & Hr0in).
      destruct (String.eqb_spec (player_id r0) (player_id p)) as [Ep|Ep].
      * right. subst r1. cbn [withHand hand]. apply nth_In. lia.
      * subst r1. destruct (Hrows r0 Hr0in) as [[E|H]|H]; auto.
        congruence.
Qed.

(** What the deal leaves alone. *)
Lemma deal_fold_keeps {B : Type} (proj : GamePlayer -> B)
      (bySeat : list GamePlayer) (hs : list (list Card)) :
  (forall h p, proj (withHand h p) = proj p) ->
  forall (order : list nat) (table : list GamePlayer),
    map proj
      (fold_left
         (fun table i =>
            match nth_error bySeat i with
            | Some p => updatePlayer (player_id p) (withHand (nth i hs [])) table
            | None => table
            end)
         order table)
    = map proj table.
Proof.
  intros Hproj. induction order as [|i order IH]; intros table; [reflexivity|].
  cbn [fold_left]. rewrite IH.
  destruct (nth_error bySeat i) as [p|]; [|reflexivity].
  unfold updatePlayer. rewrite map_map. apply map_ext. intros row.
  destruct (String.eqb (player_id row) (player_id p)); [apply Hproj|reflexivity].
Qed.

(** The deal to all seats of a table whose rows hold no card. *)
Lemma deal_to_all (bySeat table : list GamePlayer) (hs : list (list Card)) :
  Permutation (map player_id bySeat) (map player_id table) ->
  NoDup (map player_id table) ->
  length hs = length table ->
  Forall (fun r => cardsOf r = []) table ->
  let dealt :=
    fold_left
      (fun table i =>
         match nth_error bySeat i with
         | Some p => updatePlayer (player_id p) (withHand (nth i hs [])) table
         | None => table
         end)
      (seq 0 (length bySeat)) table in
  Permutation (flat_map cardsOf dealt) (concat hs)
  /\ Forall (fun r => In (hand r) hs) dealt.
Proof.
  intros Hids Hnd Hlen Hempty. cbv zeta.
  assert (Hn : length bySeat = length hs).
  { rewrite Hlen. apply Permutation_length in Hids.
    now rewrite !length_map in Hids. }
  split.
  - apply perm_occ. intros x.
    rewrite (@deal_fold_occ x bySeat hs bySeat 0 table).
    + replace (flat_map cardsOf table) with (@nil Card).
      * rewrite Hn. pose proof (map_nth_seq [] hs []) as Hseq.
        cbn [app length] in Hseq. rewrite Hseq. reflexivity.
      * symmetry. clear -Hempty.
        induction table as [|r table IH]; [reflexivity|].
        inversion Hempty as [|? ? Hr Hrest]; subst. simpl.
        rewrite Hr. now apply IH.
    + reflexivity.
    + eapply Permutation_NoDup; [symmetry; exact Hids|exact Hnd].
    + exact Hnd.
    + intros p Hp. apply (Permutation_in _ Hids). now apply in_map.
    + intros r Hr _. now apply (proj1 (Forall_forall _ _) Hempty).
  - apply Forall_forall. intros r Hr.
    apply (@deal_fold_hands bySeat hs bySeat 0 table); auto; [lia|].
    intros r0 Hr0. left. apply (Permutation_in _ (Permutation_sym Hids)).
    now apply in_map.
Qed.

Lemma fresh_deck_Conserved (s : Session) (deck : list Card) (ids : list string) :
  Permutation (allCards s) deck ->
  length deck = 108 ->
  map card_id deck = ids ->
  NoDup ids ->
  Conserved s.
Proof.
  intros Hperm Hlen Hdeck Hids. split.
  - rewrite (Permutation_length Hperm). exact Hlen.
  - apply Permutation_NoDup with (l := map card_id deck).
    + apply Permutation_map. symmetry. exact Hperm.
    + rewrite Hdeck. exact Hids.
Qed.

(** The rows after the first pass of the round scorer. *)
Lemma roundEnd_rows (table : list GamePlayer) :
  NoDup (map player_id table) ->
  fold_left
    (fun table player =>
       let handScore := calculateHandScore (hand player) in
       let newScore := (score player + handScore)%Z in
       let newPhaseIndex :=
         if has_laid_down player then current_phase_index player + 1
         else current_phase_index player in
       updatePlayer (player_id player) (withRoundEnd newScore newPhaseIndex) table)
    table table
  = map (fun p =>
           withRoundEnd (score p + calculateHandScore (hand p))%Z
             (if has_laid_down p then current_phase_index p + 1
              else current_phase_index p) p)
      table.
Proof.
  intros Hnd.
  exact (@updateEach
           (fun player =>
              withRoundEnd (score player + calculateHandScore (hand player))%Z
                (if has_laid_down player then current_phase_index player + 1
                 else current_phase_index player))
           (fun _ _ => eq_refl) table [] Hnd).
Qed.

(** X20. A round that ends without a winner of the game is followed by a
    new round dealt from a fresh deck (player rows with pairwise distinct
    ids): the hands and the two piles together are a permutation of the
    108 cards of [createDeck], so with distinct generated ids every card
    is in exactly one place; no player has laid down and no group or hit
    is left on the table; seat 0 is to draw; and up to ten players every
    hand has ten cards and one card lies on the discard pile. *)
Theorem handleRoundEnd_deals_a_new_round (generateCardId : nat -> string)
    (rnd : nat -> nat) (s : Session) :
  NoDup (map player_id (players s)) ->
  find (completesAllPhases (length (phases s))) (players s) = None ->
  exists s',
    handleRoundEnd generateCardId rnd s = Some s'
    /\ Permutation (allCards s') (createDeck generateCardId)
    /\ (NoDup (map generateCardId (seq 0 108)) -> Conserved s')
    /\ Forall (fun p => has_laid_down p = false
                        /\ laid_down_cards p = [] /\ hits p = []) (players s')
    /\ (length (players s) <= 10 ->
        Forall (fun p => length (hand p) = 10) (players s')
        /\ length (discard_pile (game s')) = 1)
    /\ status (game s') = status (game s)
    /\ current_player_index (game s') = 0
    /\ turn_phase (game s') = draw.
Proof.
  intros Hnd Hfind.
  destruct (setupGame_facts generateCardId rnd (length (players s)))
    as (setup & Hsetup & Hn & Hdeck & Hsmall & _).
  unfold handleRoundEnd. cbv zeta. rewrite Hfind, Hsetup.
  pose proof (@roundEnd_rows (players s) Hnd) as Hrows. cbv zeta in Hrows. rewrite Hrows.
  clear Hrows.
  set (table1 := map _ (players s)).
  assert (Hids1 : map player_id table1 = map player_id (players s))
    by (unfold table1; rewrite map_map; reflexivity).
  destruct (@deal_to_all (sortBySeat (players s)) table1 (hands setup))
    as [Hdealt Hhands].
  { rewrite Hids1. apply Permutation_map. apply sort_perm. }
  { now rewrite Hids1. }
  { unfold table1. now rewrite length_map. }
  { unfold table1. apply Forall_forall. intros r Hr.
    apply in_map_iff in Hr as (r0 & <- & _). reflexivity. }
  cbv zeta in Hdealt, Hhands.
  eexists. split; [reflexivity|]. cbn [game players status
    current_player_index turn_phase draw_pile discard_pile].
  assert (Hall : Permutation
                   (allCards
                      (mkSession
                         (mkGame (game_id (game s)) (status (game s)) 0 draw
                            (drawPile setup) (discardPile setup))
                         (fold_left
                            (fun table i =>
                               match nth_error (sortBySeat (players s)) i with
                               | Some p =>
                                   updatePlayer (player_id p)
                                     (withHand (nth i (hands setup) [])) table
                               | None => table
                               end)
                            (seq 0 (length (sortBySeat (players s)))) table1)
                         (phases s)))
                   (createDeck generateCardId)).
  { unfold allCards. cbn [game players draw_pile discard_pile].
    rewrite Hdealt, <- Hdeck, app_assoc. apply Permutation_app_comm. }
  split; [exact Hall|]. split.
  { intros Hfresh.
    exact (@fresh_deck_Conserved _ _ _ Hall (createDeck_length generateCardId)
             (createDeck_ids generateCardId) Hfresh). }
  split; [|split; [|auto]].
  - pose proof (@deal_fold_keeps _
                  (fun p => (has_laid_down p, laid_down_cards p, hits p))
                  (sortBySeat (players s)) (hands setup)
                  (fun _ _ => eq_refl)
                  (seq 0 (length (sortBySeat (players s)))) table1) as Hkeep.
    apply Forall_forall. intros r Hr.
    apply (in_map (fun p => (has_laid_down p, laid_down_cards p, hits p))) in Hr.
    rewrite Hkeep in Hr. unfold table1 in Hr. rewrite map_map in Hr.
    apply in_map_iff in Hr as (r0 & E & _). cbn in E.
    injection E as E1 E2 E3. auto.
  - intros Hle. destruct (Hsmall Hle) as (Hten & (c & Hc & _) & _). split.
    + apply Forall_forall. intros r Hr.
      apply (proj1 (Forall_forall _ _) Hten).
      now apply (proj1 (Forall_forall _ _) Hhands).
    + now rewrite Hc.
Qed.

Lemma handleRoundEnd_deals_a_new_round_witness :
  exists s',
    handleRoundEnd Sample.freshIds Sample.zeros
      (Sample.lastCard (Sample.skip "a1") 0) = Some s'
    /\ Permutation (allCards s') (createDeck Sample.freshIds)
    /\ (NoDup (map Sample.freshIds (seq 0 108)) -> Conserved s')
    /\ Forall (fun p => has_laid_down p = false
                        /\ laid_down_cards p = [] /\ hits p = []) (players s')
    /\ (length (players (Sample.lastCard (Sample.skip "a1") 0)) <= 10 ->
        Forall (fun p => length (hand p) = 10) (players s')
        /\ length (discard_pile (game s')) = 1)
    /\ status (game s') = status (game (Sample.lastCard (Sample.skip "a1") 0))
    /\ current_player_index (game s') = 0
    /\ turn_phase (game s') = draw.
Proof.
  apply handleRoundEnd_deals_a_new_round.
  - apply distinct_NoDup. reflexivity.
  - reflexivity.
Defined.

(** X21. The round scorer adds to every player's score the points of the
    hand recorded for the player and moves the player to the next phase
    exactly when the player has laid down (player rows with pairwise
    distinct ids).  When some player has laid down the last phase the game
    is marked finished, every hand, group and hit is cleared, and the
    piles, the active seat and the turn phase are left as they were. *)
Theorem handleRoundEnd_scores_the_round (generateCardId : nat -> string)
    (rnd : nat -> nat) (s s' : Session) :
  NoDup (map player_id (players s)) ->
  handleRoundEnd generateCardId rnd s = Some s' ->
  map (fun p => (player_id p, score p, current_phase_index p)) (players s')
  = map (fun p =>
           (player_id p,
            (score p + calculateHandScore (hand p))%Z,
            if has_laid_down p then current_phase_index p + 1
            else current_phase_index p))
        (players s)
  /\ (forall gameWinner,
         find (completesAllPhases (length (phases s))) (players s)
         = Some gameWinner ->
         game s'
         = mkGame (game_id (game s)) finished (current_player_index (game s))
             (turn_phase (game s)) (draw_pile (game s)) (discard_pile (game s))
         /\ Forall (fun p => cardsOf p = [] /\ has_laid_down p = false)
              (players s')).
Proof.
  intros Hnd Hs'. split; [now apply (handleRoundEnd_scores _ _ _ Hnd Hs')|].
  intros gameWinner Hfind. revert Hs'. unfold handleRoundEnd. cbv zeta.
  rewrite Hfind. pose proof (@roundEnd_rows (players s) Hnd) as Hrows.
  cbv zeta in Hrows. rewrite Hrows. intros [= <-]. cbn [game players].
  split; [reflexivity|].
  apply Forall_forall. intros r Hr.
  apply in_map_iff in Hr as (r0 & <- & _). split; reflexivity.
Qed.

Lemma handleRoundEnd_scores_the_round_witness :
  map (fun p => (player_id p, score p, current_phase_index p))
    (players (Sample.orElse
                (handleRoundEnd Sample.freshIds Sample.zeros
                   (Sample.lastCard (Sample.numbered "a1" red 5) 9))
                Sample.lobbyOfTwo))
  = [("pa"%string, 5%Z, 10); ("pb"%string, 40%Z, 0)]
  /\ status (game (Sample.orElse
                     (handleRoundEnd Sample.freshIds Sample.zeros
                        (Sample.lastCard (Sample.numbered "a1" red 5) 9))
                     Sample.lobbyOfTwo)) = finished.
Proof.
  destruct (@handleRoundEnd_scores_the_round Sample.freshIds Sample.zeros
              (Sample.lastCard (Sample.numbered "a1" red 5) 9)
              (Sample.orElse
                 (handleRoundEnd Sample.freshIds Sample.zeros
                    (Sample.lastCard (Sample.numbered "a1" red 5) 9))
                 Sample.lobbyOfTwo)) as [Hscores Hwinner].
  - apply distinct_NoDup. reflexivity.
  - reflexivity.
  - split; [exact Hscores|].
    destruct (Hwinner (Sample.aliceOf
                         (Sample.lastCard (Sample.numbered "a1" red 5) 9))
                eq_refl) as [Hgame _].
    rewrite Hgame. reflexivity.
Defined.

(** X22. Starting a game (the host's call): with fewer than two players,
    or outside the lobby, nothing is written.  Otherwise, for player rows
    with pairwise distinct ids that hold no card, the game is set to
    playing with seat 0 to draw, and the hands and the two piles together
    are a permutation of the 108 cards of [createDeck], so with distinct
    generated ids every card is in exactly one place; up to ten players
    every hand has ten cards and one card lies on the discard pile. *)
Theorem startGame_deals_the_first_round (generateCardId : nat -> string)
    (rnd : nat -> nat) (s : Session) :
  NoDup (map player_id (players s)) ->
  Forall holdsNoCard (players s) ->
  (length (players s) < 2 \/ status (game s) <> lobby ->
   startGame generateCardId rnd s = Some s)
  /\ (2 <= length (players s) -> status (game s) = lobby ->
      exists s',
        startGame generateCardId rnd s = Some s'
        /\ Permutation (allCards s') (createDeck generateCardId)
        /\ (NoDup (map generateCardId (seq 0 108)) -> Conserved s')
        /\ (length (players s) <= 10 ->
            Forall (fun p => length (hand p) = 10) (players s')
            /\ length (discard_pile (game s')) = 1)
        /\ status (game s') = playing
        /\ current_player_index (game s') = 0
        /\ turn_phase (game s') = draw).
Proof.
  intros Hnd Hempty. split.
  - intros H. unfold startGame.
    destruct (Nat.ltb_spec (length (players s)) 2) as [_|Hge]; [reflexivity|].
    destruct H as [H|H]; [lia|].
    destruct (status (game s)); cbn [negb]; congruence.
  - intros Hge Hlobby.
    destruct (setupGame_facts generateCardId rnd (length (players s)))
      as (setup & Hsetup & Hn & Hdeck & Hsmall & _).
    unfold startGame.
    destruct (Nat.ltb_spec (length (players s)) 2) as [Hlt|_]; [lia|].
    rewrite Hlobby, Hsetup. cbn [negb]. cbv zeta.
    destruct (@deal_to_all (sortBySeat (players s)) (players s) (hands setup))
      as [Hdealt Hhands].
    { apply Permutation_map. apply sort_perm. }
    { exact Hnd. }
    { exact Hn. }
    { apply Forall_forall. intros r Hr.
      destruct (proj1 (Forall_forall _ _) Hempty r Hr) as (H1 & H2 & H3).
      unfold cardsOf. now rewrite H1, H2, H3. }
    cbv zeta in Hdealt, Hhands.
    eexists. split; [reflexivity|].
    cbn [game players status current_player_index turn_phase draw_pile
         discard_pile].
    assert (Hall : Permutation
                     (allCards
                        (mkSession
                           (mkGame (game_id (game s)) playing 0 draw
                              (drawPile setup) (discardPile setup))
                           (fold_left
                              (fun table i =>
                                 match nth_error (sortBySeat (players s)) i with
                                 | Some p =>
                                     updatePlayer (player_id p)
                                       (withHand (nth i (hands setup) [])) table
                                 | None => table
                                 end)
                              (seq 0 (length (sortBySeat (players s))))
                              (players s))
                           (phases s)))
                     (createDeck generateCardId)).
    { unfold allCards. cbn [game players draw_pile discard_pile].
      rewrite Hdealt, <- Hdeck, app_assoc. apply Permutation_app_comm. }
    split; [exact Hall|]. split.
    { intros Hfresh.
      exact (@fresh_deck_Conserved _ _ _ Hall (createDeck_length generateCardId)
               (createDeck_ids generateCardId) Hfresh). }
    split; [|auto].
    intros Hle. destruct (Hsmall Hle) as (Hten & (c & Hc & _) & _). split.
    + apply Forall_forall. intros r Hr.
      apply (proj1 (Forall_forall _ _) Hten).
      now apply (proj1 (Forall_forall _ _) Hhands).
    + now rewrite Hc.
Qed.

Lemma startGame_deals_the_first_round_witness :
  exists s',
    startGame Sample.freshIds Sample.zeros Sample.lobbyOfTwo = Some s'
    /\ Permutation (allCards s') (createDeck Sample.freshIds)
    /\ (NoDup (map Sample.freshIds (seq 0 108)) -> Conserved s')
    /\ (length (players Sample.lobbyOfTwo) <= 10 ->
        Forall (fun p => length (hand p) = 10) (players s')
        /\ length (discard_pile (game s')) = 1)
    /\ status (game s') = playing
    /\ current_player_index (game s') = 0
    /\ turn_phase (game s') = draw.
Proof.
  apply (@startGame_deals_the_first_round Sample.freshIds Sample.zeros
           Sample.lobbyOfTwo).
  - apply distinct_NoDup. reflexivity.
  - repeat constructor.
  - simpl. lia.
  - reflexivity.
Defined.

End RoundCoverage.

(* ================================================================== *)
(** * The cards on the table during a turn *)
(* ================================================================== *)

Section TableCoverage.
Import Deck PhaseValidation GameStore Auxiliary.

(** X23. A draw that returns [true] only moves a card (player rows with
    pairwise distinct ids): the piles and the players hold the same cards
    after it as before, so 108 cards with distinct ids stay 108 cards with
    distinct ids - also across the reshuffle of the discard pile. *)
Theorem drawCard_keeps_the_cards (rnd : nat -> nat) (me : string) (pile : Pile)
    (s : Session) :
  NoDup (map player_id (players s)) ->
  returned (drawCard rnd me pile s) = true ->
  Permutation (allCards (rows (drawCard rnd me pile s))) (allCards s)
  /\ (Conserved s -> Conserved (rows (drawCard rnd me pile s))).
Proof.
  intros Hnd Hok.
  pose proof (drawCard_conserves _ _ _ _ Hnd Hok) as Hperm.
  split; [exact Hperm|]. now apply Conserved_perm.
Qed.

Lemma drawCard_keeps_the_cards_witness :
  Permutation (allCards Sample.afterDraw) (allCards Sample.dealt)
  /\ (Conserved Sample.dealt -> Conserved Sample.afterDraw).
Proof.
  apply (@drawCard_keeps_the_cards Sample.zeros "alice" fromDraw Sample.dealt).
  - apply distinct_NoDup. vm_compute. reflexivity.
  - vm_compute. reflexivity.
Defined.

(** X24. A discard that returns [true] and leaves the player a card only
    moves the discarded card from the hand to the discard pile (player
    rows with pairwise distinct ids): the piles and the players hold the
    same cards after it as before. *)
Theorem discardCard_keeps_the_cards (generateCardId : nat -> string)
    (rnd : nat -> nat) (me : string) (card : Card) (s : Session)
    (cur : GamePlayer) (r : Result) :
  NoDup (map player_id (players s)) ->
  currentPlayer me s = Some cur ->
  length (hand cur) <> 1 ->
  discardCard generateCardId rnd me card s = Some r ->
  returned r = true ->
  Permutation (allCards (rows r)) (allCards s)
  /\ (Conserved s -> Conserved (rows r)).
Proof.
  intros Hnd Hcur Hlen Hr Hok.
  destruct (discardCard_success_inv _ _ _ _ _ Hr Hok)
    as (cur' & removedCard & newHand & Hcur' & _ & _ & Hrm).
  assert (cur' = cur) by congruence. subst cur'.
  assert (Hne : newHand <> []).
  { destruct (removeCardById_some _ _ Hrm) as (l1 & l2 & E1 & E2 & _).
    intros ->. rewrite E1 in Hlen. symmetry in E2.
    apply app_eq_nil in E2 as [-> ->]. apply Hlen. reflexivity. }
  pose proof (discardCard_conserves _ _ _ _ _ Hnd Hcur Hrm Hne Hr Hok) as Hperm.
  split; [exact Hperm|]. now apply Conserved_perm.
Qed.

Lemma discardCard_keeps_the_cards_witness :
  Permutation
    (allCards
       (mkSession
          (mkGame "g" playing 2 draw [Sample.numbered "d1" red 1]
             [Sample.numbered "d2" blue 2; Sample.skip "s1"])
          [Sample.seated "pa" "alice" 0 [Sample.numbered "a1" red 7] 0 false [];
           Sample.seated "pb" "bob" 1 [Sample.numbered "b1" blue 8] 0 false [];
           Sample.seated "pc" "carol" 2 [Sample.numbered "c1" green 9] 0 false []]
          getStandardPhases))
    (allCards Sample.threeSeats).
Proof.
  apply (@discardCard_keeps_the_cards Sample.freshIds Sample.zeros "alice"
           (Sample.skip "s1") Sample.threeSeats
           (Sample.aliceOf Sample.threeSeats)
           (mkOutcome
              (mkSession
                 (mkGame "g" playing 2 draw [Sample.numbered "d1" red 1]
                    [Sample.numbered "d2" blue 2; Sample.skip "s1"])
                 [Sample.seated "pa" "alice" 0 [Sample.numbered "a1" red 7] 0
                    false [];
                  Sample.seated "pb" "bob" 1 [Sample.numbered "b1" blue 8] 0
                    false [];
                  Sample.seated "pc" "carol" 2 [Sample.numbered "c1" green 9] 0
                    false []]
                 getStandardPhases)
              true None)).
  - apply distinct_NoDup. reflexivity.
  - reflexivity.
  - simpl. lia.
  - reflexivity.
  - reflexivity.
Defined.

(** X25. A lay-down that returns [true] only moves the submitted cards
    from the hand to the table when these are cards of the hand: for
    player rows with pairwise distinct ids, a player with no group on the
    table yet, a hand with distinct ids and submitted cards with distinct
    ids that all lie in the hand, the piles and the players hold the same
    cards after it as before. *)
Theorem layDownPhase_keeps_the_cards (me : string) (cardGroups : list (list Card))
    (s : Session) (cur : GamePlayer) :
  NoDup (map player_id (players s)) ->
  currentPlayer me s = Some cur ->
  laid_down_cards cur = [] ->
  NoDup (map card_id (hand cur)) ->
  NoDup (map card_id (concat cardGroups)) ->
  incl (concat cardGroups) (hand cur) ->
  returned (layDownPhase me cardGroups s) = true ->
  Permutation (allCards (rows (layDownPhase me cardGroups s))) (allCards s)
  /\ (Conserved s -> Conserved (rows (layDownPhase me cardGroups s))).
Proof.
  intros Hnd Hcur Hlaid Hhand Hgroups Hincl Hok.
  pose proof (layDownPhase_conserves _ _ _ Hnd Hcur Hlaid Hhand Hgroups Hincl Hok)
    as Hperm.
  split; [exact Hperm|]. now apply Conserved_perm.
Qed.

Lemma layDownPhase_keeps_the_cards_witness :
  Permutation
    (allCards (rows (layDownPhase "alice" Sample.inOrder Sample.twoTriples)))
    (allCards Sample.twoTriples)
  /\ (Conserved Sample.twoTriples ->
      Conserved (rows (layDownPhase "alice" Sample.inOrder Sample.twoTriples))).
Proof.
  apply (@layDownPhase_keeps_the_cards "alice" Sample.inOrder Sample.twoTriples
           (Sample.aliceOf Sample.twoTriples)).
  - apply distinct_NoDup. reflexivity.
  - reflexivity.
  - reflexivity.
  - apply distinct_NoDup. reflexivity.
  - apply distinct_NoDup. reflexivity.
  - intros x Hx. simpl in Hx. simpl. tauto.
  - reflexivity.
Defined.

(** X26. A hit returns [true] only for a player who has laid down, on an
    existing group of a player who has laid down, with a card that is no
    skip and that [canHitOnGroup] accepts for the type that
    [determineGroupType] gives the group.  It then leaves the game row
    alone, takes the card out of the hand and puts it at the end of the
    group; a group that was valid for some type is, with the card, valid
    for the type determined; and when the card lies in the hand (player
    rows and hand with distinct ids) the piles and the players hold the
    same cards after the hit as before. *)
Theorem hitOnGroup_adds_to_the_group (me targetPlayerId : string)
    (groupIndex : nat) (card : Card) (s : Session) :
  returned (hitOnGroup me targetPlayerId groupIndex card s) = true ->
  exists cur targetPlayer targetGroup groupType,
    currentPlayer me s = Some cur
    /\ has_laid_down cur = true
    /\ find (fun p => String.eqb (player_id p) targetPlayerId) (players s)
       = Some targetPlayer
    /\ has_laid_down targetPlayer = true
    /\ nth_error (laid_down_cards targetPlayer) groupIndex = Some targetGroup
    /\ determineGroupType targetGroup = Some groupType
    /\ canHitOnGroup card targetGroup groupType = true
    /\ isSkip card = false
    /\ game (rows (hitOnGroup me targetPlayerId groupIndex card s)) = game s
    /\ players (rows (hitOnGroup me targetPlayerId groupIndex card s))
       = updatePlayer (player_id targetPlayer)
           (withLaidDownCards
              (Js.set_nth groupIndex (targetGroup ++ [card])
                 (laid_down_cards targetPlayer)))
           (updatePlayer (player_id cur)
              (withHand (snd (removeCardById (hand cur) (card_id card))))
              (players s))
    /\ (forall t, isValidGroup targetGroup t = true ->
                  isValidGroup (targetGroup ++ [card]) groupType = true)
    /\ (NoDup (map player_id (players s)) ->
        NoDup (map card_id (hand cur)) ->
        In card (hand cur) ->
        Permutation
          (allCards (rows (hitOnGroup me targetPlayerId groupIndex card s)))
          (allCards s)).
Proof.
  intros Hok. pose proof Hok as Hok'. revert Hok'.
  unfold hitOnGroup at 1. cbv zeta.
  destruct (currentPlayer me s) as [cur|] eqn:Hcur; [|discriminate].
  destruct (notMyTurn s cur) eqn:Hturn; [discriminate|].
  destruct (TurnPhase_eqb (turn_phase (game s)) play) eqn:Hphase;
    [|discriminate].
  destruct (has_laid_down cur) eqn:Hlaid; [|discriminate].
  cbn [negb].
  destruct (find (fun p => String.eqb (player_id p) targetPlayerId) (players s))
    as [targetPlayer|] eqn:Htarget; [|discriminate].
  destruct (has_laid_down targetPlayer) eqn:Hlaid'; [|discriminate].
  cbn [negb].
  destruct (nth_error (laid_down_cards targetPlayer) groupIndex)
    as [targetGroup|] eqn:Hgroup; [|discriminate].
  destruct (determineGroupType targetGroup) as [groupType|] eqn:Htype;
    [|discriminate].
  destruct (canHitOnGroup card targetGroup groupType) eqn:Hhit; [|discriminate].
  intros _.
  assert (Hrows : rows (hitOnGroup me targetPlayerId groupIndex card s)
                  = mkSession (game s)
                      (updatePlayer (player_id targetPlayer)
                         (withLaidDownCards
                            (Js.set_nth groupIndex (targetGroup ++ [card])
                               (laid_down_cards targetPlayer)))
                         (updatePlayer (player_id cur)
                            (withHand
                               (snd (removeCardById (hand cur) (card_id card))))
                            (players s)))
                      (phases s)).
  { unfold hitOnGroup.
    rewrite Hcur, Hturn, Hphase, Hlaid, Htarget, Hlaid', Hgroup, Htype, Hhit.
    reflexivity. }
  exists cur, targetPlayer, targetGroup, groupType.
  repeat (split; [reflexivity || assumption|]).
  split; [|split; [now rewrite Hrows|split; [now rewrite Hrows|split]]].
  - unfold canHitOnGroup in Hhit.
    destruct (isSkip card); [discriminate|reflexivity].
  - intros t Hvalid.
    destruct (determineGroupType_valid _ _ Hvalid) as (t' & Ht' & Hvalid' & _).
    assert (t' = groupType) by congruence. subst t'.
    now apply canHitOnGroup_valid.
  - intros Hnd Hhand Hin.
    exact (hitOnGroup_conserves _ _ _ _ _ Hnd Hcur Hhand Hin Hok).
Qed.

Lemma hitOnGroup_adds_to_the_group_witness :
  exists cur targetPlayer targetGroup groupType,
    currentPlayer "alice" (Sample.lastCard (Sample.numbered "a1" red 3) 0)
    = Some cur
    /\ has_laid_down cur = true
    /\ find (fun p => String.eqb (player_id p) "pa")
         (players (Sample.lastCard (Sample.numbered "a1" red 3) 0))
       = Some targetPlayer
    /\ has_laid_down targetPlayer = true
    /\ nth_error (laid_down_cards targetPlayer) 0 = Some targetGroup
    /\ determineGroupType targetGroup = Some groupType
    /\ canHitOnGroup (Sample.numbered "a1" red 3) targetGroup groupType = true
    /\ isSkip (Sample.numbered "a1" red 3) = false
    /\ game (rows (hitOnGroup "alice" "pa" 0 (Sample.numbered "a1" red 3)
                     (Sample.lastCard (Sample.numbered "a1" red 3) 0)))
       = game (Sample.lastCard (Sample.numbered "a1" red 3) 0)
    /\ players (rows (hitOnGroup "alice" "pa" 0 (Sample.numbered "a1" red 3)
                        (Sample.lastCard (Sample.numbered "a1" red 3) 0)))
       = updatePlayer (player_id targetPlayer)
           (withLaidDownCards
              (Js.set_nth 0 (targetGroup ++ [Sample.numbered "a1" red 3])
                 (laid_down_cards targetPlayer)))
           (updatePlayer (player_id cur)
              (withHand (snd (removeCardById (hand cur)
                                (card_id (Sample.numbered "a1" red 3)))))
              (players (Sample.lastCard (Sample.numbered "a1" red 3) 0)))
    /\ (forall t, isValidGroup targetGroup t = true ->
                  isValidGroup (targetGroup ++ [Sample.numbered "a1" red 3])
                    groupType = true)
    /\ (NoDup (map player_id
                 (players (Sample.lastCard (Sample.numbered "a1" red 3) 0))) ->
        NoDup (map card_id (hand cur)) ->
        In (Sample.numbered "a1" red 3) (hand cur) ->
        Permutation
          (allCards (rows (hitOnGroup "alice" "pa" 0 (Sample.numbered "a1" red 3)
                             (Sample.lastCard (Sample.numbered "a1" red 3) 0))))
          (allCards (Sample.lastCard (Sample.numbered "a1" red 3) 0))).
Proof.
  apply hitOnGroup_adds_to_the_group. reflexivity.
Defined.

End TableCoverage.

(* ================================================================== *)
(** * The lobby and the selection of cards *)
(* ================================================================== *)

Section LobbyCoverage.
Import GameStore.

Lemma existsb_eqb_In (x : string) (l : list string) :
  existsb (String.eqb x) l = true <-> In x l.
Proof.
  rewrite existsb_exists. split.
  - intros (y & Hy & E). apply String.eqb_eq in E. now subst.
  - intros H. exists x. split; [exact H|apply String.eqb_refl].
Qed.

(** X27. Selecting a card puts its id into the selection once, at the
    end, and selecting it again changes nothing; deselecting takes the id
    out and leaves the other ids in their order; deselecting a card just
    selected gives back the selection as it was; a selection without
    repeated ids stays so. *)
Theorem selection_round_trip (cardId : string) (selectedCards : list string) :
  In cardId (selectCard cardId selectedCards)
  /\ selectCard cardId (selectCard cardId selectedCards)
     = selectCard cardId selectedCards
  /\ ~ In cardId (deselectCard cardId selectedCards)
  /\ (~ In cardId selectedCards ->
      selectCard cardId selectedCards = selectedCards ++ [cardId]
      /\ deselectCard cardId selectedCards = selectedCards
      /\ deselectCard cardId (selectCard cardId selectedCards) = selectedCards)
  /\ (forall other, other <> cardId ->
        (In other (selectCard cardId selectedCards) <-> In other selectedCards)
        /\ (In other (deselectCard cardId selectedCards)
            <-> In other selectedCards))
  /\ (NoDup selectedCards ->
      NoDup (selectCard cardId selectedCards)
      /\ NoDup (deselectCard cardId selectedCards)).
Proof.
  assert (Hsel : In cardId (selectCard cardId selectedCards)).
  { unfold selectCard.
    destruct (existsb (String.eqb cardId) selectedCards) eqn:E.
    - now apply existsb_eqb_In.
    - apply in_or_app. right. now left. }
  assert (Hkeep : forall l, ~ In cardId l -> deselectCard cardId l = l).
  { intros l Hl. unfold deselectCard. apply filter_everything.
    intros x Hx. apply negb_true_iff, String.eqb_neq. intros ->. auto. }
  split; [exact Hsel|]. split; [|split; [|split; [|split]]].
  - unfold selectCard at 1.
    now rewrite (proj2 (existsb_eqb_In _ _) Hsel).
  - unfold deselectCard. rewrite filter_In, String.eqb_refl.
    intros [_ H]. discriminate.
  - intros Hnot.
    assert (E : selectCard cardId selectedCards = selectedCards ++ [cardId]).
    { unfold selectCard.
      destruct (existsb (String.eqb cardId) selectedCards) eqn:E;
        [|reflexivity].
      apply existsb_eqb_In in E. contradiction. }
    split; [exact E|]. split; [now apply Hkeep|].
    rewrite E. unfold deselectCard. rewrite filter_app. cbn [filter].
    rewrite String.eqb_refl. cbn [negb]. rewrite app_nil_r. now apply Hkeep.
  - intros other Hother. split.
    + unfold selectCard.
      destruct (existsb (String.eqb cardId) selectedCards); [tauto|].
      rewrite in_app_iff. cbn [In]. split; [intros [H|[H|[]]]|]; auto.
      congruence.
    + unfold deselectCard. rewrite filter_In. split; [tauto|].
      intros H. split; [exact H|]. now apply negb_true_iff, String.eqb_neq.
  - intros Hnd. split.
    + unfold selectCard.
      destruct (existsb (String.eqb cardId) selectedCards) eqn:E; [exact Hnd|].
      apply NoDup_app; auto.
      * repeat constructor. intros [].
      * intros x Hx [<-|[]].
        apply (proj2 (existsb_eqb_In _ _)) in Hx. congruence.
    + unfold deselectCard. now apply NoDup_filter.
Qed.

Lemma fold_max_bound (seats : list nat) :
  forall x, In x seats -> x <= fold_right Nat.max 0 seats.
Proof.
  induction seats as [|a seats IH]; intros x Hx; [contradiction|].
  cbn [fold_right]. destruct Hx as [<-|Hx]; [lia|]. specialize (IH x Hx). lia.
Qed.

(** X28. The seat that [joinGame] computes: a table that already has
    [maxPlayers] players (6 when the setting is missing or 0) is full;
    otherwise the joiner gets seat 0 at an empty table and else a seat
    above every seat taken, so distinct seats stay distinct, and the table
    never has more players than its capacity. *)
Theorem joinSeat_gives_a_free_seat (maxPlayers : option nat) (seats : list nat) :
  (capacity maxPlayers <= length seats ->
   joinSeat maxPlayers seats = inl "Game is full"%string)
  /\ (length seats < capacity maxPlayers ->
      exists nextSeat,
        joinSeat maxPlayers seats = inr nextSeat
        /\ (seats = [] -> nextSeat = 0)
        /\ (forall x, In x seats -> x < nextSeat)
        /\ ~ In nextSeat seats
        /\ (NoDup seats -> NoDup (seats ++ [nextSeat]))
        /\ length (seats ++ [nextSeat]) <= capacity maxPlayers)
  /\ (maxPlayers = None \/ maxPlayers = Some 0 -> capacity maxPlayers = 6).
Proof.
  split; [|split].
  - intros H. unfold joinSeat. apply Nat.leb_le in H. now rewrite H.
  - intros H. unfold joinSeat.
    destruct (Nat.leb_spec (capacity maxPlayers) (length seats)) as [Hle|_];
      [lia|].
    eexists. split; [reflexivity|].
    assert (Habove : forall x, In x seats ->
              x < (if 0 <? length seats
                   then fold_right Nat.max 0 seats + 1 else 0)).
    { intros x Hx. pose proof (fold_max_bound seats x Hx).
      destruct seats; [contradiction|]. cbn [length Nat.ltb Nat.leb]. lia. }
    split; [intros ->; reflexivity|]. split; [exact Habove|].
    assert (Hfree : ~ In (if 0 <? length seats
                          then fold_right Nat.max 0 seats + 1 else 0) seats).
    { intros Hin. specialize (Habove _ Hin). lia. }
    split; [exact Hfree|]. split.
    + intros Hnd. apply NoDup_app; auto.
      * repeat constructor. intros [].
      * intros x Hx [<-|[]]. auto.
    + rewrite length_app. cbn [length]. lia.
  - intros [->| ->]; reflexivity.
Qed.

Lemma codeChar_spec (r : nat) :
  exists ch, codeChar r = String ch EmptyString
             /\ In ch (list_ascii_of_string codeChars).
Proof.
  unfold codeChar.
  assert (Hlen : String.length codeChars = 32) by reflexivity.
  rewrite Hlen.
  pose proof (Nat.mod_upper_bound r 32 ltac:(discriminate)) as Hk.
  set (k := r mod 32) in *. clearbody k.
  do 32 (destruct k as [|k];
         [eexists; split; [reflexivity|];
          cbn; repeat first [left; reflexivity | right]|]).
  lia.
Qed.

(** X29. A game code has six characters, each of them one of the 32
    characters of the alphabet of the generator, whatever the random
    draws; none of them is one of the look-alikes I, O, 0 and 1. *)
Theorem generateGameCode_shape (rnd : nat -> nat) :
  String.length (generateGameCode rnd) = 6
  /\ forall ch,
       In ch (list_ascii_of_string (generateGameCode rnd)) ->
       In ch (list_ascii_of_string codeChars)
       /\ ch <> "I"%char /\ ch <> "O"%char /\ ch <> "0"%char /\ ch <> "1"%char.
Proof.
  unfold generateGameCode. cbn [seq fold_left].
  destruct (codeChar_spec (rnd 0)) as (c0 & -> & H0).
  destruct (codeChar_spec (rnd 1)) as (c1 & -> & H1).
  destruct (codeChar_spec (rnd 2)) as (c2 & -> & H2).
  destruct (codeChar_spec (rnd 3)) as (c3 & -> & H3).
  destruct (codeChar_spec (rnd 4)) as (c4 & -> & H4).
  destruct (codeChar_spec (rnd 5)) as (c5 & -> & H5).
  cbn [String.append String.length list_ascii_of_string].
  split; [reflexivity|].
  assert (Hclear : forall ch, In ch (list_ascii_of_string codeChars) ->
            ch <> "I"%char /\ ch <> "O"%char /\ ch <> "0"%char /\ ch <> "1"%char).
  { intros ch Hch. cbn in Hch.
    repeat (destruct Hch as [<-|Hch];
            [repeat split; discriminate|]).
    contradiction. }
  intros ch [<-|[<-|[<-|[<-|[<-|[<-|[]]]]]]]; auto.
Qed.

End LobbyCoverage.
